(** * Reachy Mini + Gemini Live chat bridge (src/main.py)

    A shallow embedding of the streaming bridge of [main.py]: the audio
    codec steps written inline in the two audio duty cycles, the three
    duty-cycle loops of [ReachyGeminiChat], its [start]/[stop]/[run]
    life cycle and the [main] entry point.  With it, the text quiz of
    [quiz_game.py]: [ReachyQuizGame] and its [main].

    Conventions.
    - Audio samples are numpy floats in the source.  Each float denotes a
      rational number, and a sample is modelled by that rational ([Q]);
      products and quotients are taken exactly, so the rounding of the
      float multiplication and division is outside the model.
    - Integers are [Z]; the [int16] cast is written out with its
      wrap-around; byte strings are [list byte].
    - Calls into the device, the remote session and scipy are answered by
      an explicit environment (a script), and every effect of the program
      is recorded in a trace of events.
    - The clock is virtual: a number of milliseconds that every sleep
      advances. *)

From Stdlib Require Import ZArith QArith Qabs Qround Lqa List Lia String Bool.
From Stdlib Require Import Init.Byte Strings.Byte.
From stdpp Require Import gmap strings pretty.
Import ListNotations.

Local Open Scope Z_scope.

(** ** Configuration (main.py, lines 22-26) *)

Definition SAMPLE_RATE_INPUT : Z := 16000.
Definition SAMPLE_RATE_OUTPUT : Z := 24000.
Definition VIDEO_FPS : Z := 1.
Definition VIDEO_SIZE : Z * Z := (768, 768).

(** ** Exceptions and fallible steps *)

Inductive exn : Type :=
| ZeroDivisionError
| ValueError (msg : string)
| TransportError (msg : string)
| KeyboardInterrupt
| OtherError (msg : string).

(** [except Exception] catches every exception of the model but
    [KeyboardInterrupt], which derives from [BaseException]. *)
Definition is_Exception (e : exn) : bool :=
  match e with
  | KeyboardInterrupt => false
  | _ => true
  end.

Inductive result (A : Type) : Type :=
| Ok (a : A)
| Raise (e : exn).
Arguments Ok {A} a.
Arguments Raise {A} e.

Definition bind {A B : Type} (r : result A) (k : A -> result B) : result B :=
  match r with
  | Ok a => k a
  | Raise e => Raise e
  end.

Notation "'do' x <- r ; k" := (bind r (fun x => k))
  (at level 10, x name, r at level 100, k at level 200).

(** ** The codec steps *)

Module Codec.

(** *** The [int16] cast: [.astype(np.int16)]

    The cast drops the fractional part (rounds toward zero) and keeps the
    low sixteen bits of the integer, read as a signed number. *)

Definition Qtrunc (q : Q) : Z := Z.quot (Qnum q) (Z.pos (Qden q)).

Definition wrap_int16 (z : Z) : Z := (z + 32768) mod 65536 - 32768.

Definition astype_int16 (q : Q) : Z := wrap_int16 (Qtrunc q).

(** [(mono_samples * 32767).astype(np.int16)], one sample (line 116). *)
Definition float_to_pcm16 (s : Q) : Z := astype_int16 (s * 32767)%Q.

(** [audio_array.astype(np.float32) / 32767.0], one sample (line 177). *)
Definition pcm16_to_float (v : Z) : Q := (inject_Z v / 32767)%Q.

(** *** [.tobytes()] and [np.frombuffer(_, dtype=np.int16)]

    Two bytes per sample, low byte first. *)

Definition byte_of_Z (z : Z) : byte :=
  match Byte.of_N (Z.to_N (z mod 256)) with
  | Some b => b
  | None => x00
  end.

Definition Z_of_byte (b : byte) : Z := Z.of_N (Byte.to_N b).

Definition int16_bytes (v : Z) : list byte :=
  [byte_of_Z (v mod 65536); byte_of_Z ((v mod 65536) / 256)].

Definition tobytes (vs : list Z) : list byte := concat (map int16_bytes vs).

Definition int16_of_bytes (lo hi : byte) : Z :=
  wrap_int16 (Z_of_byte lo + 256 * Z_of_byte hi).

(** [np.frombuffer] raises [ValueError] when the buffer does not hold a
    whole number of elements. *)
Fixpoint frombuffer (bs : list byte) : result (list Z) :=
  match bs with
  | [] => Ok []
  | lo :: hi :: rest =>
      do vs <- frombuffer rest; Ok (int16_of_bytes lo hi :: vs)
  | [_] => Raise (ValueError "buffer size must be a multiple of element size")
  end.

(** Line 116 on a whole buffer:
    [(mono_samples * 32767).astype(np.int16).tobytes()]. *)
Definition to_pcm_data (mono_samples : list Q) : list byte :=
  tobytes (map float_to_pcm16 mono_samples).

(** Lines 176-177 on a whole buffer:
    [np.frombuffer(audio_data, dtype=np.int16).astype(np.float32) / 32767.0]. *)
Definition to_audio_float (audio_data : list byte) : result (list Q) :=
  do audio_array <- frombuffer audio_data;
  Ok (map pcm16_to_float audio_array).

(** *** Sample blocks: the numpy arrays the device hands out

    [get_audio_sample] returns a one-dimensional array of samples or a
    two-dimensional one, a row per frame and a column per channel. *)

Inductive ndarray : Type :=
| Arr1 (data : list Q)
| Arr2 (cols : nat) (rows : list (list Q)).

(** Every row of a two-dimensional array has [cols] entries. *)
Definition wf_ndarray (a : ndarray) : Prop :=
  match a with
  | Arr1 _ => True
  | Arr2 cols rows => Forall (fun row => length row = cols) rows
  end.

(** [len(samples)]: the size of the first axis. *)
Definition len (a : ndarray) : nat :=
  match a with
  | Arr1 data => length data
  | Arr2 _ rows => length rows
  end.

(** [samples.shape] *)
Definition shape (a : ndarray) : list nat :=
  match a with
  | Arr1 data => [length data]
  | Arr2 cols rows => [length rows; cols]
  end.

(** [samples.flatten()]: the entries in row-major order. *)
Definition flatten (a : ndarray) : list Q :=
  match a with
  | Arr1 data => data
  | Arr2 _ rows => concat rows
  end.

(** [np.mean(row)]: the sum of the entries over their number. *)
Definition mean (row : list Q) : Q :=
  (fold_left Qplus row 0 / inject_Z (Z.of_nat (length row)))%Q.

(** The mono fold (lines 105-108):
[[
    if len(samples.shape) > 1 and samples.shape[1] == 2:
        mono_samples = np.mean(samples, axis=1)
    else:
        mono_samples = samples.flatten()
]]
    The shape has more than one entry exactly for [Arr2], and its second
    entry is the number of columns. *)
Definition to_mono (samples : ndarray) : list Q :=
  match samples with
  | Arr2 2 rows => map mean rows
  | _ => flatten samples
  end.

(** *** Resampling

    [num_samples = int(len(x) * to_rate / from_rate)]: a true division
    (which raises on a zero divisor) followed by [int], which drops the
    fractional part. *)
Definition num_samples (n to_rate from_rate : Z) : result Z :=
  if from_rate =? 0 then Raise ZeroDivisionError
  else Ok (Z.quot (n * to_rate) from_rate).

(** [scipy.signal.resample(x, num)] is a library routine outside the
    repository.  It is taken as a parameter: whatever it computes, a call
    that returns hands back [num] samples, and a call on a buffer that is
    not empty for a positive [num] does return. *)
Class Resampler : Type := {
  resample : list Q -> Z -> result (list Q);
  resample_length :
    forall x num ys, resample x num = Ok ys -> Z.of_nat (length ys) = num;
  resample_returns :
    forall x num, x <> [] -> 0 < num -> exists ys, resample x num = Ok ys
}.

(** The resampling step of both audio duty cycles (lines 111-113 and
    180-182): nothing is done when the two rates agree. *)
Definition resample_step `{Resampler}
    (x : list Q) (from_rate to_rate : Z) : result (list Q) :=
  if from_rate =? to_rate then Ok x
  else do num <- num_samples (Z.of_nat (length x)) to_rate from_rate;
       resample x num.

End Codec.

(** ** Effects: the trace of a run *)

(** [types.Blob(data=..., mime_type=...)] *)
Record Blob : Type := { data : list byte; mime_type : string }.

Inductive event : Type :=
| EPrint (msg : string)
| ESleep (ms : Z)
| EGetAudioSample
| EGetFrame
| ESendAudio (b : Blob) (outcome : result unit)
| ESendMedia (b : Blob) (outcome : result unit)
| EReceive
| EPushAudioSample (stereo : list (Q * Q))
| ESetRunning (b : bool)
| EClientInit
| EReachyInit
| EReachyEnter
| EStartRecording
| EStartPlaying
| EConnect
| EGather
| ESessionClose
| EStopRecording
| EStopPlaying
| EReachyExit.

(** The text of an exception, as [print(f"...: {e}")] shows it. *)
Definition show_exn (e : exn) : string :=
  match e with
  | ZeroDivisionError => "division by zero"
  | ValueError msg => msg
  | TransportError msg => msg
  | KeyboardInterrupt => ""
  | OtherError msg => msg
  end.

(** How a duty cycle stands once its script of answers is used up. *)
Inductive loop_status : Type :=
| StillLooping           (* the loop is at its head and [self.running] holds *)
| Returned               (* the loop test saw [self.running] false *)
| Propagated (e : exn).  (* an exception left the loop *)

(** ** Audio-up: [capture_and_send_audio] (lines 91-125) *)

Module AudioUp.
Import Codec.

Section WithResampler.
Context `{Resampler}.

(** What the outside answers in one pass of the loop: the device poll and
    the session's send. *)
Record answers : Type := {
  a_sample : result (option ndarray);
  a_send : result unit
}.

(** Lines 104-116: mono fold, resample, PCM16 conversion. *)
Definition encode_block (reachy_sample_rate : Z) (samples : ndarray)
    : result Blob :=
  let mono_samples := to_mono samples in
  do mono_samples <-
    resample_step mono_samples reachy_sample_rate SAMPLE_RATE_INPUT;
  let pcm_data := to_pcm_data mono_samples in
  Ok {| data := pcm_data; mime_type := "audio/pcm;rate=16000" |}.

(** The body of the [try] (lines 97-121): the events and how it ended. *)
Definition audio_try (reachy_sample_rate : Z) (env : answers)
    : list event * result unit :=
  match a_sample env with
  | Raise e => ([EGetAudioSample], Raise e)
  | Ok None => ([EGetAudioSample; ESleep 10], Ok tt)
  | Ok (Some samples) =>
      if (len samples =? 0)%nat then ([EGetAudioSample; ESleep 10], Ok tt)
      else
        match encode_block reachy_sample_rate samples with
        | Raise e => ([EGetAudioSample], Raise e)
        | Ok blob =>
            ([EGetAudioSample; ESendAudio blob (a_send env)], a_send env)
        end
  end.

(** One pass of the [while] body with its [except Exception] handler
    (lines 123-125).  [Some e]: the exception [e] was not caught. *)
Definition audio_iteration (reachy_sample_rate : Z) (env : answers)
    : list event * option exn :=
  match audio_try reachy_sample_rate env with
  | (evs, Ok _) => (evs, None)
  | (evs, Raise e) =>
      if is_Exception e
      then (evs ++ [EPrint ("Audio capture error: " ++ show_exn e); ESleep 100],
            None)
      else (evs, Some e)
  end.

(** [while self.running: ...] against a script of answers.  The body never
    assigns [self.running]; the flag is threaded through to make that
    visible. *)
Fixpoint audio_loop (running : bool) (reachy_sample_rate : Z)
    (script : list answers) : list event * bool * loop_status :=
  if running then
    match script with
    | [] => ([], running, StillLooping)
    | env :: rest =>
        match audio_iteration reachy_sample_rate env with
        | (evs, Some e) => (evs, running, Propagated e)
        | (evs, None) =>
            let '(evs', running', st) :=
              audio_loop running reachy_sample_rate rest in
            (evs ++ evs', running', st)
        end
    end
  else ([], running, Returned).

End WithResampler.
End AudioUp.

(** ** Video-up: [capture_and_send_video] (lines 127-155)

    The loop is run against a virtual clock, in milliseconds.  A sleep of
    [d] ms ends no earlier than [d] ms after it began; everything else
    takes what the script says it takes, and never less than nothing. *)

Module VideoUp.

(** [1.0 / VIDEO_FPS] seconds, in milliseconds. *)
Definition throttle_ms : Z := 1000 / VIDEO_FPS.

Record answers : Type := {
  v_frame : result (option (list byte));   (* [get_frame()] *)
  v_encode : result (list byte);           (* [cv2.resize], [cv2.imencode] *)
  v_send : result unit;                    (* [send_realtime_input] *)
  v_work : N;      (* ms from the head of the pass to the end of the send *)
  v_late : N       (* ms by which the sleep of this pass oversleeps *)
}.


(** [await asyncio.sleep(ms / 1000)] begun at [now]: the event and the
    time at which the loop resumes. *)
Definition sleep_from (now ms : Z) (env : answers) : list (Z * event) * Z :=
  ([(now, ESleep ms)], now + ms + Z.of_N (v_late env)).

(** The body of the [try] (lines 131-151), begun at [now]: the events, each
    with its time, the time afterwards and how the body ended. *)
Definition video_try (now : Z) (env : answers)
    : list (Z * event) * Z * result unit :=
  match v_frame env with
  | Raise e => ([(now, EGetFrame)], now, Raise e)
  | Ok None =>
      let '(evs, now') := sleep_from now 100 env in
      ((now, EGetFrame) :: evs, now', Ok tt)
  | Ok (Some frame) =>
      match v_encode env with
      | Raise e => ([(now, EGetFrame)], now + Z.of_N (v_work env), Raise e)
      | Ok jpeg =>
          let sent := now + Z.of_N (v_work env) in
          let blob := {| data := jpeg; mime_type := "image/jpeg" |} in
          match v_send env with
          | Raise e =>
              ([(now, EGetFrame); (sent, ESendMedia blob (Raise e))],
               sent, Raise e)
          | Ok _ =>
              let '(evs, now') := sleep_from sent throttle_ms env in
              ((now, EGetFrame) :: (sent, ESendMedia blob (Ok tt)) :: evs,
               now', Ok tt)
          end
      end
  end.

(** One pass of the [while] body with its handler (lines 153-155). *)
Definition video_iteration (now : Z) (env : answers)
    : list (Z * event) * Z * option exn :=
  match video_try now env with
  | (evs, now', Ok _) => (evs, now', None)
  | (evs, now', Raise e) =>
      if is_Exception e
      then
        let '(sl, now'') := sleep_from now' 500 env in
        (evs ++ (now', EPrint ("Video capture error: " ++ show_exn e)) :: sl,
         now'', None)
      else (evs, now', Some e)
  end.

Fixpoint video_loop (running : bool) (now : Z) (script : list answers)
    : list (Z * event) * bool * loop_status :=
  if running then
    match script with
    | [] => ([], running, StillLooping)
    | env :: rest =>
        match video_iteration now env with
        | (evs, _, Some e) => (evs, running, Propagated e)
        | (evs, now', None) =>
            let '(evs', running', st) := video_loop running now' rest in
            (evs ++ evs', running', st)
        end
    end
  else ([], running, Returned).

(** A frame went out: the send returned. *)
Definition is_sent (ev : event) : bool :=
  match ev with
  | ESendMedia _ (Ok _) => true
  | _ => false
  end.

(** The number of frames sent no later than [deadline]. *)
Definition sends_by (deadline : Z) (tr : list (Z * event)) : Z :=
  Z.of_nat
    (length (List.filter
               (fun te => is_sent (snd te) && (fst te <=? deadline)) tr)).

End VideoUp.

(** ** Audio-down: [receive_and_play_audio] (lines 157-197) *)

Module AudioDown.
Import Codec.

Section WithResampler.
Context `{Resampler}.

(** [part.inline_data.data], when [part.inline_data] is there. *)
Record part : Type := { inline_data : option (list byte) }.

(** [response.server_content]: the parts of its [model_turn] (when it has
    one) and its [turn_complete] flag. *)
Record response : Type := {
  model_turn : option (list part);
  turn_complete : bool
}.

(** [np.column_stack([audio_float, audio_float])] *)
Definition column_stack (xs : list Q) : list (Q * Q) :=
  map (fun x => (x, x)) xs.

(** Lines 173-185: bytes to floats, resample, duplicate to two channels. *)
Definition decode_block (reachy_output_rate : Z) (audio_data : list byte)
    : result (list (Q * Q)) :=
  do audio_float <- to_audio_float audio_data;
  do audio_float <-
    resample_step audio_float SAMPLE_RATE_OUTPUT reachy_output_rate;
  Ok (column_stack audio_float).

(** Lines 171-188, the loop over the parts of one response. *)
Fixpoint play_parts (reachy_output_rate : Z) (parts : list part)
    : list event * result unit :=
  match parts with
  | [] => ([], Ok tt)
  | p :: rest =>
      match inline_data p with
      | None | Some [] => play_parts reachy_output_rate rest
      | Some audio_data =>
          match decode_block reachy_output_rate audio_data with
          | Raise e => ([], Raise e)
          | Ok audio_stereo =>
              let '(evs, r) := play_parts reachy_output_rate rest in
              (EPushAudioSample audio_stereo :: evs, r)
          end
      end
  end.

(** Lines 169-192, one response of a turn. *)
Definition play_response (reachy_output_rate : Z) (r : response)
    : list event * result unit :=
  let '(evs, res) :=
    match model_turn r with
    | Some parts => play_parts reachy_output_rate parts
    | None => ([], Ok tt)
    end in
  match res with
  | Raise e => (evs, Raise e)
  | Ok _ =>
      if turn_complete r then (evs ++ [EPrint "[Turn complete]"], Ok tt)
      else (evs, Ok tt)
  end.

(** Lines 165-192, [async for response in turn] with [self.running] true. *)
Fixpoint play_turn (reachy_output_rate : Z) (turn : list response)
    : list event * result unit :=
  match turn with
  | [] => ([], Ok tt)
  | r :: rest =>
      match play_response reachy_output_rate r with
      | (evs, Raise e) => (evs, Raise e)
      | (evs, Ok _) =>
          let '(evs', res) := play_turn reachy_output_rate rest in
          (evs ++ evs', res)
      end
  end.

(** One pass of the [while] body: a turn and the handler (lines 194-197). *)
Definition receive_iteration (reachy_output_rate : Z) (turn : list response)
    : list event * option exn :=
  match play_turn reachy_output_rate turn with
  | (evs, Ok _) => (EReceive :: evs, None)
  | (evs, Raise e) =>
      if is_Exception e
      then (EReceive :: evs ++
              [EPrint ("Audio receive error: " ++ show_exn e); ESleep 100],
            None)
      else (EReceive :: evs, Some e)
  end.

Fixpoint receive_loop (running : bool) (reachy_output_rate : Z)
    (script : list (list response)) : list event * bool * loop_status :=
  if running then
    match script with
    | [] => ([], running, StillLooping)
    | turn :: rest =>
        match receive_iteration reachy_output_rate turn with
        | (evs, Some e) => (evs, running, Propagated e)
        | (evs, None) =>
            let '(evs', running', st) :=
              receive_loop running reachy_output_rate rest in
            (evs ++ evs', running', st)
        end
    end
  else ([], running, Returned).

End WithResampler.
End AudioDown.

(** ** The life cycle: [start], [stop], [run], [main]
    (lines 34-89 and 199-236) *)

Module Chat.

(** The fields of [ReachyGeminiChat] that the life cycle assigns:
    [self.reachy] and [self.session] ([None] until assigned) and
    [self.running]; and the trace so far. *)
Record chat : Type := {
  reachy : bool;
  session : bool;
  running : bool;
  trace : list event
}.

(** [__init__] (lines 35-40). *)
Definition init : chat :=
  {| reachy := false; session := false; running := false; trace := [] |}.

(** How each call into the robot, the remote endpoint and the scheduler
    ends in one run of the program. *)
Record world : Type := {
  w_reachy_init : result unit;       (* [ReachyMini(media_backend=...)] *)
  w_reachy_enter : result unit;      (* [reachy.__enter__()] *)
  w_start_recording : result unit;
  w_start_playing : result unit;
  w_input_rate : Z;
  w_output_rate : Z;
  w_connect : result unit;           (* [client.aio.live.connect(...)] *)
  w_gather : result unit;            (* the three duty cycles, as one *)
  w_close : result unit;             (* [session.close()] *)
  w_stop_recording : result unit;
  w_stop_playing : result unit;
  w_reachy_exit : result unit        (* [reachy.__exit__(None, None, None)] *)
}.

(** Methods: state in, a result and state out. *)
Definition M (A : Type) : Type := chat -> result A * chat.

Definition ret {A : Type} (a : A) : M A := fun c => (Ok a, c).

Definition seq {A B : Type} (m : M A) (k : A -> M B) : M B :=
  fun c =>
    match m c with
    | (Ok a, c') => k a c'
    | (Raise e, c') => (Raise e, c')
    end.

Notation "m >> k" := (seq m (fun _ => k))
  (at level 62, right associativity).

Definition emit (ev : event) : M unit :=
  fun c => (Ok tt, {| reachy := reachy c; session := session c;
                      running := running c; trace := trace c ++ [ev] |}).

(** A call into the outside: it is recorded, then it returns or raises. *)
Definition call (ev : event) (outcome : result unit) : M unit :=
  fun c => (outcome, snd (emit ev c)).

Definition print (msg : string) : M unit := emit (EPrint msg).

Definition set_reachy (b : bool) : M unit :=
  fun c => (Ok tt, {| reachy := b; session := session c;
                      running := running c; trace := trace c |}).

Definition set_session (b : bool) : M unit :=
  fun c => (Ok tt, {| reachy := reachy c; session := b;
                      running := running c; trace := trace c |}).

(** [self.running = b], recorded in the trace as well. *)
Definition set_running (b : bool) : M unit :=
  fun c => (Ok tt, {| reachy := reachy c; session := session c;
                      running := b; trace := trace c ++ [ESetRunning b] |}).

Definition when (b : chat -> bool) (m : M unit) : M unit :=
  fun c => if b c then m c else (Ok tt, c).

(** [try: body except KeyboardInterrupt: handler] *)
Definition try_except_interrupt (body handler : M unit) : M unit :=
  fun c =>
    match body c with
    | (Raise KeyboardInterrupt, c') => handler c'
    | other => other
    end.

(** [try: body finally: final]: [final] runs however [body] ended; when it
    raises, its exception is the one that goes on. *)
Definition try_finally (body final : M unit) : M unit :=
  fun c =>
    let '(r, c') := body c in
    match final c' with
    | (Ok _, c'') => (r, c'')
    | (Raise e, c'') => (Raise e, c'')
    end.

Definition rate_line (what : string) (hz : Z) : string :=
  ("Audio " ++ what ++ " sample rate: " ++ pretty hz ++ " Hz")%string.

(** [start] (lines 42-75). *)
Definition start (w : world) : M unit :=
  print "Connecting to Reachy Mini..." >>
  call EReachyInit (w_reachy_init w) >>
  set_reachy true >>
  call EReachyEnter (w_reachy_enter w) >>
  call EStartRecording (w_start_recording w) >>
  call EStartPlaying (w_start_playing w) >>
  print "Connected to Reachy Mini" >>
  print (rate_line "input" (w_input_rate w)) >>
  print (rate_line "output" (w_output_rate w)) >>
  print "Connecting to Gemini Live API..." >>
  call EConnect (w_connect w) >>
  set_session true >>
  print "Connected to Gemini Live API" >>
  set_running true.

(** [stop] (lines 77-89). *)
Definition stop (w : world) : M unit :=
  set_running false >>
  when session (call ESessionClose (w_close w)) >>
  when reachy
    (call EStopRecording (w_stop_recording w) >>
     call EStopPlaying (w_stop_playing w) >>
     call EReachyExit (w_reachy_exit w)) >>
  print "Disconnected".

Definition newline : string := String (Ascii.ascii_of_nat 10) EmptyString.

(** ["=" * 50] *)
Definition rule : string :=
  "==================================================".

(** [run] (lines 199-221). *)
Definition run (w : world) : M unit :=
  try_finally
    (try_except_interrupt
       (start w >>
        print (newline ++ rule) >>
        print "Reachy Mini + Gemini Live Chat" >>
        print rule >>
        print "Speak to Reachy - Gemini can see and hear you!" >>
        print "Press Ctrl+C to exit" >>
        print (rule ++ newline) >>
        call EGather (w_gather w))
       (print (newline ++ "Shutting down...")))
    (stop w).

(** [os.getenv(name)] on the process environment, a dictionary. *)
Definition getenv (environ : gmap string string) (name : string)
    : option string := environ !! name.

(** The truth value of [os.getenv(...)]: [None] and the empty string are
    false. *)
Definition truthy (v : option string) : bool :=
  match v with
  | None => false
  | Some s => negb (String.eqb s "")
  end.

(** [main] (lines 224-232). *)
Definition main (environ : gmap string string) (w : world) : M unit :=
  if negb (truthy (getenv environ "GEMINI_API_KEY")) then
    print "Error: GEMINI_API_KEY environment variable not set" >>
    print "Create a .env file with: GEMINI_API_KEY=your_api_key_here" >>
    ret tt
  else
    emit EClientInit >> run w.

(** [asyncio.run(main())] as the whole program (lines 235-236): the
    interpreter's exit status is 0 when [main] returns and non-zero (1)
    when an exception leaves it; with it, everything the program did. *)
Definition exit_status (r : result unit) : Z :=
  match r with
  | Ok _ => 0
  | Raise _ => 1
  end.

Definition program (environ : gmap string string) (w : world)
    : Z * list event :=
  let '(r, c) := main environ w init in (exit_status r, trace c).

End Chat.

(** ** The quiz game: [quiz_game.py]

    The text game of [ReachyQuizGame]: the robot's moves over HTTP, the
    questions and verdicts asked of the model, the answers typed by the
    player, and the two counters of the game.

    Text is a Python [str], modelled by its UTF-8 bytes.  [strip],
    [lower] and [upper] depend on the Unicode tables and are parameters;
    the other string operations are written out: their arguments are
    ASCII, for which bytes and characters agree.  Every call to the
    outside is answered by the world, in the order of the calls; a reply
    of the model without text is the [AttributeError] that [.strip()]
    then raises.  A run is what [main] and the methods do to the game
    and what they return or raise; [True] for a [while] loop that was
    left, [False] when the rounds allowed to it ran out.  The percentage
    of the final score is a rational: the quotient of the code is a
    double, which for counters below [2^40] falls on the same side of
    80 and of 60. *)

Module Quiz.

Definition nl : string := String (Ascii.ascii_of_nat 10) EmptyString.
Definition dq : string := String (Ascii.ascii_of_nat 34) EmptyString.

(** [str.strip()], [str.lower()] and [str.upper()]. *)
Class Text : Type := {
  strip : string -> string;
  lower : string -> string;
  upper : string -> string
}.

(** [s.startswith(p)] *)
Definition startswith (p s : string) : bool := String.prefix p s.

(** [" " in s] *)
Fixpoint has_space (s : string) : bool :=
  match s with
  | EmptyString => false
  | String c rest => Ascii.eqb c (Ascii.ascii_of_nat 32) || has_space rest
  end.

(** [s.split(" ", 1)[1]], for an [s] with a space in it. *)
Fixpoint after_first_space (s : string) : string :=
  match s with
  | EmptyString => EmptyString
  | String c rest => if Ascii.eqb c (Ascii.ascii_of_nat 32) then rest else after_first_space rest
  end.

(** [s.split('\n')]: the pieces between the newlines, never none. *)
Fixpoint split_lines (s : string) : list string :=
  match s with
  | EmptyString => [EmptyString]
  | String c rest =>
      if Ascii.eqb c (Ascii.ascii_of_nat 10) then EmptyString :: split_lines rest
      else match split_lines rest with
           | [] => [String c EmptyString]
           | line :: lines => String c line :: lines
           end
  end.

(** [s.replace(old, new)] for a non-empty [old]: every occurrence of
    [old], from the left and without overlap; [skip] counts the characters
    of an occurrence still to be passed over. *)
Fixpoint replace_from (old new : string) (skip : nat) (s : string) : string :=
  match s with
  | EmptyString => EmptyString
  | String c rest =>
      match skip with
      | S k => replace_from old new k rest
      | O =>
          if String.prefix old s
          then new ++ replace_from old new (String.length old - 1) rest
          else String c (replace_from old new 0 rest)
      end
  end.

Definition replace (old new s : string) : string := replace_from old new 0 s.

Inductive qevent : Type :=
| QPrint (msg : string)
| QGetStatus
| QClientInit
| QPost (antennas : Q * Q) (head_pitch duration : Q)
| QSleep (seconds : Q)
| QGenerate (contents : string)
| QInput (prompt : string).

(** What the outside answers: the daemon's state ([None] when the reply
    has no such key), the [i]-th move request, the text of the [i]-th
    reply of the model, the [i]-th line typed. *)
Record world : Type := {
  daemon_state : result (option string);
  post : nat -> result unit;
  generated : nat -> result string;
  typed : nat -> result string
}.

(** The two counters of [ReachyQuizGame], the numbers of calls made so
    far, and the trace. *)
Record game : Type := {
  score : Z;
  questions_asked : Z;
  posts : nat;
  gens : nat;
  inputs : nat;
  trace : list qevent
}.

(** [__init__] (lines 19-22). *)
Definition init : game :=
  {| score := 0; questions_asked := 0; posts := 0; gens := 0; inputs := 0;
     trace := [] |}.

Definition G (A : Type) : Type := game -> result A * game.

Definition ret {A : Type} (a : A) : G A := fun g => (Ok a, g).

Definition seq {A B : Type} (m : G A) (k : A -> G B) : G B :=
  fun g =>
    match m g with
    | (Ok a, g') => k a g'
    | (Raise e, g') => (Raise e, g')
    end.

Notation "x <- m ;; k" := (seq m (fun x => k))
  (at level 63, m at next level, right associativity).
Notation "m ;;; k" := (seq m (fun _ => k))
  (at level 63, right associativity).

Definition log (ev : qevent) (g : game) : game :=
  {| score := score g; questions_asked := questions_asked g;
     posts := posts g; gens := gens g; inputs := inputs g;
     trace := trace g ++ [ev] |}.

Definition print (msg : string) : G unit :=
  fun g => (Ok tt, log (QPrint msg) g).

(** Reading the fields of [self]. *)
Definition read {A : Type} (f : game -> A) : G A := fun g => (Ok (f g), g).

(** [time.sleep(seconds)] *)
Definition sleep (seconds : Q) : G unit :=
  fun g => (Ok tt, log (QSleep seconds) g).

(** [requests.post(f"{REACHY_URL}/api/move/goto", json=..., timeout=5)] *)
Definition post_move (w : world) (antennas : Q * Q) (head_pitch duration : Q)
    : G unit :=
  fun g =>
    (post w (posts g),
     {| score := score g; questions_asked := questions_asked g;
        posts := S (posts g); gens := gens g; inputs := inputs g;
        trace := trace g ++ [QPost antennas head_pitch duration] |}).

(** [self.client.models.generate_content(model=..., contents=...)], and
    the [text] of the response. *)
Definition generate_content (w : world) (contents : string) : G string :=
  fun g =>
    (generated w (gens g),
     {| score := score g; questions_asked := questions_asked g;
        posts := posts g; gens := S (gens g); inputs := inputs g;
        trace := trace g ++ [QGenerate contents] |}).

(** [input(prompt)] *)
Definition input (w : world) (prompt : string) : G string :=
  fun g =>
    (typed w (inputs g),
     {| score := score g; questions_asked := questions_asked g;
        posts := posts g; gens := gens g; inputs := S (inputs g);
        trace := trace g ++ [QInput prompt] |}).

(** [self.questions_asked += 1] and [self.score += 1] *)
Definition count_question : G unit :=
  fun g =>
    (Ok tt,
     {| score := score g; questions_asked := questions_asked g + 1;
        posts := posts g; gens := gens g; inputs := inputs g;
        trace := trace g |}).

Definition count_point : G unit :=
  fun g =>
    (Ok tt,
     {| score := score g + 1; questions_asked := questions_asked g;
        posts := posts g; gens := gens g; inputs := inputs g;
        trace := trace g |}).

(** [try: body except Exception: pass] *)
Definition try_pass (body : G unit) : G unit :=
  fun g =>
    match body g with
    | (Raise e, g') => if is_Exception e then (Ok tt, g') else (Raise e, g')
    | other => other
    end.

(** [try: body except KeyboardInterrupt: handler] *)
Definition try_except_interrupt {A : Type} (body handler : G A) : G A :=
  fun g =>
    match body g with
    | (Raise KeyboardInterrupt, g') => handler g'
    | other => other
    end.

Section WithText.
Context `{Text}.
Variable w : world.

(** [reachy_move] (lines 24-35). *)
Definition reachy_move (antennas : Q * Q) (head_pitch duration : Q) : G unit :=
  try_pass
    (post_move w antennas head_pitch duration ;;;
     sleep (duration + (1 # 10))).

(** [reachy_thinking] (lines 37-39). *)
Definition reachy_thinking : G unit :=
  reachy_move (3 # 10, - (3 # 10))%Q (2 # 10) (3 # 10).

(** [reachy_excited] (lines 41-46). *)
Definition reachy_excited : G unit :=
  reachy_move (6 # 10, 6 # 10)%Q 0 (2 # 10) ;;;
  reachy_move (- (2 # 10), - (2 # 10))%Q 0 (2 # 10) ;;;
  reachy_move (6 # 10, 6 # 10)%Q 0 (2 # 10) ;;;
  reachy_move (- (2 # 10), - (2 # 10))%Q 0 (2 # 10) ;;;
  reachy_move (0, 0)%Q 0 (3 # 10).

(** [reachy_sad] (lines 48-52). *)
Definition reachy_sad : G unit :=
  reachy_move (- (4 # 10), - (4 # 10))%Q (- (15 # 100)) (5 # 10) ;;;
  sleep (5 # 10) ;;;
  reachy_move (0, 0)%Q 0 (5 # 10).

(** [reachy_neutral] (lines 54-56). *)
Definition reachy_neutral : G unit := reachy_move (0, 0)%Q 0 (3 # 10).

Definition question_prompt : string :=
  "Generate a fun trivia question appropriate for 3rd graders (ages 8-9)."
    ++ nl
    ++ "Topics can include: basic math, animals, science, geography, history, or fun facts."
    ++ nl ++ "Keep it simple and engaging." ++ nl ++ nl
    ++ "Respond in this exact format:" ++ nl
    ++ "QUESTION: [your question here]" ++ nl
    ++ "ANSWER: [the correct answer - keep it short, 1-3 words]" ++ nl
    ++ "HINT: [a helpful hint]" ++ nl ++ nl ++ "Example:" ++ nl
    ++ "QUESTION: How many legs does a spider have?" ++ nl ++ "ANSWER: 8"
    ++ nl ++ "HINT: It's more than 6 but less than 10!".

(** The three fields read so far: question, answer, hint. *)
Definition parse_line (fields : string * string * string) (line : string)
    : string * string * string :=
  let '(question, answer, hint) := fields in
  if startswith "QUESTION:" line
  then (strip (replace "QUESTION:" "" line), answer, hint)
  else if startswith "ANSWER:" line
  then (question, strip (replace "ANSWER:" "" line), hint)
  else if startswith "HINT:" line
  then (question, answer, strip (replace "HINT:" "" line))
  else fields.

(** [generate_question] (lines 58-95). *)
Definition generate_question : G (string * string * string) :=
  reachy_thinking ;;;
  text <- generate_content w question_prompt ;;
  let lines := split_lines (strip text) in
  let fields := fold_left parse_line lines (""%string, ""%string, ""%string) in
  reachy_neutral ;;;
  ret fields.

Definition check_prompt (question correct_answer user_answer : string)
    : string :=
  "Question: " ++ question ++ nl ++ "Correct answer: " ++ correct_answer
    ++ nl ++ "User's answer: " ++ user_answer ++
    nl ++ nl
    ++ "Is the user's answer correct? Consider spelling variations, synonyms, and equivalent answers."
    ++ nl ++ "Respond with only " ++ dq ++ "CORRECT" ++ dq ++ " or " ++ dq
    ++ "INCORRECT" ++ dq
    ++ " followed by a brief encouraging message for a 3rd grader." ++ nl
    ++ nl ++ "Example responses:" ++ nl
    ++ "CORRECT Great job! You really know your stuff!" ++ nl
    ++ "INCORRECT Not quite, but good try! The answer is 8.".

(** [check_answer] (lines 97-117). *)
Definition check_answer (user_answer correct_answer question : string)
    : G (bool * string) :=
  text <- generate_content w (check_prompt question correct_answer user_answer) ;;
  let result := strip text in
  let is_correct := startswith "CORRECT" (upper result) in
  let message :=
    if has_space result then after_first_space result else ""%string in
  ret (is_correct, message).

(** ["=" * 50] *)
Definition rule : string :=
  "==================================================".

(** [again in ['yes', 'y', 'yeah', 'sure', 'ok']] *)
Definition is_yes (again : string) : bool :=
  existsb (String.eqb again) ["yes"; "y"; "yeah"; "sure"; "ok"]%string.

(** [play_round] (lines 119-156). *)
Definition play_round : G bool :=
  print (nl ++ rule) ;;;
  print "🤖 Reachy is thinking of a question..." ;;;
  print rule ;;;
  fields <- generate_question ;;
  let '(question, correct_answer, hint) := fields in
  count_question ;;;
  n <- read questions_asked ;;
  print (nl ++ "📚 Question #" ++ pretty n ++ ":") ;;;
  print ("   " ++ question) ;;;
  print (nl ++ "💡 Hint: " ++ hint) ;;;
  typed_answer <- input w (nl ++ "✏️  Your answer: ") ;;
  let user_answer := strip typed_answer in
  if String.eqb user_answer ""
  then print "No answer provided!" ;;; ret true
  else
    print (nl ++ "🤔 Reachy is checking your answer...") ;;;
    reachy_thinking ;;;
    verdict <- check_answer user_answer correct_answer question ;;
    let '(is_correct, message) := verdict in
    (if is_correct : bool
     then
       count_point ;;;
       print (nl ++ "✅ CORRECT! " ++ message) ;;;
       reachy_excited
     else
       print (nl ++ "❌ " ++ message) ;;;
       print ("   The correct answer was: " ++ correct_answer) ;;;
       reachy_sad) ;;;
    counters <- read (fun g => (score g, questions_asked g)) ;;
    print (nl ++ "📊 Score: " ++ pretty (fst counters) ++ "/"
             ++ pretty (snd counters)) ;;;
    typed_again <- input w (nl ++ "🎮 Play another round? (yes/no): ") ;;
    ret (is_yes (lower (strip typed_again))).

(** [while playing: playing = self.play_round()] (lines 170-172), for at
    most [fuel] rounds.  [true]: the loop ended; [false]: it was still
    playing when the rounds ran out. *)
Fixpoint rounds (fuel : nat) : G bool :=
  match fuel with
  | O => ret false
  | S fuel' =>
      playing <- play_round ;;
      if playing : bool then rounds fuel' else ret true
  end.

(** Lines 174-192: the end of the game. *)
Definition game_over : G unit :=
  print (nl ++ rule) ;;;
  print "🏆 GAME OVER! 🏆" ;;;
  print rule ;;;
  counters <- read (fun g => (score g, questions_asked g)) ;;
  let '(points, asked) := counters in
  print (nl ++ "Final Score: " ++ pretty points ++ "/" ++ pretty asked) ;;;
  (if 0 <? asked
   then
     let percentage := (inject_Z points / inject_Z asked * 100)%Q in
     if Qle_bool 80 percentage
     then print "🌟 Amazing! You're a quiz champion!" ;;; reachy_excited
     else if Qle_bool 60 percentage
     then print "👍 Great job! Keep learning!" ;;; reachy_excited
     else print "💪 Good effort! Practice makes perfect!" ;;; reachy_neutral
   else ret tt) ;;;
  print (nl ++ "Thanks for playing with Reachy! Goodbye! 👋" ++ nl).

(** [run] (lines 158-196), the loop taken for at most [fuel] rounds. *)
Definition run (fuel : nat) : G bool :=
  print (nl ++ rule) ;;;
  print "🎓 Welcome to Reachy's Quiz Game! 🎓" ;;;
  print rule ;;;
  print (nl ++ "Hi! I'm Reachy, your robot quiz master!") ;;;
  print "I'll ask you questions perfect for 3rd graders." ;;;
  print ("Let's see how many you can get right!" ++ nl) ;;;
  reachy_excited ;;;
  try_except_interrupt
    (ended <- rounds fuel ;;
     if ended : bool then game_over ;;; ret true else ret false)
    (print (nl ++ nl ++ "Game ended early. Thanks for playing!") ;;;
     reachy_neutral ;;;
     ret true).

(** Lines 206-211: the status of the daemon is asked for; the bare
    [except:] catches whatever the request raises. *)
Definition check_daemon : G unit :=
  fun g =>
    match daemon_state w with
    | Ok state =>
        if match state with
           | Some s => String.eqb s "running"
           | None => false
           end
        then (Ok tt, log QGetStatus g)
        else
          print
            "Warning: Reachy Mini daemon not running. Animations may not work."
            (log QGetStatus g)
    | Raise _ =>
        print
          "Warning: Could not connect to Reachy Mini. Animations disabled."
          (log QGetStatus g)
    end.

(** [ReachyQuizGame()] (line 213): the client is made, the counters are
    set to zero. *)
Definition new_game : G unit :=
  fun g =>
    (Ok tt,
     {| score := 0; questions_asked := 0;
        posts := posts g; gens := gens g; inputs := inputs g;
        trace := trace g ++ [QClientInit] |}).

(** [main] (lines 199-214). *)
Definition main (environ : gmap string string) (fuel : nat) : G bool :=
  if negb (Chat.truthy (Chat.getenv environ "GEMINI_API_KEY")) then
    print "Error: GEMINI_API_KEY not set in .env file" ;;; ret true
  else
    check_daemon ;;;
    new_game ;;;
    run fuel.

End WithText.
End Quiz.

(** * Notions used in the statements *)

Import Codec.

(** ** Traces and loops *)

Definition loop_trace {E : Type} (r : list E * bool * loop_status) : list E :=
  fst (fst r).
Definition loop_running {E : Type} (r : list E * bool * loop_status) : bool :=
  snd (fst r).
Definition loop_state {E : Type} (r : list E * bool * loop_status)
    : loop_status := snd r.

(** A chunk went out: the send returned. *)
Definition is_sent_audio (ev : event) : bool :=
  match ev with
  | ESendAudio _ (Ok _) => true
  | _ => false
  end.

Definition sent_chunks (tr : list event) : nat :=
  length (List.filter is_sent_audio tr).

(** A pass in which the poll has a block and every step succeeds. *)
Definition delivers `{Resampler} (rate : Z) (env : AudioUp.answers) : Prop :=
  exists samples blob,
    AudioUp.a_sample env = Ok (Some samples) /\
    len samples <> 0%nat /\
    AudioUp.encode_block rate samples = Ok blob /\
    AudioUp.a_send env = Ok tt.

(** A pass in which the poll has nothing: [None] or a block of no frames. *)
Definition empty_poll (env : AudioUp.answers) : Prop :=
  AudioUp.a_sample env = Ok None \/
  exists samples,
    AudioUp.a_sample env = Ok (Some samples) /\ len samples = 0%nat.

Definition no_frame (env : VideoUp.answers) : Prop :=
  VideoUp.v_frame env = Ok None.

(** The most sends that fit between [now] and [deadline] when two sends
    are at least a throttle interval apart. *)
Definition room (now deadline : Z) : Z :=
  if deadline <? now then 0 else (deadline - now) / VideoUp.throttle_ms + 1.

(** ** The codec *)

(** The frames of a two-column block, each with the mean of its two
    channels. *)
Definition frame_average (row : list Q) (m : Q) : Prop :=
  exists l r : Q, row = [l; r] /\ (m == (l + r) / 2)%Q.

(** The spec's count of output samples, [round(len * to / from)]: the
    nearest integer to the quotient, a tie going to the even one as with
    Python's [round]. *)
Definition round_div (a b : Z) : Z :=
  let q := a / b in
  let r := a mod b in
  if 2 * r <? b then q
  else if b <? 2 * r then q + 1
  else if Z.even q then q else q + 1.

Definition spec_num_samples (n to_rate from_rate : Z) : Z :=
  round_div (n * to_rate) from_rate.

(** [n_out] samples at [r_out] Hz last as long as [n_in] samples at [r_in]
    Hz, short of one output sample at most. *)
Definition same_duration (n_in r_in n_out r_out : Z) : Prop :=
  n_out * r_in <= n_in * r_out < (n_out + 1) * r_in.

(** The blob is declared as 16000 Hz PCM and holds a polled block, folded
    to mono, brought from the device rate to 16000 Hz (through the
    resampler when the rates differ) and only then converted to PCM16. *)
Definition sent_at_wire_rate `{Resampler} (reachy_sample_rate : Z)
    (script : list AudioUp.answers) (blob : Blob) : Prop :=
  mime_type blob = "audio/pcm;rate=16000"%string /\
  exists env samples mono,
    In env script /\
    AudioUp.a_sample env = Ok (Some samples) /\
    resample_step (to_mono samples) reachy_sample_rate SAMPLE_RATE_INPUT
      = Ok mono /\
    (reachy_sample_rate <> SAMPLE_RATE_INPUT ->
       resample (to_mono samples)
         (Z.of_nat (length (to_mono samples)) * SAMPLE_RATE_INPUT
            / reachy_sample_rate) = Ok mono) /\
    data blob = to_pcm_data mono /\
    same_duration (Z.of_nat (length (to_mono samples))) reachy_sample_rate
                  (Z.of_nat (length mono)) SAMPLE_RATE_INPUT.

(** The block pushed to the device is an inbound payload, converted to
    float, brought from 24000 Hz to the device's output rate (through the
    resampler when the rates differ) and duplicated to two channels. *)
Definition played_at_device_rate `{Resampler} (reachy_output_rate : Z)
    (stereo : list (Q * Q)) : Prop :=
  exists audio_data audio_float out,
    to_audio_float audio_data = Ok audio_float /\
    resample_step audio_float SAMPLE_RATE_OUTPUT reachy_output_rate = Ok out /\
    (reachy_output_rate <> SAMPLE_RATE_OUTPUT ->
       resample audio_float
         (Z.of_nat (length audio_float) * reachy_output_rate
            / SAMPLE_RATE_OUTPUT) = Ok out) /\
    stereo = AudioDown.column_stack out /\
    same_duration (Z.of_nat (length audio_float)) SAMPLE_RATE_OUTPUT
                  (Z.of_nat (length stereo)) reachy_output_rate.

(** The events of audio-down that push a block push a decoded payload. *)
Definition pushes_decoded `{Resampler} (rate : Z) (ev : event) : Prop :=
  forall stereo, ev = EPushAudioSample stereo ->
  exists audio_data, AudioDown.decode_block rate audio_data = Ok stereo.

(** ** Shutdown and startup *)

(** The cleanup steps: clearing the flag, closing the session, stopping
    the recording and the playback. *)
Definition is_cleanup (ev : event) : bool :=
  match ev with
  | ESetRunning false | ESessionClose | EStopRecording | EStopPlaying => true
  | _ => false
  end.

(** The cleanup steps of a trace, in the order they were taken. *)
Definition cleanup_steps (tr : list event) : list event :=
  List.filter is_cleanup tr.

(** What [stop] sets out to do, given what [start] got hold of: the
    session is closed when there is one ([if self.session]), the device
    streams are stopped when the robot object exists ([if self.reachy]). *)
Definition cleanup_plan (c : Chat.chat) : list event :=
  [ESetRunning false]
    ++ (if Chat.session c then [ESessionClose] else [])
    ++ (if Chat.reachy c then [EStopRecording; EStopPlaying] else []).

(** Methods that take no cleanup step. *)
Definition cleanup_free {A : Type} (m : Chat.M A) : Prop :=
  forall c,
    cleanup_steps (Chat.trace (snd (m c))) = cleanup_steps (Chat.trace c).

(** The two lines [main] prints when the key is missing. *)
Definition missing_key_report : list event :=
  [EPrint "Error: GEMINI_API_KEY environment variable not set";
   EPrint "Create a .env file with: GEMINI_API_KEY=your_api_key_here"].

(** * Sample inputs *)

(** A resampler to run the model with: sample [i] of the output is the
    input sample at the same instant (nearest earlier one). *)
Definition hold_resample (x : list Q) (num : Z) : result (list Q) :=
  if num <=? 0 then Raise (ValueError "Invalid number of data points")
  else Ok (map (fun i => nth (i * length x / Z.to_nat num)%nat x 0%Q)
               (seq 0 (Z.to_nat num))).

(** The parameter can be met: [hold_resample] is a resampler. *)
Definition hold_resampler : Resampler :=
  {| resample := hold_resample;
     resample_length := ltac:(
       intros x num ys; unfold hold_resample;
       destruct (num <=? 0) eqn:Hnum; [discriminate |];
       intros [= <-]; rewrite length_map, length_seq; lia);
     resample_returns := ltac:(
       intros x num _ Hnum; unfold hold_resample;
       destruct (num <=? 0) eqn:Hle; [lia | eauto]) |}.

Definition stereo_block : ndarray :=
  Arr2 2 [[1; 0]; [1 # 2; 1 # 4]; [-1; -1]]%Q.

(** Six stereo frames, as a 48000 Hz device would hand them out. *)
Definition block_48k : ndarray :=
  Arr2 2 [[1; 0]; [1 # 2; 1 # 4]; [-1; -1];
          [0; 1 # 2]; [1 # 4; 1 # 4]; [0; 0]]%Q.

Definition pass_ok : AudioUp.answers :=
  {| AudioUp.a_sample := Ok (Some block_48k); AudioUp.a_send := Ok tt |}.

Definition pass_send_fails : AudioUp.answers :=
  {| AudioUp.a_sample := Ok (Some block_48k);
     AudioUp.a_send := Raise (TransportError "connection reset") |}.

Definition pass_none : AudioUp.answers :=
  {| AudioUp.a_sample := Ok None; AudioUp.a_send := Ok tt |}.

Definition pass_no_frames : AudioUp.answers :=
  {| AudioUp.a_sample := Ok (Some (Arr2 2 [])); AudioUp.a_send := Ok tt |}.

(** One inbound turn: a payload of three samples, then the end of turn. *)
Definition turn_of_three : list AudioDown.response :=
  [{| AudioDown.model_turn :=
        Some [{| AudioDown.inline_data :=
                   Some (to_pcm_data [1 # 2; - (1 # 2); 1 # 4]%Q) |}];
      AudioDown.turn_complete := true |}].

(** A frame is there at once, and encoding and sending take no time. *)
Definition frame_ready : VideoUp.answers :=
  {| VideoUp.v_frame := Ok (Some []);
     VideoUp.v_encode := Ok ["255"%byte; "216"%byte];
     VideoUp.v_send := Ok tt;
     VideoUp.v_work := 0%N;
     VideoUp.v_late := 0%N |}.

Definition frame_missing : VideoUp.answers :=
  {| VideoUp.v_frame := Ok None;
     VideoUp.v_encode := Ok [];
     VideoUp.v_send := Ok tt;
     VideoUp.v_work := 0%N;
     VideoUp.v_late := 3%N |}.

(** A run that starts up, is interrupted, and whose session fails to
    close. *)
Definition interrupted_close_fails : Chat.world :=
  {| Chat.w_reachy_init := Ok tt;
     Chat.w_reachy_enter := Ok tt;
     Chat.w_start_recording := Ok tt;
     Chat.w_start_playing := Ok tt;
     Chat.w_input_rate := 16000;
     Chat.w_output_rate := 16000;
     Chat.w_connect := Ok tt;
     Chat.w_gather := Raise KeyboardInterrupt;
     Chat.w_close := Raise (TransportError "connection lost");
     Chat.w_stop_recording := Ok tt;
     Chat.w_stop_playing := Ok tt;
     Chat.w_reachy_exit := Ok tt |}.

(** A world in which every call succeeds and the duty cycles are
    interrupted in the end. *)
Definition calm_world : Chat.world :=
  {| Chat.w_reachy_init := Ok tt;
     Chat.w_reachy_enter := Ok tt;
     Chat.w_start_recording := Ok tt;
     Chat.w_start_playing := Ok tt;
     Chat.w_input_rate := 16000;
     Chat.w_output_rate := 16000;
     Chat.w_connect := Ok tt;
     Chat.w_gather := Raise KeyboardInterrupt;
     Chat.w_close := Ok tt;
     Chat.w_stop_recording := Ok tt;
     Chat.w_stop_playing := Ok tt;
     Chat.w_reachy_exit := Ok tt |}.

(** A run whose session never opens: the connect is refused. *)
Definition connect_refused : Chat.world :=
  {| Chat.w_reachy_init := Ok tt;
     Chat.w_reachy_enter := Ok tt;
     Chat.w_start_recording := Ok tt;
     Chat.w_start_playing := Ok tt;
     Chat.w_input_rate := 16000;
     Chat.w_output_rate := 16000;
     Chat.w_connect := Raise (OtherError "connection refused");
     Chat.w_gather := Ok tt;
     Chat.w_close := Ok tt;
     Chat.w_stop_recording := Ok tt;
     Chat.w_stop_playing := Ok tt;
     Chat.w_reachy_exit := Ok tt |}.

(** An environment without the key. *)
Definition environ_without_key : gmap string string :=
  {[ "HOME"%string := "/home/reachy"%string ]}.

(** * Notions used in the further properties *)

(** A sample within the nominal range of float audio. *)
Definition in_unit (x : Q) : Prop := (-1 <= x)%Q /\ (x <= 1)%Q.

(** The number of samples the mono fold hands on, by shape. *)
Definition mono_length (a : ndarray) : nat :=
  match a with
  | Arr1 data => length data
  | Arr2 cols rows =>
      if (cols =? 2)%nat then length rows else (length rows * cols)%nat
  end.

(** The 16-bit value on the wire for a stereo frame: the mean of the two
    channels times 32767, the fraction dropped, nothing wrapped. *)
Definition wire_sample_of_frame (row : list Q) (v : Z) : Prop :=
  exists l r : Q,
    row = [l; r] /\
    -32767 <= v <= 32767 /\
    (Qabs (inject_Z v - 32767 * ((l + r) / 2)) < 1)%Q.

(** The text of the error [np.frombuffer] raises on a buffer that does
    not hold whole elements. *)
Definition frombuffer_error : exn :=
  ValueError "buffer size must be a multiple of element size".

(** A pushed block has the same sample in both channels. *)
Definition duplicated (ev : event) : Prop :=
  match ev with
  | EPushAudioSample stereo => Forall (fun p => fst p = snd p) stereo
  | _ => True
  end.

(** A part that carries the payload [audio_data]. *)
Definition payload (audio_data : list byte) : AudioDown.part :=
  {| AudioDown.inline_data := Some audio_data |}.

(** A response whose second payload is corrupt (three bytes), between two
    sound ones. *)
Definition response_with_corrupt_payload : AudioDown.response :=
  {| AudioDown.model_turn :=
       Some ([payload (to_pcm_data [1 # 2; - (1 # 2)]%Q)]
               ++ payload ["1"%byte; "2"%byte; "3"%byte]
               :: [payload (to_pcm_data [1 # 4]%Q)]);
     AudioDown.turn_complete := true |}.

(** The sleep of the video handler, in milliseconds ([asyncio.sleep(0.5)]). *)
Definition retry_ms : Z := 500.

(** A frame was handed to the session, whether or not the send returned. *)
Definition is_attempt (ev : event) : bool :=
  match ev with
  | ESendMedia _ _ => true
  | _ => false
  end.

(** The number of frames handed to the session no later than [deadline]. *)
Definition attempts_by (deadline : Z) (tr : list (Z * event)) : Z :=
  Z.of_nat
    (length (List.filter
               (fun te => is_attempt (snd te) && (fst te <=? deadline)) tr)).

(** The most events that fit between [now] and [deadline] when two of them
    are at least [step] apart. *)
Definition room_of (step now deadline : Z) : Z :=
  if deadline <? now then 0 else (deadline - now) / step + 1.

(** A pass of video-up in which the send fails at once. *)
Definition frame_send_fails : VideoUp.answers :=
  {| VideoUp.v_frame := Ok (Some []);
     VideoUp.v_encode := Ok ["255"%byte; "216"%byte];
     VideoUp.v_send := Raise (TransportError "broken pipe");
     VideoUp.v_work := 0%N;
     VideoUp.v_late := 0%N |}.

(** The blobs handed to the session by audio-up, in trace order, whether
    or not the send returned. *)
Definition attempted (tr : list event) : list Blob :=
  flat_map (fun ev => match ev with
                      | ESendAudio blob _ => [blob]
                      | _ => []
                      end) tr.

(** What a pass has to send: the encoding of the polled block, when there
    is a block, it has frames and the encoding succeeds. *)
Definition offered `{Resampler} (rate : Z) (env : AudioUp.answers)
    : list Blob :=
  match AudioUp.a_sample env with
  | Ok (Some samples) =>
      if (len samples =? 0)%nat then []
      else match AudioUp.encode_block rate samples with
           | Ok blob => [blob]
           | Raise _ => []
           end
  | _ => []
  end.

(** How [start] ends: the first of its calls that raises decides. *)
Definition start_outcome (w : Chat.world) : result unit :=
  bind (Chat.w_reachy_init w) (fun _ =>
  bind (Chat.w_reachy_enter w) (fun _ =>
  bind (Chat.w_start_recording w) (fun _ =>
  bind (Chat.w_start_playing w) (fun _ =>
  Chat.w_connect w)))).

(** The marks of the life cycle in a trace: the writes of [self.running]
    and the start of the duty cycles. *)
Definition is_mark (ev : event) : bool :=
  match ev with
  | ESetRunning _ | EGather => true
  | _ => false
  end.

(** A method whose events, of those that [keep] selects, are always
    [evs]. *)
Definition adds (keep : event -> bool) {A : Type} (m : Chat.M A)
    (evs : list event) : Prop :=
  forall c,
    List.filter keep (Chat.trace (snd (m c)))
      = List.filter keep (Chat.trace c) ++ evs.

(** A method that never raises. *)
Definition returns {A : Type} (m : Chat.M A) : Prop :=
  forall c, exists a, fst (m c) = Ok a.

(** A method that only adds to the trace. *)
Definition extends {A : Type} (m : Chat.M A) : Prop :=
  forall c, exists evs, Chat.trace (snd (m c)) = Chat.trace c ++ evs.

(** A method that leaves the two handles as they are. *)
Definition keeps_handles {A : Type} (m : Chat.M A) : Prop :=
  forall c,
    Chat.session (snd (m c)) = Chat.session c /\
    Chat.reachy (snd (m c)) = Chat.reachy c.

(** A run whose device refuses to stop recording. *)
Definition stop_recording_fails : Chat.world :=
  {| Chat.w_reachy_init := Ok tt;
     Chat.w_reachy_enter := Ok tt;
     Chat.w_start_recording := Ok tt;
     Chat.w_start_playing := Ok tt;
     Chat.w_input_rate := 16000;
     Chat.w_output_rate := 16000;
     Chat.w_connect := Ok tt;
     Chat.w_gather := Raise KeyboardInterrupt;
     Chat.w_close := Ok tt;
     Chat.w_stop_recording := Raise (OtherError "device busy");
     Chat.w_stop_playing := Ok tt;
     Chat.w_reachy_exit := Ok tt |}.

(** An environment with the key. *)
Definition environ_with_key : gmap string string :=
  {[ "GEMINI_API_KEY"%string := "secret"%string ]}.

(** The call returned. *)
Definition is_ok {A : Type} (r : result A) : bool :=
  match r with
  | Ok _ => true
  | Raise _ => false
  end.

(** A method whose events, of those that [keep] selects, are [evs] when it
    returns and none when it raises. *)
Definition adds_if (keep : event -> bool) {A : Type} (m : Chat.M A)
    (evs : list event) : Prop :=
  forall c,
    List.filter keep (Chat.trace (snd (m c)))
      = List.filter keep (Chat.trace c)
          ++ (if is_ok (fst (m c)) then evs else []).

(** The release of the device context. *)
Definition is_exit (ev : event) : bool :=
  match ev with
  | EReachyExit => true
  | _ => false
  end.


(** The part of [run] inside the [try]: [start], the banner, the duty
    cycles and the interrupt handler. *)
Definition guarded (w : Chat.world) : Chat.M unit :=
  Chat.try_except_interrupt
    (Chat.seq (Chat.start w) (fun _ =>
     Chat.seq (Chat.print (Chat.newline ++ Chat.rule)) (fun _ =>
     Chat.seq (Chat.print "Reachy Mini + Gemini Live Chat") (fun _ =>
     Chat.seq (Chat.print Chat.rule) (fun _ =>
     Chat.seq (Chat.print "Speak to Reachy - Gemini can see and hear you!")
       (fun _ =>
     Chat.seq (Chat.print "Press Ctrl+C to exit") (fun _ =>
     Chat.seq (Chat.print (Chat.rule ++ Chat.newline)) (fun _ =>
     Chat.call EGather (Chat.w_gather w)))))))))
    (Chat.print (Chat.newline ++ "Shutting down...")).

(** ** Notions used in the properties of the quiz game *)

(** Every failure of a move request is of class [Exception]: the robot
    may be unreachable, but no interrupt arrives during a move. *)
Definition moves_fail_softly (w : Quiz.world) : Prop :=
  forall i e, Quiz.post w i = Raise e -> is_Exception e = true.

(** Two worlds in which the model and the player give the same answers. *)
Definition same_answers (w1 w2 : Quiz.world) : Prop :=
  (forall i, Quiz.generated w1 i = Quiz.generated w2 i) /\
  (forall i, Quiz.typed w1 i = Quiz.typed w2 i).

(** What passes between the game, the player and the model: the trace
    without the moves and the pauses. *)
Definition is_dialogue (ev : Quiz.qevent) : bool :=
  match ev with
  | Quiz.QPost _ _ _ | Quiz.QSleep _ => false
  | _ => true
  end.

Definition dialogue (g : Quiz.game) : list Quiz.qevent :=
  List.filter is_dialogue (Quiz.trace g).

(** Two games with the same counters and the same dialogue. *)
Definition alike (g1 g2 : Quiz.game) : Prop :=
  Quiz.score g1 = Quiz.score g2 /\
  Quiz.questions_asked g1 = Quiz.questions_asked g2 /\
  Quiz.gens g1 = Quiz.gens g2 /\
  Quiz.inputs g1 = Quiz.inputs g2 /\
  dialogue g1 = dialogue g2.

(** Two methods that, from alike games, end alike with the same result. *)
Definition agree {A : Type} (m1 m2 : Quiz.G A) : Prop :=
  forall g1 g2, alike g1 g2 ->
    fst (m1 g1) = fst (m2 g2) /\ alike (snd (m1 g1)) (snd (m2 g2)).

(** The score is [s0] or more, and what it gained since, with the
    [credit] of a question counted and not yet judged, is covered by the
    questions asked since [q0]. *)
Definition score_within (s0 q0 credit : Z) (g : Quiz.game) : Prop :=
  s0 <= Quiz.score g /\
  Quiz.score g - s0 + credit <= Quiz.questions_asked g - q0.

(** From a game with [P] the method ends, however it ends, in one with
    [Q]. *)
Definition hoare {A : Type} (P : Quiz.game -> Prop) (m : Quiz.G A)
    (Q : Quiz.game -> Prop) : Prop :=
  forall g, P g -> Q (snd (m g)).

(** The same for the runs of the method that return. *)
Definition hoare_ok {A : Type} (P : Quiz.game -> Prop) (m : Quiz.G A)
    (Q : Quiz.game -> Prop) : Prop :=
  forall g, P g ->
    match fst (m g) with
    | Ok _ => Q (snd (m g))
    | Raise _ => True
    end.

(** The method leaves both counters as they are. *)
Definition keeps_counters {A : Type} (m : Quiz.G A) : Prop :=
  forall g, Quiz.score (snd (m g)) = Quiz.score g /\
            Quiz.questions_asked (snd (m g)) = Quiz.questions_asked g.

Definition outcome {A : Type} (r : result A) : option exn :=
  match r with
  | Ok _ => None
  | Raise e => Some e
  end.

(** [J] relates how a method ended to the game it left; the method
    preserves it when, started where [J] holds of a return, it ends
    where [J] holds of its own end. *)
Definition preserves {A : Type} (J : option exn -> Quiz.game -> Prop)
    (m : Quiz.G A) : Prop :=
  forall g, J None g -> J (outcome (fst (m g))) (snd (m g)).


Definition game_over_line : string := "🏆 GAME OVER! 🏆".

Definition verdicts : list string :=
  ["🌟 Amazing! You're a quiz champion!";
   "👍 Great job! Keep learning!";
   "💪 Good effort! Practice makes perfect!"]%string.

(** The end of the game has not been announced. *)
Definition quiet (g : Quiz.game) : Prop :=
  ~ In (Quiz.QPrint game_over_line) (Quiz.trace g).

(** A question has been asked and a verdict on the game has been given. *)
Definition judged (g : Quiz.game) : Prop :=
  0 < Quiz.questions_asked g /\
  exists verdict, In verdict verdicts /\
                  In (Quiz.QPrint verdict) (Quiz.trace g).

(** *** Sample games *)

(** [str.strip], [str.lower] and [str.upper] on ASCII text. *)
Definition is_space (c : Ascii.ascii) : bool :=
  let n := Ascii.nat_of_ascii c in
  Nat.eqb n 32 || (Nat.leb 9 n && Nat.leb n 13)
    || (Nat.leb 28 n && Nat.leb n 31).

Fixpoint lstrip (s : string) : string :=
  match s with
  | EmptyString => EmptyString
  | String c rest => if is_space c then lstrip rest else s
  end.

Definition reversed (s : string) : string :=
  string_of_list_ascii (List.rev (list_ascii_of_string s)).

Definition ascii_strip (s : string) : string :=
  reversed (lstrip (reversed (lstrip s))).

Definition ascii_lower (c : Ascii.ascii) : Ascii.ascii :=
  let n := Ascii.nat_of_ascii c in
  if Nat.leb 65 n && Nat.leb n 90 then Ascii.ascii_of_nat (n + 32) else c.

Definition ascii_upper (c : Ascii.ascii) : Ascii.ascii :=
  let n := Ascii.nat_of_ascii c in
  if Nat.leb 97 n && Nat.leb n 122 then Ascii.ascii_of_nat (n - 32) else c.

Fixpoint map_chars (f : Ascii.ascii -> Ascii.ascii) (s : string) : string :=
  match s with
  | EmptyString => EmptyString
  | String c rest => String (f c) (map_chars f rest)
  end.

Definition ascii_text : Quiz.Text :=
  {| Quiz.strip := ascii_strip;
     Quiz.lower := map_chars ascii_lower;
     Quiz.upper := map_chars ascii_upper |}.

Definition spider_question : string :=
  "QUESTION: How many legs does a spider have?" ++ Quiz.nl
    ++ "ANSWER: 8" ++ Quiz.nl ++ "HINT: It's more than 6 but less than 10!".

(** One round: the right answer is typed, then [no]. *)
Definition one_good_round : Quiz.world :=
  {| Quiz.daemon_state := Ok (Some "running"%string);
     Quiz.post := fun _ => Ok tt;
     Quiz.generated := fun i =>
       match i with
       | O => Ok spider_question
       | _ => Ok "CORRECT Great job! You really know your stuff!"%string
       end;
     Quiz.typed := fun i =>
       match i with
       | O => Ok "8"%string
       | _ => Ok "no"%string
       end |}.

(** The same round with a robot that cannot be reached. *)
Definition robot_unreachable : Quiz.world :=
  {| Quiz.daemon_state := Raise (TransportError "connection refused");
     Quiz.post := fun _ => Raise (TransportError "connection refused");
     Quiz.generated := Quiz.generated one_good_round;
     Quiz.typed := Quiz.typed one_good_round |}.

(** The player only presses return. *)
Definition silent_player : Quiz.world :=
  {| Quiz.daemon_state := Ok (Some "running"%string);
     Quiz.post := fun _ => Ok tt;
     Quiz.generated := fun _ => Ok spider_question;
     Quiz.typed := fun _ => Ok "  "%string |}.


(** The model cannot be reached. *)
Definition model_down : Quiz.world :=
  {| Quiz.daemon_state := Ok (Some "running"%string);
     Quiz.post := fun _ => Ok tt;
     Quiz.generated := fun _ => Raise (TransportError "503 unavailable");
     Quiz.typed := Quiz.typed one_good_round |}.

(** * Verification *)

(** ** The codec *)

Lemma Qtrunc_close (q : Q) : (Qabs (inject_Z (Qtrunc q) - q) < 1)%Q.
Proof.
  destruct q as [n d]. unfold Qtrunc. cbn [Qnum Qden].
  pose proof (Z.quot_rem' n (Z.pos d)) as Hqr.
  assert (Hrem : Z.abs (Z.rem n (Z.pos d)) < Z.pos d).
  { pose proof (Z.rem_bound_abs n (Z.pos d)) as Hb. lia. }
  apply Qabs_Qlt_condition.
  unfold Qlt, Qminus, Qplus, Qopp, inject_Z. cbn [Qnum Qden].
  split; lia.
Qed.

(** Dropping the fraction never leaves an interval [-B, B]. *)
Lemma Qtrunc_bounds (q : Q) (B : Z) :
  (- inject_Z B <= q)%Q -> (q <= inject_Z B)%Q -> - B <= Qtrunc q <= B.
Proof.
  destruct q as [n d]. unfold Qtrunc, Qle, Qopp, inject_Z. cbn [Qnum Qden].
  intros Hlo Hhi.
  pose proof (Z.quot_rem' n (Z.pos d)) as Hqr.
  pose proof (Z.rem_bound_abs n (Z.pos d)) as Hb.
  pose proof (Z.rem_sign_mul n (Z.pos d)) as Hs.
  assert (Hd : 0 < Z.pos d) by lia.
  nia.
Qed.

Lemma wrap_int16_id (z : Z) : -32768 <= z <= 32767 -> wrap_int16 z = z.
Proof.
  intros Hz. unfold wrap_int16.
  rewrite Z.mod_small by lia. lia.
Qed.

Lemma wrap_int16_range (z : Z) : -32768 <= wrap_int16 z <= 32767.
Proof.
  unfold wrap_int16.
  pose proof (Z.mod_pos_bound (z + 32768) 65536). lia.
Qed.

Lemma wrap_int16_mod (z : Z) : wrap_int16 (z mod 65536) = wrap_int16 z.
Proof.
  unfold wrap_int16.
  rewrite <- (Zplus_mod_idemp_l z 32768 65536). reflexivity.
Qed.

Lemma Z_of_byte_of_Z (z : Z) : Z_of_byte (byte_of_Z z) = z mod 256.
Proof.
  unfold Z_of_byte, byte_of_Z.
  pose proof (Z.mod_pos_bound z 256) as Hm.
  destruct (Byte.of_N (Z.to_N (z mod 256))) as [b|] eqn:Hb.
  - apply Byte.to_of_N in Hb. rewrite Hb. apply Z2N.id. lia.
  - apply Byte.of_N_None_iff in Hb. lia.
Qed.

Lemma int16_of_bytes_int16_bytes (v : Z) (rest : list byte) :
  match int16_bytes v ++ rest with
  | lo :: hi :: rest' => int16_of_bytes lo hi = wrap_int16 v /\ rest' = rest
  | _ => False
  end.
Proof.
  cbn [int16_bytes app]. split; [| reflexivity].
  unfold int16_of_bytes. rewrite !Z_of_byte_of_Z.
  rewrite <- (wrap_int16_mod v). f_equal.
  pose proof (Z.mod_pos_bound v 65536) as Hm.
  set (u := v mod 65536) in *.
  rewrite (Z.mod_small (u / 256) 256).
  - pose proof (Z.div_mod u 256). lia.
  - split; [apply Z.div_pos; lia | apply Z.div_lt_upper_bound; lia].
Qed.

(** Reading back what [tobytes] wrote gives the samples, as [int16]. *)
Lemma frombuffer_tobytes (vs : list Z) :
  frombuffer (tobytes vs) = Ok (map wrap_int16 vs).
Proof.
  induction vs as [|v vs IH]; [reflexivity |].
  unfold tobytes in *. cbn [map concat].
  pose proof (int16_of_bytes_int16_bytes v (concat (map int16_bytes vs))) as Hb.
  destruct (int16_bytes v ++ concat (map int16_bytes vs))
    as [|lo [|hi rest']] eqn:Heq; try contradiction.
  destruct Hb as [Hv ->].
  cbn [frombuffer]. rewrite IH. cbn [bind]. rewrite Hv. reflexivity.
Qed.

Lemma float_to_pcm16_in_range (s : Q) :
  (-1 <= s)%Q -> (s <= 1)%Q ->
  float_to_pcm16 s = Qtrunc (s * 32767) /\ -32767 <= float_to_pcm16 s <= 32767.
Proof.
  intros Hlo Hhi.
  assert (Hb : - 32767 <= Qtrunc (s * 32767) <= 32767).
  { apply (Qtrunc_bounds (s * 32767) 32767).
    - change (inject_Z 32767) with 32767%Q. lra.
    - change (inject_Z 32767) with 32767%Q. lra. }
  unfold float_to_pcm16, astype_int16.
  rewrite wrap_int16_id by lia. split; [reflexivity | lia].
Qed.

(** One sample through both conversions, the fraction dropped once. *)
Lemma pcm16_to_float_close (s : Q) :
  (-1 <= s)%Q -> (s <= 1)%Q ->
  (Qabs (pcm16_to_float (float_to_pcm16 s) - s) < 1 / 32767)%Q.
Proof.
  intros Hlo Hhi.
  destruct (float_to_pcm16_in_range s Hlo Hhi) as [-> _].
  pose proof (Qtrunc_close (s * 32767)) as Hc.
  apply Qabs_Qlt_condition in Hc. apply Qabs_Qlt_condition.
  unfold pcm16_to_float.
  set (v := inject_Z (Qtrunc (s * 32767))) in *.
  unfold Qdiv. change (/ 32767)%Q with (1 # 32767)%Q.
  split; lra.
Qed.

(** C6. Converting a float sample [s] of [-1, 1] to 16-bit PCM with the
    scale 32767 (line 116) and back to float (lines 176-177) gives a value
    within [1/32767] of [s]; the PCM value stays within [-32767, 32767]. *)
Theorem pcm16_round_trip_within_one_step (s : Q) :
  (-1 <= s)%Q -> (s <= 1)%Q ->
  -32767 <= float_to_pcm16 s <= 32767 /\
  exists r : Q,
    to_audio_float (to_pcm_data [s]) = Ok [r] /\
    (Qabs (r - s) <= 1 / 32767)%Q.
Proof.
  intros Hlo Hhi.
  destruct (float_to_pcm16_in_range s Hlo Hhi) as [_ Hrange].
  split; [exact Hrange |].
  exists (pcm16_to_float (float_to_pcm16 s)). split.
  - unfold to_audio_float, to_pcm_data. rewrite frombuffer_tobytes.
    cbn [map bind]. rewrite wrap_int16_id by lia. reflexivity.
  - apply Qlt_le_weak, pcm16_to_float_close; assumption.
Qed.

Lemma pcm16_round_trip_witness :
  -32767 <= float_to_pcm16 (3 # 10) <= 32767 /\
  exists r : Q,
    to_audio_float (to_pcm_data [3 # 10]) = Ok [r] /\
    (Qabs (r - (3 # 10)) <= 1 / 32767)%Q.
Proof.
  apply (pcm16_round_trip_within_one_step (3 # 10));
    unfold Qle; simpl; lia.
Defined.

(** C10. The conversion to PCM16 does not clamp: the sample [2.0] lies
    outside [-1, 1], its product with 32767 lies above the [int16] range,
    and the cast keeps the product modulo [2^16], which is a negative
    sample and not the saturated 32767. *)
Theorem float_to_pcm16_wraps_out_of_range :
  exists s : Q,
    (1 < s)%Q /\
    32767 < Qtrunc (s * 32767) /\
    float_to_pcm16 s = Qtrunc (s * 32767) - 65536 /\
    float_to_pcm16 s < 0 /\
    float_to_pcm16 s <> 32767 /\
    to_pcm_data [s] = ["254"%byte; "255"%byte].
Proof.
  exists 2%Q. repeat split; try (vm_compute; congruence).
Qed.

(** ** Resampling *)

Lemma num_samples_floor (n to_rate from_rate : Z) :
  0 <= n -> 0 < to_rate -> 0 < from_rate ->
  num_samples n to_rate from_rate = Ok (n * to_rate / from_rate).
Proof.
  intros Hn Hto Hfrom. unfold num_samples.
  destruct (Z.eqb_spec from_rate 0) as [-> | _]; [lia |].
  rewrite Z.quot_div_nonneg by nia. reflexivity.
Qed.

Lemma floor_same_duration (n r_in r_out : Z) :
  0 < r_in -> same_duration n r_in (n * r_out / r_in) r_out.
Proof.
  intros Hr. unfold same_duration.
  pose proof (Z.div_mod (n * r_out) r_in) as Hdm.
  pose proof (Z.mod_pos_bound (n * r_out) r_in Hr) as Hm.
  nia.
Qed.

(** What the resampling step hands back, when it returns. *)
Lemma resample_step_Ok `{Resampler} (x ys : list Q) (from_rate to_rate : Z) :
  0 < from_rate -> 0 < to_rate ->
  resample_step x from_rate to_rate = Ok ys ->
  (from_rate = to_rate /\ ys = x) \/
  (from_rate <> to_rate /\
   resample x (Z.of_nat (length x) * to_rate / from_rate) = Ok ys /\
   Z.of_nat (length ys) = Z.of_nat (length x) * to_rate / from_rate).
Proof.
  intros Hfrom Hto. unfold resample_step.
  destruct (Z.eqb_spec from_rate to_rate) as [-> | Hne].
  - intros [= <-]. left. split; reflexivity.
  - rewrite num_samples_floor by lia. cbn [bind]. intros Hres.
    right. repeat split; try assumption.
    apply resample_length with (x := x). exact Hres.
Qed.

Lemma resample_step_same_duration `{Resampler}
    (x ys : list Q) (from_rate to_rate : Z) :
  0 < from_rate -> 0 < to_rate ->
  resample_step x from_rate to_rate = Ok ys ->
  same_duration (Z.of_nat (length x)) from_rate
                (Z.of_nat (length ys)) to_rate.
Proof.
  intros Hfrom Hto Hstep.
  destruct (resample_step_Ok x ys from_rate to_rate Hfrom Hto Hstep)
    as [[-> ->] | (_ & _ & ->)].
  - unfold same_duration. nia.
  - apply floor_same_duration. exact Hfrom.
Qed.

(** The deviation of C2, at a block of 1024 samples from a 44100 Hz
    device: the count asked of the resampler is 371, the fraction of
    371.519... dropped, where rounding gives 372. *)
Lemma resample_count_is_not_rounded :
  num_samples 1024 SAMPLE_RATE_INPUT 44100 = Ok 371 /\
  spec_num_samples 1024 SAMPLE_RATE_INPUT 44100 = 372 /\
  exists ys : list Q,
    @resample_step hold_resampler (repeat 0%Q 1024) 44100 SAMPLE_RATE_INPUT
      = Ok ys /\
    Z.of_nat (length ys) = 371 /\
    Z.of_nat (length ys) <>
      spec_num_samples (Z.of_nat (length (repeat 0%Q 1024)))
                       SAMPLE_RATE_INPUT 44100.
Proof.
  split; [reflexivity |]. split; [reflexivity |].
  eexists. split; [vm_compute; reflexivity |].
  split; vm_compute; congruence.
Qed.

(** C2, as the code has it.  For rates [from_rate <> to_rate], both
    positive, the resampling step hands back exactly
    [floor(len(x) * to_rate / from_rate)] samples (the fraction is dropped,
    not rounded), and it does hand them back when [x] is not empty and that
    count is positive; the count is fixed by [len(x)] and the two rates
    alone; when the rates are equal the step returns [x] itself. *)
Theorem resample_step_count `{Resampler} (x : list Q) (from_rate to_rate : Z) :
  0 < from_rate -> 0 < to_rate ->
  (from_rate = to_rate -> resample_step x from_rate to_rate = Ok x) /\
  (from_rate <> to_rate ->
     (forall ys, resample_step x from_rate to_rate = Ok ys ->
        Z.of_nat (length ys) = Z.of_nat (length x) * to_rate / from_rate) /\
     (x <> [] -> 0 < Z.of_nat (length x) * to_rate / from_rate ->
        exists ys, resample_step x from_rate to_rate = Ok ys)) /\
  (forall x' ys ys',
     length x' = length x ->
     resample_step x from_rate to_rate = Ok ys ->
     resample_step x' from_rate to_rate = Ok ys' ->
     length ys' = length ys).
Proof.
  intros Hfrom Hto. repeat split.
  - intros ->. unfold resample_step. rewrite Z.eqb_refl. reflexivity.
  - intros ys Hstep.
    destruct (resample_step_Ok x ys _ _ Hfrom Hto Hstep)
      as [[Heq _] | (_ & _ & Hlen)]; [contradiction | exact Hlen].
  - intros Hx Hnum. unfold resample_step.
    destruct (Z.eqb_spec from_rate to_rate) as [Heq | _]; [contradiction |].
    rewrite num_samples_floor by lia. cbn [bind].
    apply resample_returns; assumption.
  - intros x' ys ys' Hlen Hstep Hstep'.
    destruct (resample_step_Ok x ys _ _ Hfrom Hto Hstep)
      as [[Heq ->] | (Hne & _ & Hys)];
    destruct (resample_step_Ok x' ys' _ _ Hfrom Hto Hstep')
      as [[Heq' ->] | (Hne' & _ & Hys')];
    try contradiction; [exact Hlen |].
    rewrite Hlen in Hys'. lia.
Qed.

Lemma resample_step_count_witness :
  (0 < 48000 /\ 0 < 16000) /\
  (48000 <> 16000 ->
   (forall ys,
      @resample_step hold_resampler (to_mono block_48k) 48000 16000 = Ok ys ->
      Z.of_nat (length ys)
        = Z.of_nat (length (to_mono block_48k)) * 16000 / 48000) /\
   (to_mono block_48k <> [] ->
    0 < Z.of_nat (length (to_mono block_48k)) * 16000 / 48000 ->
    exists ys,
      @resample_step hold_resampler (to_mono block_48k) 48000 16000 = Ok ys)).
Proof.
  split; [split; lia |].
  apply (@resample_step_count hold_resampler (to_mono block_48k) 48000 16000);
    lia.
Defined.

(** ** The mono fold *)

Lemma mean_pair (l r : Q) : (mean [l; r] == (l + r) / 2)%Q.
Proof.
  unfold mean. cbn [fold_left length].
  change (inject_Z (Z.of_nat 2)) with 2%Q. field.
Qed.

(** C7. The mono fold of a block: a block of two columns gives, frame by
    frame, the mean of the two channels; any other block gives its samples
    unchanged, in order; a block of no frames gives no samples.  The fold
    is a total function: it has no error case. *)
Theorem to_mono_spec (samples : ndarray) :
  wf_ndarray samples ->
  (forall rows, samples = Arr2 2 rows ->
     Forall2 frame_average rows (to_mono samples)) /\
  ((forall rows, samples <> Arr2 2 rows) ->
     to_mono samples = flatten samples) /\
  (forall data, samples = Arr1 data -> to_mono samples = data) /\
  (len samples = 0%nat -> to_mono samples = []).
Proof.
  intros Hwf. repeat split.
  - intros rows ->. cbn in *.
    induction Hwf as [|row rows Hrow _ IH]; cbn [map]; constructor.
    + destruct row as [|l [|r [|? ?]]]; try discriminate.
      exists l, r. split; [reflexivity | apply mean_pair].
    + exact IH.
  - intros Hne. destruct samples as [data | cols rows]; [reflexivity |].
    destruct cols as [|[|[|cols]]]; try reflexivity.
    exfalso. apply (Hne rows). reflexivity.
  - intros data ->. reflexivity.
  - intros Hlen. destruct samples as [data | cols rows]; cbn in Hlen.
    + destruct data; [reflexivity | discriminate].
    + destruct rows; [| discriminate].
      destruct cols as [|[|[|cols]]]; reflexivity.
Qed.

Lemma to_mono_spec_witness :
  wf_ndarray stereo_block /\
  (forall rows, stereo_block = Arr2 2 rows ->
     Forall2 frame_average rows (to_mono stereo_block)) /\
  ((forall rows, stereo_block <> Arr2 2 rows) ->
     to_mono stereo_block = flatten stereo_block) /\
  (forall data, stereo_block = Arr1 data -> to_mono stereo_block = data) /\
  (len stereo_block = 0%nat -> to_mono stereo_block = []).
Proof.
  split; [repeat constructor |].
  apply (to_mono_spec stereo_block). repeat constructor.
Defined.

(** ** Rates at the two audio boundaries *)

(** Membership in a list that is written out: one case per entry. *)
Ltac in_cases H :=
  repeat (destruct H as [H | H]; [try discriminate |]);
  try (destruct H as [H | H]; try discriminate);
  try contradiction.

Section Boundaries.
Context `{Resampler}.
Import AudioUp AudioDown.

Lemma encode_block_Ok (rate : Z) (samples : ndarray) (blob : Blob) :
  encode_block rate samples = Ok blob ->
  mime_type blob = "audio/pcm;rate=16000"%string /\
  exists mono,
    resample_step (to_mono samples) rate SAMPLE_RATE_INPUT = Ok mono /\
    data blob = to_pcm_data mono.
Proof.
  unfold encode_block.
  destruct (resample_step (to_mono samples) rate SAMPLE_RATE_INPUT)
    as [mono | e]; cbn [bind]; [| discriminate].
  intros [= <-]. split; [reflexivity |]. exists mono. split; reflexivity.
Qed.

(** A send in a pass of audio-up carries the encoded block of that pass. *)
Lemma audio_iteration_send (rate : Z) (env : AudioUp.answers)
    (blob : Blob) (o : result unit) :
  In (ESendAudio blob o) (fst (audio_iteration rate env)) ->
  exists samples,
    a_sample env = Ok (Some samples) /\
    encode_block rate samples = Ok blob /\ o = a_send env.
Proof.
  unfold audio_iteration, audio_try.
  destruct (a_sample env) as [[samples |] | e0];
    [destruct (len samples =? 0)%nat;
       [| destruct (encode_block rate samples) as [blob' | e1] eqn:Henc;
          [destruct (a_send env) as [u | e2] eqn:Hsend;
             [| destruct (is_Exception e2)]
          | destruct (is_Exception e1)]]
    | | destruct (is_Exception e0)];
    cbn; intros Hin; in_cases Hin;
    injection Hin as -> ->; exists samples; auto.
Qed.

(** Every event of the loop is an event of one of its passes. *)
Lemma audio_loop_event (running : bool) (rate : Z)
    (script : list AudioUp.answers) (ev : event) :
  In ev (loop_trace (audio_loop running rate script)) ->
  exists env, In env script /\ In ev (fst (audio_iteration rate env)).
Proof.
  destruct running.
  2: { destruct script; cbn; intros []. }
  induction script as [|env rest IH]; [cbn; intros [] |].
  cbn [audio_loop].
  destruct (audio_iteration rate env) as [evs [e |]] eqn:Hit.
  - cbn. intros Hin. exists env. rewrite Hit.
    split; [left; reflexivity | exact Hin].
  - destruct (audio_loop true rate rest) as [[evs' running'] st] eqn:Hrest.
    unfold loop_trace in *. cbn [fst] in *. intros Hin.
    apply in_app_or in Hin as [Hin | Hin].
    + exists env. rewrite Hit. split; [left; reflexivity | exact Hin].
    + destruct (IH Hin) as (env' & Henv' & Hev).
      exists env'. split; [right; exact Henv' | exact Hev].
Qed.

Lemma length_to_pcm_data (xs : list Q) :
  length (to_pcm_data xs) = (2 * length xs)%nat.
Proof.
  unfold to_pcm_data, tobytes.
  induction xs as [|x xs IH]; [reflexivity |].
  cbn [map concat int16_bytes app length]. rewrite IH. lia.
Qed.

Lemma length_column_stack (xs : list Q) :
  length (column_stack xs) = length xs.
Proof. apply length_map. Qed.

Lemma decode_block_Ok (rate : Z) (audio_data : list byte)
    (stereo : list (Q * Q)) :
  0 < rate ->
  decode_block rate audio_data = Ok stereo ->
  played_at_device_rate rate stereo.
Proof.
  intros Hrate. unfold decode_block.
  destruct (to_audio_float audio_data) as [audio_float | e] eqn:Hfloat;
    cbn [bind]; [| discriminate].
  destruct (resample_step audio_float SAMPLE_RATE_OUTPUT rate)
    as [out | e] eqn:Hstep; cbn [bind]; [| discriminate].
  intros [= <-]. exists audio_data, audio_float, out.
  assert (H24 : 0 < SAMPLE_RATE_OUTPUT) by reflexivity.
  repeat split; try assumption.
  - intros Hne.
    destruct (resample_step_Ok _ _ _ _ H24 Hrate Hstep)
      as [[Heq _] | (_ & Hres & _)]; [congruence | exact Hres].
  - rewrite length_column_stack.
    apply (resample_step_same_duration _ _ _ _ H24 Hrate Hstep).
  - rewrite length_column_stack.
    apply (resample_step_same_duration _ _ _ _ H24 Hrate Hstep).
Qed.

Lemma play_parts_pushes (rate : Z) (parts : list part) :
  Forall (pushes_decoded rate) (fst (play_parts rate parts)).
Proof.
  induction parts as [|p rest IH]; cbn [play_parts]; [constructor |].
  destruct (inline_data p) as [[|b audio_data] |]; try exact IH.
  destruct (decode_block rate (b :: audio_data)) as [stereo | e] eqn:Hdec;
    [| constructor].
  destruct (play_parts rate rest) as [evs r]. cbn [fst] in *.
  constructor; [| exact IH].
  intros stereo' [= <-]. exists (b :: audio_data). exact Hdec.
Qed.

Lemma pushes_decoded_other (rate : Z) (ev : event) :
  (forall stereo, ev <> EPushAudioSample stereo) -> pushes_decoded rate ev.
Proof. intros Hne stereo Heq. destruct (Hne stereo Heq). Qed.

Lemma play_response_pushes (rate : Z) (r : response) :
  Forall (pushes_decoded rate) (fst (play_response rate r)).
Proof.
  unfold play_response.
  assert (Hparts : Forall (pushes_decoded rate)
            (fst match model_turn r with
                 | Some parts => play_parts rate parts
                 | None => ([], Ok tt)
                 end)).
  { destruct (model_turn r); [apply play_parts_pushes | constructor]. }
  destruct (match model_turn r with
            | Some parts => play_parts rate parts
            | None => ([], Ok tt)
            end) as [evs [u | e]]; cbn [fst] in *; [| exact Hparts].
  destruct (turn_complete r); cbn [fst]; [| exact Hparts].
  apply Forall_app. split; [exact Hparts |].
  constructor; [| constructor].
  apply pushes_decoded_other. discriminate.
Qed.

Lemma play_turn_pushes (rate : Z) (turn : list response) :
  Forall (pushes_decoded rate) (fst (play_turn rate turn)).
Proof.
  induction turn as [|r rest IH]; cbn [play_turn]; [constructor |].
  pose proof (play_response_pushes rate r) as Hr.
  destruct (play_response rate r) as [evs [u | e]]; cbn [fst] in *;
    [| exact Hr].
  destruct (play_turn rate rest) as [evs' res]. cbn [fst] in *.
  apply Forall_app. split; assumption.
Qed.

Lemma receive_iteration_pushes (rate : Z) (turn : list response) :
  Forall (pushes_decoded rate) (fst (receive_iteration rate turn)).
Proof.
  unfold receive_iteration.
  pose proof (play_turn_pushes rate turn) as Ht.
  destruct (play_turn rate turn) as [evs [u | e]]; cbn [fst] in *.
  - constructor; [apply pushes_decoded_other; discriminate | exact Ht].
  - destruct (is_Exception e); cbn [fst];
      (constructor; [apply pushes_decoded_other; discriminate |]);
      [| exact Ht].
    apply Forall_app. split; [exact Ht |].
    repeat constructor; apply pushes_decoded_other; discriminate.
Qed.

Lemma receive_loop_pushes (running : bool) (rate : Z)
    (script : list (list response)) :
  Forall (pushes_decoded rate)
         (loop_trace (receive_loop running rate script)).
Proof.
  destruct running; [| destruct script; constructor].
  induction script as [|turn rest IH]; [constructor |].
  cbn [receive_loop].
  pose proof (receive_iteration_pushes rate turn) as Hit.
  destruct (receive_iteration rate turn) as [evs [e |]]; cbn [fst] in Hit.
  - exact Hit.
  - destruct (receive_loop true rate rest) as [[evs' running'] st].
    unfold loop_trace in *. cbn [fst] in *.
    apply Forall_app. split; assumption.
Qed.

End Boundaries.

(** C1. Every chunk handed to the session for outbound send is at the
    wire-in rate: it is declared [audio/pcm;rate=16000], and when the
    device input rate differs from 16000 the block behind it went through
    the resampler before the PCM16 conversion, so that in either case its
    samples at 16000 Hz last what the device block lasts at the device
    rate.  Every block handed to device playback is at the device output
    rate, in the same sense, resampled from 24000 Hz when the rates
    differ. *)
Theorem audio_crosses_boundaries_at_converted_rate `{Resampler}
    (running : bool) (reachy_sample_rate reachy_output_rate : Z)
    (up : list AudioUp.answers) (down : list (list AudioDown.response)) :
  0 < reachy_sample_rate -> 0 < reachy_output_rate ->
  (forall blob o,
     In (ESendAudio blob o)
        (loop_trace (AudioUp.audio_loop running reachy_sample_rate up)) ->
     sent_at_wire_rate reachy_sample_rate up blob) /\
  (forall stereo,
     In (EPushAudioSample stereo)
        (loop_trace (AudioDown.receive_loop running reachy_output_rate down)) ->
     played_at_device_rate reachy_output_rate stereo).
Proof.
  intros Hin Hout. split.
  - intros blob o Hev.
    apply audio_loop_event in Hev as (env & Henv & Hev).
    apply audio_iteration_send in Hev as (samples & Hpoll & Henc & _).
    apply encode_block_Ok in Henc as (Hmime & mono & Hstep & Hdata).
    assert (H16 : 0 < SAMPLE_RATE_INPUT) by reflexivity.
    split; [exact Hmime |].
    exists env, samples, mono. repeat split; try assumption.
    + intros Hne.
      destruct (resample_step_Ok _ _ _ _ Hin H16 Hstep)
        as [[Heq _] | (_ & Hres & _)]; [congruence | exact Hres].
    + apply (resample_step_same_duration _ _ _ _ Hin H16 Hstep).
    + apply (resample_step_same_duration _ _ _ _ Hin H16 Hstep).
  - intros stereo Hev.
    pose proof (receive_loop_pushes running reachy_output_rate down) as Hall.
    pose proof (proj1 (List.Forall_forall _ _) Hall _ Hev) as Hpush.
    destruct (Hpush stereo eq_refl) as [audio_data Hdec].
    apply (decode_block_Ok _ _ _ Hout Hdec).
Qed.

Lemma audio_crosses_boundaries_witness :
  (0 < 48000 /\ 0 < 48000) /\
  (forall blob o,
     In (ESendAudio blob o)
        (loop_trace
           (@AudioUp.audio_loop hold_resampler true 48000 [pass_ok])) ->
     @sent_at_wire_rate hold_resampler 48000 [pass_ok] blob) /\
  (forall stereo,
     In (EPushAudioSample stereo)
        (loop_trace (@AudioDown.receive_loop hold_resampler true 48000
                       [turn_of_three])) ->
     @played_at_device_rate hold_resampler 48000 stereo).
Proof.
  split; [split; lia |].
  apply (@audio_crosses_boundaries_at_converted_rate hold_resampler
           true 48000 48000 [pass_ok] [turn_of_three]); lia.
Defined.

(** ** Audio-up keeps going *)

Section AudioUpFacts.
Context `{Resampler}.
Import AudioUp.

(** The body of the [try] raises exactly when one of its steps does: the
    poll, the encoding of the block (whose only fallible step is the
    resampling) or the send. *)
Lemma audio_try_raises (rate : Z) (env : answers) (e : exn) :
  snd (audio_try rate env) = Raise e <->
  a_sample env = Raise e \/
  exists samples,
    a_sample env = Ok (Some samples) /\ len samples <> 0%nat /\
    (encode_block rate samples = Raise e \/
     exists blob, encode_block rate samples = Ok blob /\ a_send env = Raise e).
Proof.
  unfold audio_try.
  destruct (a_sample env) as [[samples |] | e0]; cbn [snd];
    [destruct (Nat.eqb_spec (len samples) 0) as [Hlen | Hlen]; cbn [snd];
       [| destruct (encode_block rate samples) as [blob | e1] eqn:Henc;
          cbn [snd]]
    | |];
    (split;
     [intros Hr
     |intros [Hx | (s & Hs & Hne & [Hx | (b & Hb & Hx)])]]);
    try discriminate; try congruence; eauto 10;
    injection Hr as ->; eauto 10.
Qed.

Lemma sent_chunks_app (tr tr' : list event) :
  sent_chunks (tr ++ tr') = (sent_chunks tr + sent_chunks tr')%nat.
Proof.
  unfold sent_chunks. rewrite List.filter_app, List.length_app. reflexivity.
Qed.

Lemma audio_loop_step (rate : Z) (env : answers) (rest : list answers)
    (evs : list event) :
  audio_iteration rate env = (evs, None) ->
  audio_loop true rate (env :: rest) =
    (evs ++ loop_trace (audio_loop true rate rest),
     loop_running (audio_loop true rate rest),
     loop_state (audio_loop true rate rest)).
Proof.
  intros Hit. cbn [audio_loop]. rewrite Hit.
  destruct (audio_loop true rate rest) as [[evs' running'] st]. reflexivity.
Qed.

(** The loop never assigns the flag. *)
Lemma audio_loop_running (running : bool) (rate : Z) (script : list answers) :
  loop_running (audio_loop running rate script) = running.
Proof.
  destruct running; [| destruct script; reflexivity].
  induction script as [|env rest IH]; [reflexivity |].
  cbn [audio_loop].
  destruct (audio_iteration rate env) as [evs [e |]]; [reflexivity |].
  destruct (audio_loop true rate rest) as [[evs' running'] st].
  exact IH.
Qed.

Lemma audio_iteration_delivers (rate : Z) (env : answers) :
  delivers rate env ->
  exists blob,
    audio_iteration rate env =
      ([EGetAudioSample; ESendAudio blob (Ok tt)], None).
Proof.
  intros (samples & blob & Hpoll & Hlen & Henc & Hsend).
  exists blob. unfold audio_iteration, audio_try.
  rewrite Hpoll. apply Nat.eqb_neq in Hlen. rewrite Hlen, Henc, Hsend.
  reflexivity.
Qed.

Lemma audio_loop_delivers (rate : Z) (script : list answers) :
  Forall (delivers rate) script ->
  loop_state (audio_loop true rate script) = StillLooping /\
  sent_chunks (loop_trace (audio_loop true rate script)) = length script.
Proof.
  induction 1 as [|env rest Henv _ [IHst IHn]]; [split; reflexivity |].
  destruct (audio_iteration_delivers rate env Henv) as [blob Hit].
  rewrite (audio_loop_step _ _ _ _ Hit).
  split; [exact IHst |].
  unfold loop_trace at 1. cbn [fst].
  rewrite sent_chunks_app, IHn. reflexivity.
Qed.

Lemma audio_iteration_empty (rate : Z) (env : answers) :
  empty_poll env ->
  audio_iteration rate env = ([EGetAudioSample; ESleep 10], None).
Proof.
  unfold audio_iteration, audio_try.
  intros [Hpoll | (samples & Hpoll & Hlen)]; rewrite Hpoll;
    [reflexivity |].
  apply Nat.eqb_eq in Hlen. rewrite Hlen. reflexivity.
Qed.

Lemma audio_loop_empty (rate : Z) (script : list answers) :
  Forall empty_poll script ->
  audio_loop true rate script =
    (concat (repeat [EGetAudioSample; ESleep 10] (length script)),
     true, StillLooping).
Proof.
  induction 1 as [|env rest Henv _ IH]; [reflexivity |].
  rewrite (audio_loop_step _ _ _ _ (audio_iteration_empty rate env Henv)).
  rewrite IH. reflexivity.
Qed.

End AudioUpFacts.

(** C4. A pass of audio-up in which a step raises an exception (the poll,
    the resampling inside the encoding of the block, or the send; the mono
    fold and the PCM16 conversion have no error case) logs it, sleeps
    100 ms and goes on to the next pass: the loop does what it would have
    done with the rest of the script, with [self.running] still true.  In
    particular, after a pass whose send raised, every later pass that has
    a block and succeeds sends its chunk. *)
Theorem audio_up_continues_after_exception `{Resampler}
    (rate : Z) (env : AudioUp.answers) (rest : list AudioUp.answers)
    (e : exn) :
  snd (AudioUp.audio_try rate env) = Raise e ->
  is_Exception e = true ->
  let logged :=
    fst (AudioUp.audio_try rate env)
      ++ [EPrint ("Audio capture error: " ++ show_exn e); ESleep 100] in
  AudioUp.audio_iteration rate env = (logged, None) /\
  AudioUp.audio_loop true rate (env :: rest) =
    (logged ++ loop_trace (AudioUp.audio_loop true rate rest),
     true,
     loop_state (AudioUp.audio_loop true rate rest)) /\
  (Forall (delivers rate) rest ->
     loop_state (AudioUp.audio_loop true rate (env :: rest)) = StillLooping /\
     sent_chunks (loop_trace (AudioUp.audio_loop true rate (env :: rest)))
       = length rest).
Proof.
  intros Hraise Hexc logged.
  assert (Hit : AudioUp.audio_iteration rate env = (logged, None)).
  { unfold AudioUp.audio_iteration, logged.
    destruct (AudioUp.audio_try rate env) as [evs r]. cbn [fst snd] in *.
    subst r. rewrite Hexc. reflexivity. }
  assert (Hloop : AudioUp.audio_loop true rate (env :: rest) =
            (logged ++ loop_trace (AudioUp.audio_loop true rate rest),
             true, loop_state (AudioUp.audio_loop true rate rest))).
  { rewrite (audio_loop_step _ _ _ _ Hit), audio_loop_running. reflexivity. }
  split; [exact Hit |]. split; [exact Hloop |].
  intros Hrest. rewrite Hloop.
  destruct (audio_loop_delivers rate rest Hrest) as [Hst Hn].
  split; [exact Hst |].
  unfold loop_trace at 1. cbn [fst].
  rewrite sent_chunks_app, Hn.
  assert (Hnone : sent_chunks logged = 0%nat).
  { unfold logged, AudioUp.audio_try in *.
    destruct (AudioUp.a_sample env) as [[samples |] | e0];
      [destruct (len samples =? 0)%nat;
         [| destruct (AudioUp.encode_block rate samples);
            [destruct (AudioUp.a_send env) |]] | |];
      cbn [snd] in Hraise; try discriminate; reflexivity. }
  rewrite Hnone. reflexivity.
Qed.

Lemma delivers_pass_ok : @delivers hold_resampler 16000 pass_ok.
Proof.
  exists block_48k. eexists. repeat split; discriminate.
Defined.

(** A send that fails once, then two that succeed: both later chunks go
    out and the loop is still looping. *)
Lemma audio_up_continues_witness :
  loop_state (@AudioUp.audio_loop hold_resampler true 16000
                [pass_send_fails; pass_ok; pass_ok]) = StillLooping /\
  sent_chunks
    (loop_trace (@AudioUp.audio_loop hold_resampler true 16000
                   [pass_send_fails; pass_ok; pass_ok])) = 2%nat.
Proof.
  apply (@audio_up_continues_after_exception hold_resampler 16000
           pass_send_fails [pass_ok; pass_ok]
           (TransportError "connection reset")).
  - reflexivity.
  - reflexivity.
  - repeat constructor; apply delivers_pass_ok.
Defined.

(** ** Video-up is throttled *)

Section VideoUpFacts.
Import VideoUp.

Lemma sends_by_app (deadline : Z) (tr tr' : list (Z * event)) :
  sends_by deadline (tr ++ tr') = sends_by deadline tr + sends_by deadline tr'.
Proof. unfold sends_by. rewrite List.filter_app, List.length_app. lia. Qed.

Lemma throttle_ms_pos : 0 < throttle_ms.
Proof. reflexivity. Qed.

Lemma room_nonneg (now deadline : Z) : 0 <= room now deadline.
Proof.
  unfold room. destruct (Z.ltb_spec deadline now); [lia |].
  pose proof (Z.div_pos (deadline - now) throttle_ms ltac:(lia)
                throttle_ms_pos).
  lia.
Qed.

Lemma room_mono (now now' deadline : Z) :
  now <= now' -> room now' deadline <= room now deadline.
Proof.
  intros Hle. unfold room.
  destruct (Z.ltb_spec deadline now'), (Z.ltb_spec deadline now); try lia.
  - pose proof (Z.div_pos (deadline - now) throttle_ms ltac:(lia)
                  throttle_ms_pos).
    lia.
  - pose proof (Z.div_le_mono (deadline - now') (deadline - now) throttle_ms
                  throttle_ms_pos ltac:(lia)).
    lia.
Qed.

Lemma room_after_send (now sent now' deadline : Z) :
  now <= sent -> sent <= deadline -> sent + throttle_ms <= now' ->
  1 + room now' deadline <= room now deadline.
Proof.
  intros Hs Hd Hn. unfold room. pose proof throttle_ms_pos as Hth.
  destruct (Z.ltb_spec deadline now), (Z.ltb_spec deadline now'); try lia.
  - pose proof (Z.div_pos (deadline - now) throttle_ms ltac:(lia) Hth).
    lia.
  - pose proof (Z.div_le_mono (deadline - now' + 1 * throttle_ms)
                  (deadline - now) throttle_ms Hth ltac:(lia)) as Hm.
    rewrite Z.div_add in Hm by lia. lia.
Qed.

(** One pass: the clock does not go back, and the pass either sends
    nothing by the deadline or sends once, at a time from which the next
    pass is a throttle interval away. *)
Lemma video_iteration_sends (now deadline : Z) (env : answers) :
  let '(evs, now', _) := video_iteration now env in
  now <= now' /\
  (sends_by deadline evs = 0 \/
   sends_by deadline evs = 1 /\
   exists sent, now <= sent /\ sent <= deadline /\ sent + throttle_ms <= now').
Proof.
  unfold video_iteration, video_try, sleep_from.
  pose proof (N2Z.is_nonneg (v_work env)) as Hw.
  pose proof (N2Z.is_nonneg (v_late env)) as Hl.
  pose proof throttle_ms_pos as Hth.
  destruct (v_frame env) as [[frame |] | e0];
    [destruct (v_encode env) as [jpeg | e1];
       [destruct (v_send env) as [u | e2] |] | |];
    try match goal with
        | |- context [is_Exception ?e] => destruct (is_Exception e)
        end;
    unfold sends_by; cbn [fst snd app List.filter is_sent andb length];
    try (split; [lia | left; reflexivity]).
  destruct (Z.leb_spec (now + Z.of_N (v_work env)) deadline) as [Hd | Hd];
    cbn [length]; (split; [lia |]); [right | left; reflexivity].
  split; [reflexivity |].
  exists (now + Z.of_N (v_work env)). lia.
Qed.

Lemma video_loop_sends (running : bool) (script : list answers) :
  forall now deadline,
    sends_by deadline (loop_trace (video_loop running now script))
      <= room now deadline.
Proof.
  destruct running.
  2: { intros now deadline. destruct script; apply room_nonneg. }
  induction script as [|env rest IH]; intros now deadline;
    [apply room_nonneg |].
  cbn [video_loop].
  pose proof (video_iteration_sends now deadline env) as Hit.
  destruct (video_iteration now env) as [[evs now'] [e |]];
    destruct Hit as [Hnow Hsend].
  - unfold loop_trace. cbn [fst].
    destruct Hsend as [-> | [-> (sent & H1 & H2 & H3)]].
    + apply room_nonneg.
    + pose proof (room_after_send now sent now' deadline H1 H2 H3).
      pose proof (room_nonneg now' deadline). lia.
  - specialize (IH now' deadline).
    destruct (video_loop true now' rest) as [[evs' running'] st].
    unfold loop_trace in *. cbn [fst] in *. rewrite sends_by_app.
    destruct Hsend as [-> | [-> (sent & H1 & H2 & H3)]].
    + pose proof (room_mono now now' deadline Hnow). lia.
    + pose proof (room_after_send now sent now' deadline H1 H2 H3). lia.
Qed.

Lemma video_loop_step (now now' : Z) (env : answers) (rest : list answers)
    (evs : list (Z * event)) :
  video_iteration now env = (evs, now', None) ->
  video_loop true now (env :: rest) =
    (evs ++ loop_trace (video_loop true now' rest),
     loop_running (video_loop true now' rest),
     loop_state (video_loop true now' rest)).
Proof.
  intros Hit. cbn [video_loop]. rewrite Hit.
  destruct (video_loop true now' rest) as [[evs' running'] st]. reflexivity.
Qed.

Lemma video_loop_no_frame (script : list answers) :
  Forall no_frame script ->
  forall now,
    map snd (loop_trace (video_loop true now script)) =
      concat (repeat [EGetFrame; ESleep 100] (length script)) /\
    loop_running (video_loop true now script) = true /\
    loop_state (video_loop true now script) = StillLooping.
Proof.
  induction 1 as [|env rest Henv _ IH]; intros now;
    [repeat split; reflexivity |].
  assert (Hit : video_iteration now env =
            ([(now, EGetFrame); (now, ESleep 100)],
             now + 100 + Z.of_N (v_late env), None)).
  { unfold video_iteration, video_try, sleep_from.
    unfold no_frame in Henv. rewrite Henv. reflexivity. }
  rewrite (video_loop_step _ _ _ _ _ Hit).
  destruct (IH (now + 100 + Z.of_N (v_late env))) as (Htr & Hrun & Hst).
  unfold loop_trace at 1, loop_running at 1, loop_state at 1.
  cbn [fst snd]. rewrite map_app, Htr. repeat split; assumption.
Qed.

End VideoUpFacts.

(** C5. Video-up sends at most one frame per throttle interval
    ([1/VIDEO_FPS] seconds, 1000 ms), whatever the polls return and however
    fast frames arrive: of a loop begun at [now], the frames sent within
    the next [elapsed_ms] milliseconds number at most
    [elapsed_ms / 1000 + 1], the elapsed whole seconds plus one. *)
Theorem video_up_sends_at_most_one_per_interval
    (running : bool) (now elapsed_ms : Z) (script : list VideoUp.answers) :
  0 <= elapsed_ms ->
  VideoUp.throttle_ms = 1000 /\
  VideoUp.sends_by (now + elapsed_ms)
      (loop_trace (VideoUp.video_loop running now script))
    <= elapsed_ms / VideoUp.throttle_ms + 1.
Proof.
  intros Hel. split; [reflexivity |].
  pose proof (video_loop_sends running script now (now + elapsed_ms)) as Hb.
  unfold room in Hb.
  destruct (Z.ltb_spec (now + elapsed_ms) now) as [Hlt | _]; [lia |].
  replace (now + elapsed_ms - now) with elapsed_ms in Hb by lia.
  exact Hb.
Qed.

(** A hundred frames, each there at once, with the cap at 1 Hz: within
    99 s no more than a hundred are sent. *)
Lemma video_up_throttle_witness :
  0 <= 99000 /\
  VideoUp.throttle_ms = 1000 /\
  VideoUp.sends_by (0 + 99000)
      (loop_trace (VideoUp.video_loop true 0 (repeat frame_ready 100)))
    <= 99000 / VideoUp.throttle_ms + 1.
Proof.
  split; [lia |].
  apply (video_up_sends_at_most_one_per_interval
           true 0 99000 (repeat frame_ready 100)).
  lia.
Defined.

(** C8. A poll that returns nothing is no error and ends nothing.  Against
    any run of empty audio polls, audio-up only polls and sleeps 10 ms,
    once per poll; against any run of empty video polls, video-up only
    polls and sleeps 100 ms.  Nothing is logged, and at the end of either
    run, however long, the loop is still looping and [self.running] is
    still true. *)
Theorem empty_polls_never_end_a_duty_cycle `{Resampler}
    (rate now : Z) (up : list AudioUp.answers) (video : list VideoUp.answers) :
  Forall empty_poll up -> Forall no_frame video ->
  AudioUp.audio_loop true rate up =
    (concat (repeat [EGetAudioSample; ESleep 10] (length up)),
     true, StillLooping) /\
  map snd (loop_trace (VideoUp.video_loop true now video)) =
    concat (repeat [EGetFrame; ESleep 100] (length video)) /\
  loop_running (VideoUp.video_loop true now video) = true /\
  loop_state (VideoUp.video_loop true now video) = StillLooping.
Proof.
  intros Hup Hvideo. split.
  - apply audio_loop_empty. exact Hup.
  - apply video_loop_no_frame. exact Hvideo.
Qed.

Lemma empty_polls_witness :
  (Forall empty_poll [pass_none; pass_no_frames; pass_none] /\
   Forall no_frame [frame_missing; frame_missing]) /\
  @AudioUp.audio_loop hold_resampler true 48000
      [pass_none; pass_no_frames; pass_none] =
    (concat (repeat [EGetAudioSample; ESleep 10] 3), true, StillLooping) /\
  map snd (loop_trace (VideoUp.video_loop true 0
                         [frame_missing; frame_missing])) =
    concat (repeat [EGetFrame; ESleep 100] 2) /\
  loop_running (VideoUp.video_loop true 0 [frame_missing; frame_missing])
    = true /\
  loop_state (VideoUp.video_loop true 0 [frame_missing; frame_missing])
    = StillLooping.
Proof.
  assert (Hup : Forall empty_poll [pass_none; pass_no_frames; pass_none]).
  { constructor; [left; reflexivity |].
    constructor; [right; exists (Arr2 2 []); split; reflexivity |].
    constructor; [left; reflexivity | constructor]. }
  assert (Hvideo : Forall no_frame [frame_missing; frame_missing]).
  { repeat constructor. }
  split; [split; assumption |].
  apply (@empty_polls_never_end_a_duty_cycle hold_resampler 48000 0
           [pass_none; pass_no_frames; pass_none]
           [frame_missing; frame_missing] Hup Hvideo).
Defined.

(** ** Shutdown *)

Section ShutdownFacts.
Import Chat.

Lemma cleanup_steps_app (tr tr' : list event) :
  cleanup_steps (tr ++ tr') = cleanup_steps tr ++ cleanup_steps tr'.
Proof. apply List.filter_app. Qed.

Lemma cleanup_free_emit (ev : event) :
  is_cleanup ev = false -> cleanup_free (emit ev).
Proof.
  intros Hev c. cbn. rewrite cleanup_steps_app. cbn. rewrite Hev.
  apply app_nil_r.
Qed.

Lemma cleanup_free_call (ev : event) (outcome : result unit) :
  is_cleanup ev = false -> cleanup_free (call ev outcome).
Proof. intros Hev c. apply (cleanup_free_emit ev Hev c). Qed.

Lemma cleanup_free_seq {A B : Type} (m : M A) (k : A -> M B) :
  cleanup_free m -> (forall a, cleanup_free (k a)) -> cleanup_free (seq m k).
Proof.
  intros Hm Hk c. unfold seq. specialize (Hm c).
  destruct (m c) as [[a | e] c']; cbn [snd] in *; [| exact Hm].
  rewrite (Hk a c'). exact Hm.
Qed.

Lemma cleanup_free_try_except (body handler : M unit) :
  cleanup_free body -> cleanup_free handler ->
  cleanup_free (try_except_interrupt body handler).
Proof.
  intros Hb Hh c. unfold try_except_interrupt. specialize (Hb c).
  destruct (body c) as [[u | []] c']; cbn [snd] in *; try exact Hb.
  rewrite (Hh c'). exact Hb.
Qed.

Lemma cleanup_free_start (w : world) : cleanup_free (start w).
Proof.
  unfold start, print.
  repeat (apply cleanup_free_seq; [| intros _]);
    try (apply cleanup_free_emit; reflexivity);
    try (apply cleanup_free_call; reflexivity);
    intros c; reflexivity.
Qed.

(** [stop] from any state: the flag ends false, the two handles are left
    as they were, and the cleanup steps taken are an initial part of the
    plan that starts with the flag; all of the plan when neither the close
    nor a device call raises; cut after the close when the close raises. *)
Lemma stop_steps (w : world) (c : chat) :
  running (snd (stop w c)) = false /\
  session (snd (stop w c)) = session c /\
  reachy (snd (stop w c)) = reachy c /\
  exists steps,
    cleanup_steps (trace (snd (stop w c))) = cleanup_steps (trace c) ++ steps /\
    (exists rest, cleanup_plan c = steps ++ rest) /\
    hd_error steps = Some (ESetRunning false) /\
    (w_close w = Ok tt -> w_stop_recording w = Ok tt ->
       steps = cleanup_plan c) /\
    (session c = true -> forall e, w_close w = Raise e ->
       steps = [ESetRunning false; ESessionClose]).
Proof.
  destruct c as [re se ru tr].
  unfold stop, cleanup_plan, seq, when, call, print, emit, set_running.
  cbn [reachy session running trace snd fst].
  destruct se, re;
    destruct (w_close w) as [[] | e1];
    destruct (w_stop_recording w) as [[] | e2];
    destruct (w_stop_playing w) as [[] | e3];
    destruct (w_reachy_exit w) as [[] | e4];
    cbn [reachy session running trace snd fst];
    (repeat split; try reflexivity);
    (eexists; split;
     [rewrite ?cleanup_steps_app; cbn [cleanup_steps List.filter is_cleanup];
      rewrite <- ?app_assoc; cbn [app]; reflexivity |]);
    (split; [eexists; cbn [app]; reflexivity |]);
    (split; [reflexivity |]);
    (split; [intros; try discriminate; try reflexivity
            |intros; try discriminate; try reflexivity]).
Qed.

End ShutdownFacts.

(** The deviation of C3: the session's close raises, and [stop] ends
    there; neither the recording nor the playback is stopped. *)
Lemma cleanup_is_cut_short_by_a_failing_close :
  In ESessionClose
     (Chat.trace (snd (Chat.run interrupted_close_fails Chat.init))) /\
  ~ In EStopRecording
     (Chat.trace (snd (Chat.run interrupted_close_fails Chat.init))) /\
  ~ In EStopPlaying
     (Chat.trace (snd (Chat.run interrupted_close_fails Chat.init))).
Proof.
  vm_compute. repeat split.
  - tauto.
  - intros Hin. in_cases Hin.
  - intros Hin. in_cases Hin.
Qed.

(** C3, as the code has it.  However [run] ends (the duty cycles return,
    an interrupt, a failure in [start]), [stop] runs once, after
    everything else: [self.running] is set false first, then the session is
    closed if one was opened, then recording and playback are stopped if
    the robot object was created; these steps are taken in this order and
    each at most once.  They are taken one after the other with no
    handler in between: all of them when none raises, and when the close
    raises, nothing after it. *)
Theorem run_cleans_up_once_in_order (w : Chat.world) :
  Chat.running (snd (Chat.run w Chat.init)) = false /\
  exists rest,
    cleanup_plan (snd (Chat.run w Chat.init)) =
      cleanup_steps (Chat.trace (snd (Chat.run w Chat.init))) ++ rest /\
    hd_error (cleanup_steps (Chat.trace (snd (Chat.run w Chat.init))))
      = Some (ESetRunning false) /\
    (Chat.w_close w = Ok tt -> Chat.w_stop_recording w = Ok tt ->
       rest = []) /\
    (Chat.session (snd (Chat.run w Chat.init)) = true ->
     forall e, Chat.w_close w = Raise e ->
       cleanup_steps (Chat.trace (snd (Chat.run w Chat.init)))
         = [ESetRunning false; ESessionClose]).
Proof.
  unfold Chat.run, Chat.try_finally.
  set (body := Chat.try_except_interrupt _ _).
  assert (Hbody : cleanup_free body).
  { apply cleanup_free_try_except.
    - apply cleanup_free_seq; [apply cleanup_free_start | intros _].
      repeat (apply cleanup_free_seq;
              [apply cleanup_free_emit; reflexivity | intros _]).
      apply cleanup_free_call. reflexivity.
    - apply cleanup_free_emit. reflexivity. }
  specialize (Hbody Chat.init).
  destruct (body Chat.init) as [r c1]. cbn [snd] in Hbody.
  change (cleanup_steps (Chat.trace Chat.init)) with (@nil event) in Hbody.
  destruct (stop_steps w c1)
    as (Hrun & Hse & Hre & steps & Hsteps & [rest Hplan] & Hhd & Hall & Hcut).
  rewrite Hbody in Hsteps. cbn [app] in Hsteps.
  assert (Hsnd : snd (let '(r0, c'') := Chat.stop w c1 in
                      match r0 with
                      | Ok _ => (r, c'')
                      | Raise e => (Raise e, c'')
                      end) = snd (Chat.stop w c1)).
  { destruct (Chat.stop w c1) as [[u | e] c2]; reflexivity. }
  assert (Hfin : snd (match Chat.stop w c1 with
                      | (Ok _, c'') => (r, c'')
                      | (Raise e, c'') => (Raise e, c'')
                      end) = snd (Chat.stop w c1)).
  { destruct (Chat.stop w c1) as [[u | e] c2]; reflexivity. }
  rewrite Hfin. split; [exact Hrun |].
  exists rest. rewrite Hsteps.
  assert (Hplan' : cleanup_plan (snd (Chat.stop w c1)) = cleanup_plan c1).
  { unfold cleanup_plan. rewrite Hse, Hre. reflexivity. }
  rewrite Hplan'. split; [exact Hplan |]. split; [exact Hhd |]. split.
  - intros Hc Hr. specialize (Hall Hc Hr). rewrite Hall in Hplan.
    rewrite <- (app_nil_r (cleanup_plan c1)) in Hplan at 1.
    apply app_inv_head in Hplan. symmetry. exact Hplan.
  - intros Hs e He. rewrite Hse in Hs. exact (Hcut Hs e He).
Qed.

(** An interrupted run cleans up in full; a run whose connect was refused
    has no session to close, stops the device streams and lets the
    failure through. *)
Example cleanup_of_an_interrupted_run :
  Chat.run calm_world Chat.init
    = (Ok tt, snd (Chat.run calm_world Chat.init)) /\
  cleanup_steps (Chat.trace (snd (Chat.run calm_world Chat.init)))
    = [ESetRunning false; ESessionClose; EStopRecording; EStopPlaying].
Proof. split; vm_compute; reflexivity. Qed.

Example cleanup_after_a_refused_connect :
  fst (Chat.run connect_refused Chat.init)
    = Raise (OtherError "connection refused") /\
  ~ In EGather (Chat.trace (snd (Chat.run connect_refused Chat.init))) /\
  cleanup_steps (Chat.trace (snd (Chat.run connect_refused Chat.init)))
    = [ESetRunning false; EStopRecording; EStopPlaying].
Proof.
  split; [vm_compute; reflexivity |]. split; [| vm_compute; reflexivity].
  vm_compute. intros Hin. in_cases Hin.
Qed.

(** ** Startup without the credential *)

(** The deviation of C9: without the key, [main] returns after its two
    lines, and the exit status of the program is 0. *)
Lemma missing_key_exit_status_is_zero :
  Chat.getenv environ_without_key "GEMINI_API_KEY" = None /\
  fst (Chat.program environ_without_key calm_world) = 0.
Proof. split; reflexivity. Qed.

(** C9, as the code has it.  When [GEMINI_API_KEY] is absent from the
    environment, startup stops at once with a reported error and nothing
    of a run is attempted: the whole trace of the program is the two
    printed lines, with no client, device or session call and no duty
    cycle.  [main] then returns, so the program ends with exit status 0. *)
Theorem missing_key_aborts_startup
    (environ : gmap string string) (w : Chat.world) :
  Chat.getenv environ "GEMINI_API_KEY" = None ->
  Chat.program environ w = (0, missing_key_report).
Proof.
  intros Hkey. unfold Chat.program, Chat.main. rewrite Hkey. reflexivity.
Qed.

Lemma missing_key_aborts_startup_witness :
  Chat.getenv environ_without_key "GEMINI_API_KEY" = None /\
  Chat.program environ_without_key calm_world = (0, missing_key_report).
Proof.
  split; [reflexivity |].
  apply (missing_key_aborts_startup environ_without_key calm_world).
  reflexivity.
Defined.

(** An empty value counts as no value. *)
Lemma empty_key_aborts_startup
    (environ : gmap string string) (w : Chat.world) :
  Chat.getenv environ "GEMINI_API_KEY" = Some ""%string ->
  Chat.program environ w = (0, missing_key_report).
Proof.
  intros Hkey. unfold Chat.program, Chat.main. rewrite Hkey. reflexivity.
Qed.

(** With the key, the run is attempted. *)
Example key_present_runs :
  In EConnect
     (snd (Chat.program (<[ "GEMINI_API_KEY"%string := "k"%string ]>
                           environ_without_key)
                        calm_world)).
Proof. vm_compute. tauto. Qed.

(** ** Sample runs *)

(** At 48000 Hz the six frames go out as two samples, four bytes. *)
Example up_48k_sends_two_samples :
  exists blob,
    loop_trace (@AudioUp.audio_loop hold_resampler true 48000 [pass_ok])
      = [EGetAudioSample; ESendAudio blob (Ok tt)] /\
    mime_type blob = "audio/pcm;rate=16000"%string /\
    length (data blob) = 4%nat.
Proof. eexists. split; [vm_compute; reflexivity |]. split; reflexivity. Qed.

(** To a 48000 Hz speaker the three samples are played as six frames. *)
Example down_48k_plays_six_frames :
  exists stereo,
    loop_trace (@AudioDown.receive_loop hold_resampler true 48000
                  [turn_of_three])
      = [EReceive; EPushAudioSample stereo; EPrint "[Turn complete]"] /\
    length stereo = 6%nat.
Proof. eexists. split; [vm_compute; reflexivity | reflexivity]. Qed.

(** The bound is met: the hundred frames do go out, one per second. *)
Example hundred_frames_in_99_seconds :
  VideoUp.sends_by 99000
    (loop_trace (VideoUp.video_loop true 0 (repeat frame_ready 100))) = 100 /\
  VideoUp.sends_by 98999
    (loop_trace (VideoUp.video_loop true 0 (repeat frame_ready 100))) = 99.
Proof. split; vm_compute; reflexivity. Qed.


(** * Further properties of the code *)

(** ** The PCM16 conversion *)

Lemma Qtrunc_nonneg (q : Q) : (0 <= q)%Q -> Qtrunc q = Qfloor q.
Proof.
  destruct q as [n d]. unfold Qle, Qtrunc, Qfloor. cbn [Qnum Qden].
  intros Hn. apply Z.quot_div_nonneg; lia.
Qed.

Lemma Qtrunc_opp (q : Q) : Qtrunc (- q) = - Qtrunc q.
Proof.
  destruct q as [n d]. unfold Qtrunc, Qopp. cbn [Qnum Qden].
  apply Z.quot_opp_l. lia.
Qed.

Lemma Qtrunc_nonpos (q : Q) : (q <= 0)%Q -> Qtrunc q = Qceiling q.
Proof.
  intros Hq. unfold Qceiling.
  rewrite <- Qtrunc_nonneg by lra.
  rewrite Qtrunc_opp. lia.
Qed.

Lemma Qtrunc_comp (q q' : Q) : (q == q')%Q -> Qtrunc q = Qtrunc q'.
Proof.
  intros Heq. destruct (Qlt_le_dec q 0) as [Hneg | Hpos].
  - rewrite !Qtrunc_nonpos by lra. apply Qceiling_comp. exact Heq.
  - rewrite !Qtrunc_nonneg by lra. apply Qfloor_comp. exact Heq.
Qed.

(** Dropping the fraction keeps the order. *)
Lemma Qtrunc_mono (q q' : Q) : (q <= q')%Q -> Qtrunc q <= Qtrunc q'.
Proof.
  intros Hle.
  destruct (Qlt_le_dec q 0) as [Hq | Hq];
    destruct (Qlt_le_dec q' 0) as [Hq' | Hq'].
  - rewrite !Qtrunc_nonpos by lra. apply Qceiling_resp_le. exact Hle.
  - rewrite (Qtrunc_nonpos q) by lra. rewrite (Qtrunc_nonneg q') by lra.
    pose proof (Qceiling_resp_le q 0 ltac:(lra)) as Hc.
    pose proof (Qfloor_resp_le 0 q' Hq') as Hf.
    change (Qceiling 0) with 0 in Hc. change (Qfloor 0) with 0 in Hf. lia.
  - lra.
  - rewrite !Qtrunc_nonneg by lra. apply Qfloor_resp_le. exact Hle.
Qed.

(** X1. Within [-1, 1] the conversion to PCM16 keeps the order of the
    samples: a larger sample never gets a smaller PCM value. *)
Theorem float_to_pcm16_monotone (s t : Q) :
  (-1 <= s)%Q -> (s <= t)%Q -> (t <= 1)%Q ->
  float_to_pcm16 s <= float_to_pcm16 t.
Proof.
  intros Hlo Hst Hhi.
  destruct (float_to_pcm16_in_range s) as [-> _]; [lra | lra |].
  destruct (float_to_pcm16_in_range t) as [-> _]; [lra | lra |].
  apply Qtrunc_mono. lra.
Qed.

Lemma float_to_pcm16_monotone_witness :
  float_to_pcm16 (- (1 # 3)) <= float_to_pcm16 (2 # 5).
Proof.
  apply (float_to_pcm16_monotone (- (1 # 3)) (2 # 5));
    unfold Qle; simpl; lia.
Defined.

(** X2. Within [-1, 1] the conversion to PCM16 is symmetric about zero:
    the fraction is dropped toward zero on both sides, so the negated
    sample gets the negated PCM value. *)
Theorem float_to_pcm16_odd (s : Q) :
  (-1 <= s)%Q -> (s <= 1)%Q ->
  float_to_pcm16 (- s) = - float_to_pcm16 s.
Proof.
  intros Hlo Hhi.
  destruct (float_to_pcm16_in_range s Hlo Hhi) as [-> _].
  destruct (float_to_pcm16_in_range (- s)) as [-> _]; [lra | lra |].
  rewrite <- Qtrunc_opp. apply Qtrunc_comp. ring.
Qed.

Lemma float_to_pcm16_odd_witness :
  float_to_pcm16 (- (2 # 3)) = - float_to_pcm16 (2 # 3).
Proof.
  apply (float_to_pcm16_odd (2 # 3)); unfold Qle; simpl; lia.
Defined.



(** ** The mono fold, and the block as it goes out *)

Lemma mean_pair_in_unit (l r : Q) :
  in_unit l -> in_unit r -> in_unit (mean [l; r]).
Proof.
  unfold in_unit. intros [Hl1 Hl2] [Hr1 Hr2].
  rewrite mean_pair. unfold Qdiv. change (/ 2)%Q with (1 # 2)%Q.
  split; lra.
Qed.

(** X4. The mono fold hands on one sample per frame for a two-column
    block, and every entry, channels interleaved, for a block of any other
    width: a block of [n] frames and [c <> 2] columns gives [n * c]
    samples.  A one-dimensional block keeps its length. *)
Theorem to_mono_length (samples : ndarray) :
  wf_ndarray samples -> length (to_mono samples) = mono_length samples.
Proof.
  destruct samples as [data | cols rows]; intros Hwf; [reflexivity |].
  cbn [wf_ndarray mono_length] in *.
  assert (Hflat : length (concat rows) = (length rows * cols)%nat).
  { induction Hwf as [|row rows Hrow _ IH]; [reflexivity |].
    cbn [concat length]. rewrite List.length_app, IH, Hrow. lia. }
  destruct cols as [|[|[|cols]]]; cbn [to_mono flatten Nat.eqb];
    try exact Hflat.
  apply length_map.
Qed.

Lemma to_mono_length_witness :
  length (to_mono (Arr2 3 [[1; 0; 0]; [0; 1; 0]]%Q)) = 6%nat /\
  length (to_mono block_48k) = 6%nat.
Proof.
  split.
  - apply (to_mono_length (Arr2 3 [[1; 0; 0]; [0; 1; 0]]%Q)).
    repeat constructor.
  - apply (to_mono_length block_48k). repeat constructor.
Defined.

(** X5. The mono fold keeps samples within range: when every sample of a
    block lies in [-1, 1], so does every sample it hands on. *)
Theorem to_mono_keeps_range (samples : ndarray) :
  wf_ndarray samples ->
  Forall in_unit (flatten samples) ->
  Forall in_unit (to_mono samples).
Proof.
  destruct samples as [data | cols rows]; intros Hwf Hin; [exact Hin |].
  cbn [wf_ndarray flatten] in *.
  destruct cols as [|[|[|cols]]]; cbn [to_mono flatten]; try exact Hin.
  induction Hwf as [|row rows Hrow _ IH]; [constructor |].
  cbn [concat map] in *. apply List.Forall_app in Hin as [Hrow_in Hrest].
  constructor; [| apply IH; exact Hrest].
  destruct row as [|l [|r [|? ?]]]; try discriminate.
  inversion Hrow_in as [|? ? Hl Hr']; subst.
  inversion Hr' as [|? ? Hr _]; subst.
  apply mean_pair_in_unit; assumption.
Qed.

Lemma to_mono_keeps_range_witness : Forall in_unit (to_mono block_48k).
Proof.
  apply (to_mono_keeps_range block_48k).
  - repeat constructor.
  - repeat constructor; unfold Qle; simpl; lia.
Defined.

Lemma wire_sample_of_mean (l r : Q) :
  in_unit l -> in_unit r ->
  wire_sample_of_frame [l; r] (wrap_int16 (float_to_pcm16 (mean [l; r]))).
Proof.
  intros Hl Hr.
  destruct (mean_pair_in_unit l r Hl Hr) as [Hlo Hhi].
  destruct (float_to_pcm16_in_range _ Hlo Hhi) as [Heq Hrange].
  rewrite wrap_int16_id by lia.
  exists l, r. split; [reflexivity |]. split; [exact Hrange |].
  rewrite Heq.
  pose proof (Qtrunc_close (mean [l; r] * 32767)) as Hc.
  apply Qabs_Qlt_condition in Hc. apply Qabs_Qlt_condition.
  pose proof (mean_pair l r) as Hm.
  set (v := inject_Z (Qtrunc (mean [l; r] * 32767))) in *.
  set (m := mean [l; r]) in *.
  unfold Qdiv in *. change (/ 2)%Q with (1 # 2)%Q in *.
  split; lra.
Qed.

(** X6. A stereo block with every sample in [-1, 1], polled from a device
    that runs at 16000 Hz, goes out whole and unwrapped: the encoding
    cannot fail, the blob holds two bytes per frame, and read as
    little-endian [int16] it holds, frame by frame, the mean of the two
    channels times 32767 with the fraction dropped. *)
Theorem stereo_block_on_the_wire `{Resampler} (rows : list (list Q)) :
  wf_ndarray (Arr2 2 rows) ->
  Forall in_unit (concat rows) ->
  exists blob vs,
    AudioUp.encode_block SAMPLE_RATE_INPUT (Arr2 2 rows) = Ok blob /\
    mime_type blob = "audio/pcm;rate=16000"%string /\
    length (data blob) = (2 * length rows)%nat /\
    frombuffer (data blob) = Ok vs /\
    Forall2 wire_sample_of_frame rows vs.
Proof.
  intros Hwf Hin.
  eexists. eexists.
  split; [unfold AudioUp.encode_block, resample_step;
          rewrite Z.eqb_refl; reflexivity |].
  cbn [mime_type data to_mono].
  split; [reflexivity |].
  split; [rewrite length_to_pcm_data, length_map; reflexivity |].
  split; [unfold to_pcm_data; apply frombuffer_tobytes |].
  cbn [wf_ndarray] in Hwf.
  induction Hwf as [|row rows Hrow _ IH]; cbn [map concat] in *;
    [constructor |].
  apply List.Forall_app in Hin as [Hrow_in Hrest].
  constructor; [| apply IH; exact Hrest].
  destruct row as [|l [|r [|? ?]]]; try discriminate.
  inversion Hrow_in as [|? ? Hl Hr']; subst.
  inversion Hr' as [|? ? Hr _]; subst.
  apply wire_sample_of_mean; assumption.
Qed.

Lemma stereo_block_on_the_wire_witness :
  exists blob vs,
    @AudioUp.encode_block hold_resampler SAMPLE_RATE_INPUT
      (Arr2 2 [[1; 0]; [1 # 2; 1 # 4]; [-1; -1]]%Q) = Ok blob /\
    mime_type blob = "audio/pcm;rate=16000"%string /\
    length (data blob) = (2 * 3)%nat /\
    frombuffer (data blob) = Ok vs /\
    Forall2 wire_sample_of_frame [[1; 0]; [1 # 2; 1 # 4]; [-1; -1]]%Q vs.
Proof.
  apply (@stereo_block_on_the_wire hold_resampler
           [[1; 0]; [1 # 2; 1 # 4]; [-1; -1]]%Q).
  - repeat constructor.
  - repeat constructor; unfold Qle; simpl; lia.
Defined.

(** ** Inbound payloads *)

(** [np.frombuffer] by the length of the buffer, two bytes at a time. *)
Lemma frombuffer_by_length (n : nat) :
  forall bs, (length bs <= n)%nat ->
  if Nat.even (length bs)
  then exists vs, frombuffer bs = Ok vs /\ length bs = (2 * length vs)%nat
  else frombuffer bs = Raise frombuffer_error.
Proof.
  induction n as [|n IH]; intros bs Hlen.
  - destruct bs; [| cbn in Hlen; lia]. cbn. exists []. split; reflexivity.
  - destruct bs as [|lo [|hi rest]].
    + cbn. exists []. split; reflexivity.
    + reflexivity.
    + cbn [length] in Hlen. specialize (IH rest ltac:(lia)).
      cbn [length Nat.even frombuffer].
      destruct (Nat.even (length rest)).
      * destruct IH as (vs & -> & Hl). cbn [bind].
        eexists. split; [reflexivity |]. cbn [length]. lia.
      * rewrite IH. reflexivity.
Qed.

Lemma decode_block_odd `{Resampler} (rate : Z) (audio_data : list byte) :
  Nat.even (length audio_data) = false ->
  AudioDown.decode_block rate audio_data = Raise frombuffer_error.
Proof.
  intros Hpar.
  pose proof (frombuffer_by_length (length audio_data) audio_data
                (Nat.le_refl _)) as Hfb.
  rewrite Hpar in Hfb.
  unfold AudioDown.decode_block, to_audio_float. rewrite Hfb. reflexivity.
Qed.

(** X7. An inbound payload with an odd number of bytes cannot be decoded:
    at any device rate the decoding raises the [ValueError] of
    [np.frombuffer].  A payload with an even number of bytes, played on a
    device that runs at 24000 Hz, always decodes, to one stereo frame per
    two bytes. *)
Theorem decode_block_by_parity `{Resampler}
    (rate : Z) (audio_data : list byte) :
  (Nat.even (length audio_data) = false ->
     AudioDown.decode_block rate audio_data = Raise frombuffer_error) /\
  (Nat.even (length audio_data) = true ->
     exists stereo,
       AudioDown.decode_block SAMPLE_RATE_OUTPUT audio_data = Ok stereo /\
       length audio_data = (2 * length stereo)%nat).
Proof.
  pose proof (frombuffer_by_length (length audio_data) audio_data
                (Nat.le_refl _)) as Hfb.
  unfold AudioDown.decode_block, to_audio_float. split; intros Hpar;
    rewrite Hpar in Hfb.
  - rewrite Hfb. reflexivity.
  - destruct Hfb as (vs & -> & Hlen). cbn [bind].
    unfold resample_step. rewrite Z.eqb_refl. cbn [bind].
    eexists. split; [reflexivity |].
    rewrite length_column_stack, length_map. exact Hlen.
Qed.

Lemma decode_block_by_parity_witness :
  @AudioDown.decode_block hold_resampler 48000
    ["1"%byte; "2"%byte; "3"%byte] = Raise frombuffer_error /\
  exists stereo,
    @AudioDown.decode_block hold_resampler SAMPLE_RATE_OUTPUT
      ["1"%byte; "2"%byte; "3"%byte; "4"%byte] = Ok stereo /\
    length ["1"%byte; "2"%byte; "3"%byte; "4"%byte]
      = (2 * length stereo)%nat.
Proof.
  split.
  - apply (proj1 (@decode_block_by_parity hold_resampler 48000
                    ["1"%byte; "2"%byte; "3"%byte])).
    reflexivity.
  - apply (proj2 (@decode_block_by_parity hold_resampler 48000
                    ["1"%byte; "2"%byte; "3"%byte; "4"%byte])).
    reflexivity.
Defined.

Section AudioDownFacts.
Context `{Resampler}.
Import AudioDown.

Lemma decode_block_duplicated (rate : Z) (audio_data : list byte)
    (stereo : list (Q * Q)) :
  decode_block rate audio_data = Ok stereo ->
  Forall (fun p => fst p = snd p) stereo.
Proof.
  unfold decode_block.
  destruct (to_audio_float audio_data) as [fl | e]; cbn [bind];
    [| discriminate].
  destruct (resample_step fl SAMPLE_RATE_OUTPUT rate) as [out | e];
    cbn [bind]; [| discriminate].
  intros [= <-]. unfold column_stack.
  induction out; cbn [map]; constructor; [reflexivity | assumption].
Qed.

Lemma pushes_decoded_duplicated (rate : Z) (tr : list event) :
  Forall (pushes_decoded rate) tr -> Forall duplicated tr.
Proof.
  induction 1 as [|ev tr Hev _ IH]; constructor; [| exact IH].
  destruct ev; try exact I.
  destruct (Hev _ eq_refl) as [audio_data Hdec].
  apply (decode_block_duplicated _ _ _ Hdec).
Qed.

End AudioDownFacts.

(** X8. Whatever the session delivers and whatever the device rate is,
    every block that audio-down pushes to the device has the same sample
    in its two channels: the mono stream is duplicated, never mixed. *)
Theorem pushed_blocks_are_duplicated_mono `{Resampler}
    (running : bool) (reachy_output_rate : Z)
    (script : list (list AudioDown.response)) :
  Forall duplicated
    (loop_trace (AudioDown.receive_loop running reachy_output_rate script)).
Proof.
  apply (pushes_decoded_duplicated reachy_output_rate).
  apply receive_loop_pushes.
Qed.

Section TurnFacts.
Context `{Resampler}.
Import AudioDown.

Lemma play_parts_app (rate : Z) (good rest : list part) :
  snd (play_parts rate good) = Ok tt ->
  play_parts rate (good ++ rest) =
    (fst (play_parts rate good) ++ fst (play_parts rate rest),
     snd (play_parts rate rest)).
Proof.
  induction good as [|p good IH]; cbn [app play_parts].
  - intros _. destruct (play_parts rate rest). reflexivity.
  - destruct (inline_data p) as [[|b audio_data] |]; try exact IH.
    destruct (decode_block rate (b :: audio_data)) as [stereo | e];
      [| discriminate].
    destruct (play_parts rate good) as [evs r]. cbn [fst snd] in *.
    intros Hr. rewrite (IH Hr). reflexivity.
Qed.

Lemma play_parts_bad_payload (rate : Z) (bad : list byte) (after : list part) :
  Nat.even (length bad) = false ->
  play_parts rate (payload bad :: after) = ([], Raise frombuffer_error).
Proof.
  intros Hodd. cbn [play_parts payload inline_data].
  destruct bad as [|b bad]; [discriminate |].
  rewrite (decode_block_odd rate (b :: bad) Hodd).
  reflexivity.
Qed.

Lemma play_turn_app (rate : Z) (before rest : list response) :
  snd (play_turn rate before) = Ok tt ->
  play_turn rate (before ++ rest) =
    (fst (play_turn rate before) ++ fst (play_turn rate rest),
     snd (play_turn rate rest)).
Proof.
  induction before as [|r before IH]; cbn [app play_turn].
  - intros _. destruct (play_turn rate rest). reflexivity.
  - destruct (play_response rate r) as [evs [[] | e]]; [| discriminate].
    destruct (play_turn rate before) as [evs' res]. cbn [fst snd] in *.
    intros Hr. rewrite (IH Hr). cbn [fst snd].
    rewrite app_assoc. reflexivity.
Qed.

Lemma receive_loop_step (rate : Z) (turn : list response)
    (rest : list (list response)) (evs : list event) :
  receive_iteration rate turn = (evs, None) ->
  receive_loop true rate (turn :: rest) =
    (evs ++ loop_trace (receive_loop true rate rest),
     loop_running (receive_loop true rate rest),
     loop_state (receive_loop true rate rest)).
Proof.
  intros Hit. cbn [receive_loop]. rewrite Hit.
  destruct (receive_loop true rate rest) as [[evs' running'] st].
  reflexivity.
Qed.

Lemma receive_loop_running (running : bool) (rate : Z)
    (script : list (list response)) :
  loop_running (receive_loop running rate script) = running.
Proof.
  destruct running; [| destruct script; reflexivity].
  induction script as [|turn rest IH]; [reflexivity |].
  cbn [receive_loop].
  destruct (receive_iteration rate turn) as [evs [e |]]; [reflexivity |].
  destruct (receive_loop true rate rest) as [[evs' running'] st].
  exact IH.
Qed.

End TurnFacts.

(** X9. A corrupt payload costs the rest of its turn, not just itself.
    When a part of a response carries a payload with an odd number of
    bytes, what was played before it stays played, and nothing after it is:
    not the later parts of that response, not its turn-complete line, not
    the later responses of the turn.  The turn ends with the [ValueError]. *)
Theorem corrupt_payload_cuts_the_turn `{Resampler}
    (rate : Z) (before later : list AudioDown.response)
    (r : AudioDown.response) (good after : list AudioDown.part)
    (bad : list byte) :
  snd (AudioDown.play_turn rate before) = Ok tt ->
  AudioDown.model_turn r = Some (good ++ payload bad :: after) ->
  snd (AudioDown.play_parts rate good) = Ok tt ->
  Nat.even (length bad) = false ->
  AudioDown.play_turn rate (before ++ r :: later) =
    (fst (AudioDown.play_turn rate before)
       ++ fst (AudioDown.play_parts rate good),
     Raise frombuffer_error).
Proof.
  intros Hbefore Hr Hgood Hodd.
  rewrite (play_turn_app rate before (r :: later) Hbefore).
  cbn [AudioDown.play_turn]. unfold AudioDown.play_response. rewrite Hr.
  rewrite (play_parts_app rate good (payload bad :: after) Hgood).
  rewrite (play_parts_bad_payload rate bad after Hodd).
  cbn [fst snd]. rewrite app_nil_r. reflexivity.
Qed.

Lemma corrupt_payload_cuts_the_turn_witness :
  @AudioDown.play_turn hold_resampler 24000
      ([] ++ response_with_corrupt_payload :: turn_of_three) =
    (fst (@AudioDown.play_turn hold_resampler 24000 [])
       ++ fst (@AudioDown.play_parts hold_resampler 24000
                 [payload (to_pcm_data [1 # 2; - (1 # 2)]%Q)]),
     Raise frombuffer_error).
Proof.
  apply (@corrupt_payload_cuts_the_turn hold_resampler 24000 []
           turn_of_three response_with_corrupt_payload
           [payload (to_pcm_data [1 # 2; - (1 # 2)]%Q)]
           [payload (to_pcm_data [1 # 4]%Q)]
           ["1"%byte; "2"%byte; "3"%byte]); reflexivity.
Defined.

(** X10. Audio-down outlives a failing turn.  When the turn of a pass
    ends with an exception, the blocks already pushed stay pushed, the
    error is printed, the loop sleeps 100 ms and then takes the next turn:
    it does with the rest of the script what it would have done anyway,
    with [self.running] still true. *)
Theorem audio_down_continues_after_exception `{Resampler}
    (rate : Z) (turn : list AudioDown.response)
    (rest : list (list AudioDown.response)) (e : exn) :
  snd (AudioDown.play_turn rate turn) = Raise e ->
  is_Exception e = true ->
  AudioDown.receive_loop true rate (turn :: rest) =
    (EReceive :: fst (AudioDown.play_turn rate turn)
       ++ [EPrint ("Audio receive error: " ++ show_exn e); ESleep 100]
       ++ loop_trace (AudioDown.receive_loop true rate rest),
     true,
     loop_state (AudioDown.receive_loop true rate rest)).
Proof.
  intros Hraise Hexc.
  assert (Hit : AudioDown.receive_iteration rate turn =
            (EReceive :: fst (AudioDown.play_turn rate turn)
               ++ [EPrint ("Audio receive error: " ++ show_exn e);
                   ESleep 100], None)).
  { unfold AudioDown.receive_iteration.
    destruct (AudioDown.play_turn rate turn) as [evs r].
    cbn [fst snd] in *. subst r. rewrite Hexc. reflexivity. }
  rewrite (receive_loop_step _ _ _ _ Hit), receive_loop_running.
  cbn [app]. rewrite <- app_assoc. reflexivity.
Qed.

Lemma audio_down_continues_witness :
  @AudioDown.receive_loop hold_resampler true 24000
      ([response_with_corrupt_payload] :: [turn_of_three]) =
    (EReceive
       :: fst (@AudioDown.play_turn hold_resampler 24000
                 [response_with_corrupt_payload])
       ++ [EPrint ("Audio receive error: " ++ show_exn frombuffer_error);
           ESleep 100]
       ++ loop_trace (@AudioDown.receive_loop hold_resampler true 24000
                        [turn_of_three]),
     true,
     loop_state (@AudioDown.receive_loop hold_resampler true 24000
                   [turn_of_three])).
Proof.
  apply (@audio_down_continues_after_exception hold_resampler 24000
           [response_with_corrupt_payload] [turn_of_three]
           frombuffer_error); reflexivity.
Defined.

(** ** Video-up: failures and retries *)

Section VideoRetryFacts.
Import VideoUp.

Lemma attempts_by_app (deadline : Z) (tr tr' : list (Z * event)) :
  attempts_by deadline (tr ++ tr')
    = attempts_by deadline tr + attempts_by deadline tr'.
Proof.
  unfold attempts_by. rewrite List.filter_app, List.length_app. lia.
Qed.

Lemma room_of_nonneg (step now deadline : Z) :
  0 < step -> 0 <= room_of step now deadline.
Proof.
  intros Hstep. unfold room_of.
  destruct (Z.ltb_spec deadline now); [lia |].
  pose proof (Z.div_pos (deadline - now) step ltac:(lia) Hstep). lia.
Qed.

Lemma room_of_mono (step now now' deadline : Z) :
  0 < step -> now <= now' ->
  room_of step now' deadline <= room_of step now deadline.
Proof.
  intros Hstep Hle. unfold room_of.
  destruct (Z.ltb_spec deadline now'), (Z.ltb_spec deadline now); try lia.
  - pose proof (Z.div_pos (deadline - now) step ltac:(lia) Hstep). lia.
  - pose proof (Z.div_le_mono (deadline - now') (deadline - now) step
                  Hstep ltac:(lia)).
    lia.
Qed.

Lemma room_of_one (step now deadline : Z) :
  0 < step -> now <= deadline -> 1 <= room_of step now deadline.
Proof.
  intros Hstep Hle. unfold room_of.
  destruct (Z.ltb_spec deadline now); [lia |].
  pose proof (Z.div_pos (deadline - now) step ltac:(lia) Hstep). lia.
Qed.

Lemma room_of_after (step now at_ now' deadline : Z) :
  0 < step -> now <= at_ -> at_ <= deadline -> at_ + step <= now' ->
  1 + room_of step now' deadline <= room_of step now deadline.
Proof.
  intros Hstep Hs Hd Hn. unfold room_of.
  destruct (Z.ltb_spec deadline now), (Z.ltb_spec deadline now'); try lia.
  - pose proof (Z.div_pos (deadline - now) step ltac:(lia) Hstep). lia.
  - pose proof (Z.div_le_mono (deadline - now' + 1 * step)
                  (deadline - now) step Hstep ltac:(lia)) as Hm.
    rewrite Z.div_add in Hm by lia. lia.
Qed.

(** One pass hands over at most one frame, and when the loop goes on, the
    next pass begins no sooner than 500 ms after that. *)
Lemma video_iteration_attempts (now deadline : Z) (env : answers) :
  let '(evs, now', escaped) := video_iteration now env in
  now <= now' /\
  (attempts_by deadline evs = 0 \/
   attempts_by deadline evs = 1 /\
   exists at_,
     now <= at_ /\ at_ <= deadline /\
     (escaped = None -> at_ + retry_ms <= now')).
Proof.
  unfold video_iteration, video_try, sleep_from, retry_ms.
  pose proof (N2Z.is_nonneg (v_work env)) as Hw.
  pose proof (N2Z.is_nonneg (v_late env)) as Hl.
  assert (Hth : throttle_ms = 1000) by reflexivity.
  destruct (v_frame env) as [[frame |] | e0];
    [destruct (v_encode env) as [jpeg | e1];
       [destruct (v_send env) as [u | e2] |] | |];
    try match goal with
        | |- context [is_Exception ?e] => destruct (is_Exception e)
        end;
    unfold attempts_by;
    cbn [fst snd app List.filter is_attempt andb length];
    try (split; [lia | left; reflexivity]);
    (destruct (Z.leb_spec (now + Z.of_N (v_work env)) deadline) as [Hd | Hd];
     cbn [length]; (split; [lia |]); [right | left; reflexivity];
     split; [reflexivity |];
     exists (now + Z.of_N (v_work env));
     repeat split; try lia; try discriminate).
Qed.

Lemma video_loop_attempts (running : bool) (script : list answers) :
  forall now deadline,
    attempts_by deadline (loop_trace (video_loop running now script))
      <= room_of retry_ms now deadline.
Proof.
  assert (Hstep : 0 < retry_ms) by reflexivity.
  destruct running.
  2: { intros now deadline. destruct script; apply room_of_nonneg, Hstep. }
  induction script as [|env rest IH]; intros now deadline;
    [apply room_of_nonneg, Hstep |].
  cbn [video_loop].
  pose proof (video_iteration_attempts now deadline env) as Hit.
  destruct (video_iteration now env) as [[evs now'] [e |]];
    destruct Hit as [Hnow Hsend].
  - unfold loop_trace. cbn [fst].
    destruct Hsend as [-> | [-> (at_ & H1 & H2 & _)]].
    + apply room_of_nonneg, Hstep.
    + apply room_of_one; [exact Hstep | lia].
  - specialize (IH now' deadline).
    destruct (video_loop true now' rest) as [[evs' running'] st].
    unfold loop_trace in *. cbn [fst] in *. rewrite attempts_by_app.
    destruct Hsend as [-> | [-> (at_ & H1 & H2 & H3)]].
    + pose proof (room_of_mono retry_ms now now' deadline Hstep Hnow). lia.
    + pose proof (room_of_after retry_ms now at_ now' deadline
                    Hstep H1 H2 (H3 eq_refl)).
      lia.
Qed.

Lemma video_loop_running (running : bool) (script : list answers) :
  forall now, loop_running (video_loop running now script) = running.
Proof.
  destruct running; [| intros now; destruct script; reflexivity].
  induction script as [|env rest IH]; intros now; [reflexivity |].
  cbn [video_loop].
  destruct (video_iteration now env) as [[evs now'] [e |]]; [reflexivity |].
  specialize (IH now').
  destruct (video_loop true now' rest) as [[evs' running'] st].
  exact IH.
Qed.

End VideoRetryFacts.

(** X11. Video-up outlives a failing pass, and backs off for half the
    throttle interval.  When the poll, the encoding or the send of a pass
    raises an exception, the error is printed, the loop sleeps 500 ms (the
    one-second throttle sleep is skipped) and then takes the next pass, with
    [self.running] still true. *)
Theorem video_up_continues_after_exception
    (now : Z) (env : VideoUp.answers) (rest : list VideoUp.answers)
    (e : exn) :
  snd (VideoUp.video_try now env) = Raise e ->
  is_Exception e = true ->
  let failed_at := snd (fst (VideoUp.video_try now env)) in
  let resume := failed_at + 500 + Z.of_N (VideoUp.v_late env) in
  VideoUp.video_loop true now (env :: rest) =
    (fst (fst (VideoUp.video_try now env))
       ++ [(failed_at, EPrint ("Video capture error: " ++ show_exn e));
           (failed_at, ESleep 500)]
       ++ loop_trace (VideoUp.video_loop true resume rest),
     true,
     loop_state (VideoUp.video_loop true resume rest)).
Proof.
  intros Hraise Hexc failed_at resume.
  assert (Hit : VideoUp.video_iteration now env =
            (fst (fst (VideoUp.video_try now env))
               ++ [(failed_at, EPrint ("Video capture error: " ++ show_exn e));
                   (failed_at, ESleep 500)], resume, None)).
  { unfold VideoUp.video_iteration, failed_at, resume.
    destruct (VideoUp.video_try now env) as [[evs now'] r].
    cbn [fst snd] in *. subst r. rewrite Hexc. reflexivity. }
  rewrite (video_loop_step _ _ _ _ _ Hit), video_loop_running.
  rewrite <- app_assoc. reflexivity.
Qed.

Lemma video_up_continues_witness :
  VideoUp.video_loop true 0 (frame_send_fails :: [frame_ready]) =
    (fst (fst (VideoUp.video_try 0 frame_send_fails))
       ++ [(0, EPrint ("Video capture error: "
                         ++ show_exn (TransportError "broken pipe")));
           (0, ESleep 500)]
       ++ loop_trace (VideoUp.video_loop true 500 [frame_ready]),
     true,
     loop_state (VideoUp.video_loop true 500 [frame_ready])).
Proof.
  apply (video_up_continues_after_exception 0 frame_send_fails
           [frame_ready] (TransportError "broken pipe")); reflexivity.
Defined.

(** X12. Video-up hands a frame to the session at most once per 500 ms,
    failures included: a send that fails is followed by the 500 ms sleep
    of the handler, one that returns by the one-second throttle.  Of a
    loop begun at [now], the frames handed over within the next
    [elapsed_ms] milliseconds number at most [elapsed_ms / 500 + 1]. *)
Theorem video_up_attempts_at_most_one_per_half_second
    (running : bool) (now elapsed_ms : Z) (script : list VideoUp.answers) :
  0 <= elapsed_ms ->
  attempts_by (now + elapsed_ms)
      (loop_trace (VideoUp.video_loop running now script))
    <= elapsed_ms / retry_ms + 1.
Proof.
  intros Hel.
  pose proof (video_loop_attempts running script now (now + elapsed_ms)) as Hb.
  unfold room_of in Hb.
  destruct (Z.ltb_spec (now + elapsed_ms) now) as [Hlt | _]; [lia |].
  replace (now + elapsed_ms - now) with elapsed_ms in Hb by lia.
  exact Hb.
Qed.

(** A session that is down: every send fails at once.  Within ten seconds
    twenty-one frames are handed over, which is the bound. *)
Lemma video_up_attempts_witness :
  attempts_by (0 + 10000)
      (loop_trace (VideoUp.video_loop true 0 (repeat frame_send_fails 40)))
    <= 10000 / retry_ms + 1.
Proof.
  apply (video_up_attempts_at_most_one_per_half_second
           true 0 10000 (repeat frame_send_fails 40)).
  lia.
Defined.

Example attempts_against_a_dead_session :
  attempts_by 10000
    (loop_trace (VideoUp.video_loop true 0 (repeat frame_send_fails 40)))
  = 21.
Proof. vm_compute. reflexivity. Qed.

(** ** Audio-up: order of the chunks *)

Lemma attempted_app (tr tr' : list event) :
  attempted (tr ++ tr') = attempted tr ++ attempted tr'.
Proof. apply flat_map_app. Qed.

Lemma audio_iteration_attempted `{Resampler}
    (rate : Z) (env : AudioUp.answers) :
  attempted (fst (AudioUp.audio_iteration rate env)) = offered rate env.
Proof.
  unfold AudioUp.audio_iteration, AudioUp.audio_try, offered.
  destruct (AudioUp.a_sample env) as [[samples |] | e0];
    [destruct (len samples =? 0)%nat;
       [| destruct (AudioUp.encode_block rate samples) as [blob | e1];
          [destruct (AudioUp.a_send env) as [u | e2] |]]
    | |];
    try match goal with
        | |- context [is_Exception ?e] => destruct (is_Exception e)
        end;
    reflexivity.
Qed.

(** X13. Audio-up sends the chunks in the order the blocks were polled,
    each at most once: the blobs handed to the session are, in order, the
    encodings of the blocks of the passes made.  A chunk whose send failed
    is not sent again, and nothing is held back for a later pass.  When
    the loop is still looping, the passes made are the whole script. *)
Theorem audio_up_sends_in_poll_order `{Resampler}
    (running : bool) (rate : Z) (script : list AudioUp.answers) :
  exists passes : nat,
    (passes <= length script)%nat /\
    attempted (loop_trace (AudioUp.audio_loop running rate script))
      = flat_map (offered rate) (firstn passes script) /\
    (loop_state (AudioUp.audio_loop running rate script) = StillLooping ->
     passes = length script).
Proof.
  destruct running.
  2: { exists 0%nat. destruct script; cbn; repeat split; try lia;
       discriminate. }
  induction script as [|env rest IH].
  - exists 0%nat. repeat split; reflexivity.
  - cbn [AudioUp.audio_loop].
    pose proof (audio_iteration_attempted rate env) as Hit.
    destruct (AudioUp.audio_iteration rate env) as [evs [e |]];
      cbn [fst] in Hit.
    + exists 1%nat. unfold loop_trace, loop_state. cbn [fst snd length].
      repeat split; [lia | | discriminate].
      cbn [firstn flat_map]. rewrite app_nil_r. exact Hit.
    + destruct IH as (k & Hk & Htr & Hst).
      destruct (AudioUp.audio_loop true rate rest) as [[evs' running'] st].
      unfold loop_trace, loop_state in *. cbn [fst snd length] in *.
      exists (S k). repeat split; [lia | | intros Hs; rewrite (Hst Hs); lia].
      rewrite attempted_app, Hit, Htr. reflexivity.
Qed.

(** ** The life cycle: what runs, and how it ends *)

Section LifeCycleFacts.
Import Chat.
Variable keep : event -> bool.

Lemma adds_emit (ev : event) :
  adds keep (emit ev) (if keep ev then [ev] else []).
Proof.
  intros c. cbn. rewrite List.filter_app. cbn.
  destruct (keep ev); reflexivity.
Qed.

Lemma adds_call (ev : event) (outcome : result unit) :
  adds keep (call ev outcome) (if keep ev then [ev] else []).
Proof. intros c. apply (adds_emit ev c). Qed.

Lemma adds_set_running (b : bool) :
  adds keep (set_running b)
       (if keep (ESetRunning b) then [ESetRunning b] else []).
Proof. intros c. apply (adds_emit (ESetRunning b) c). Qed.

Lemma adds_set_reachy (b : bool) : adds keep (set_reachy b) [].
Proof. intros c. cbn. symmetry. apply app_nil_r. Qed.

Lemma adds_set_session (b : bool) : adds keep (set_session b) [].
Proof. intros c. cbn. symmetry. apply app_nil_r. Qed.

(** A quiet method in front changes nothing, when what follows is quiet
    too. *)
Lemma adds_seq_quiet {A B : Type} (m : M A) (k : A -> M B) :
  adds keep m [] -> (forall a, adds keep (k a) []) -> adds keep (seq m k) [].
Proof.
  intros Hm Hk c. unfold seq. specialize (Hm c).
  destruct (m c) as [[a | e] c']; cbn [snd] in *; [| exact Hm].
  rewrite (Hk a c'), Hm, !app_nil_r. reflexivity.
Qed.

(** A method that returns, followed by another. *)
Lemma adds_seq_returns {A B : Type} (m : M A) (k : A -> M B)
    (evs evs' : list event) :
  adds keep m evs -> returns m -> (forall a, adds keep (k a) evs') ->
  adds keep (seq m k) (evs ++ evs').
Proof.
  intros Hm Hret Hk c. unfold seq. specialize (Hm c).
  destruct (Hret c) as [a Ha].
  destruct (m c) as [[a' | e] c']; cbn [fst snd] in *; [| discriminate].
  rewrite (Hk a' c'), Hm, app_assoc. reflexivity.
Qed.

Lemma adds_when (b : chat -> bool) (m : M unit) :
  adds keep m [] -> adds keep (when b m) [].
Proof.
  intros Hm c. unfold when.
  destruct (b c); [apply Hm | symmetry; apply app_nil_r].
Qed.

Lemma returns_emit (ev : event) : returns (emit ev).
Proof. intros c. exists tt. reflexivity. Qed.

Lemma returns_seq {A B : Type} (m : M A) (k : A -> M B) :
  returns m -> (forall a, returns (k a)) -> returns (seq m k).
Proof.
  intros Hm Hk c. unfold seq. destruct (Hm c) as [a Ha].
  destruct (m c) as [[a' | e] c']; cbn [fst] in *; [| discriminate].
  apply Hk.
Qed.

End LifeCycleFacts.

Section RunFacts.
Import Chat.

Lemma fst_seq {A B : Type} (m : M A) (k : A -> M B) (c : chat) :
  fst (seq m k c) =
    match fst (m c) with
    | Ok a => fst (k a (snd (m c)))
    | Raise e => Raise e
    end.
Proof. unfold seq. destruct (m c) as [[a | e] c']; reflexivity. Qed.

Lemma snd_seq_Ok {A B : Type} (m : M A) (k : A -> M B) (c : chat) (a : A) :
  fst (m c) = Ok a -> snd (seq m k c) = snd (k a (snd (m c))).
Proof.
  unfold seq. destruct (m c) as [[a' | e] c']; cbn [fst snd];
    [intros [= ->]; reflexivity | discriminate].
Qed.

Lemma snd_seq_Raise {A B : Type} (m : M A) (k : A -> M B) (c : chat)
    (e : exn) :
  fst (m c) = Raise e -> snd (seq m k c) = snd (m c).
Proof.
  unfold seq. destruct (m c) as [[a' | e'] c']; cbn [fst snd];
    [discriminate | reflexivity].
Qed.

Lemma start_result (w : world) (c : chat) :
  fst (start w c) = start_outcome w.
Proof.
  unfold start, start_outcome.
  repeat (rewrite fst_seq;
          cbn [fst call print emit set_reachy set_session set_running]).
  destruct (w_reachy_init w) as [[] | e1], (w_reachy_enter w) as [[] | e2],
    (w_start_recording w) as [[] | e3], (w_start_playing w) as [[] | e4],
    (w_connect w) as [[] | e5]; reflexivity.
Qed.

(** The two handles after [start]: the robot object exists once its
    constructor returned, the session once every call of [start] did. *)
Lemma start_handles (w : world) (c : chat) :
  reachy (snd (start w c)) = reachy c || is_ok (w_reachy_init w) /\
  session (snd (start w c)) = session c || is_ok (start_outcome w).
Proof.
  destruct c as [[] [] ru tr];
    destruct w as [i en sr sp ir or co ga cl st stp ex];
    (destruct i as [[] | e1]; [| lazy; split; reflexivity]);
    (destruct en as [[] | e2]; [| lazy; split; reflexivity]);
    (destruct sr as [[] | e3]; [| lazy; split; reflexivity]);
    (destruct sp as [[] | e4]; [| lazy; split; reflexivity]);
    destruct co as [[] | e5]; lazy; split; reflexivity.
Qed.

Lemma fst_when (b : chat -> bool) (m : M unit) (c : chat) :
  fst (when b m c) = if b c then fst (m c) else Ok tt.
Proof. unfold when. destruct (b c); reflexivity. Qed.

Lemma fst_try_except (body handler : M unit) (c : chat) :
  fst (try_except_interrupt body handler c) =
    match fst (body c) with
    | Raise KeyboardInterrupt => fst (handler (snd (body c)))
    | r => r
    end.
Proof.
  unfold try_except_interrupt.
  destruct (body c) as [[u | []] c']; reflexivity.
Qed.

Lemma snd_try_except (body handler : M unit) (c : chat) :
  snd (try_except_interrupt body handler c) =
    match fst (body c) with
    | Raise KeyboardInterrupt => snd (handler (snd (body c)))
    | _ => snd (body c)
    end.
Proof.
  unfold try_except_interrupt.
  destruct (body c) as [[u | []] c']; reflexivity.
Qed.

Lemma fst_try_finally (body final : M unit) (c : chat) :
  fst (try_finally body final c) =
    match fst (final (snd (body c))) with
    | Ok _ => fst (body c)
    | Raise e => Raise e
    end.
Proof.
  unfold try_finally. destruct (body c) as [r c']. cbn [fst snd].
  destruct (final c') as [[u | e] c'']; reflexivity.
Qed.

Lemma snd_try_finally (body final : M unit) (c : chat) :
  snd (try_finally body final c) = snd (final (snd (body c))).
Proof.
  unfold try_finally. destruct (body c) as [r c']. cbn [fst snd].
  destruct (final c') as [[u | e] c'']; reflexivity.
Qed.

(** When the session exists and its close raises, [stop] raises that. *)
Lemma stop_raises_close (w : world) (c : chat) (e : exn) :
  session c = true -> w_close w = Raise e -> fst (stop w c) = Raise e.
Proof.
  intros Hs Hclose. destruct c as [re se ru tr]. cbn [session] in Hs.
  subst se. unfold stop. rewrite fst_seq. cbn [fst snd set_running].
  rewrite fst_seq, fst_when. cbn [session call fst].
  rewrite Hclose. reflexivity.
Qed.


Lemma adds_if_seq (keep : event -> bool) {A B : Type}
    (m : M A) (k : A -> M B) (evs : list event) :
  adds keep m [] -> (forall a, adds_if keep (k a) evs) ->
  adds_if keep (seq m k) evs.
Proof.
  intros Hm Hk c. unfold seq. specialize (Hm c).
  destruct (m c) as [[a | e] c']; cbn [fst snd is_ok] in *.
  - rewrite (Hk a c'), Hm, app_nil_r. reflexivity.
  - exact Hm.
Qed.

Lemma adds_if_then (keep : event -> bool) {A B : Type}
    (m : M A) (k : A -> M B) (evs evs' : list event) (c : chat) :
  adds_if keep m evs -> (forall a, adds keep (k a) evs') ->
  List.filter keep (trace (snd (seq m k c)))
    = List.filter keep (trace c)
        ++ (if is_ok (fst (m c)) then evs ++ evs' else []).
Proof.
  intros Hm Hk. unfold seq. specialize (Hm c).
  destruct (m c) as [[a | e] c']; cbn [fst snd is_ok] in *.
  - rewrite (Hk a c'), Hm, app_assoc. reflexivity.
  - exact Hm.
Qed.

Lemma filter_try_except (keep : event -> bool) (body handler : M unit)
    (c : chat) :
  adds keep handler [] ->
  List.filter keep (trace (snd (try_except_interrupt body handler c)))
    = List.filter keep (trace (snd (body c))).
Proof.
  intros Hh. rewrite snd_try_except.
  destruct (fst (body c)) as [u | []]; try reflexivity.
  rewrite (Hh (snd (body c))). apply app_nil_r.
Qed.

(** Steps that leave no event of the kind that [keep] selects. *)
Ltac quiet_step :=
  first [ exact (adds_emit _ _)
        | exact (adds_call _ _ _)
        | exact (adds_set_reachy _ _)
        | exact (adds_set_session _ _) ].

Lemma start_marks (w : world) : adds_if is_mark (start w) [ESetRunning true].
Proof.
  unfold start, print.
  repeat (apply adds_if_seq; [quiet_step | intros _]).
  intros c. cbn. rewrite List.filter_app. reflexivity.
Qed.

(** The banner and the gathering of the three duty cycles. *)
Lemma banner_and_gather_marks (w : world) :
  adds is_mark
    (print (newline ++ rule) >>
     print "Reachy Mini + Gemini Live Chat" >>
     print rule >>
     print "Speak to Reachy - Gemini can see and hear you!" >>
     print "Press Ctrl+C to exit" >>
     print (rule ++ newline) >>
     call EGather (w_gather w))
    [EGather].
Proof.
  unfold print.
  repeat (apply (adds_seq_returns is_mark _ _ [] _);
          [quiet_step | apply returns_emit | intros _]).
  exact (adds_call is_mark EGather (w_gather w)).
Qed.

Lemma stop_marks (w : world) : adds is_mark (stop w) [ESetRunning false].
Proof.
  unfold stop, print.
  apply (adds_seq_returns is_mark _ _ [ESetRunning false] []).
  - exact (adds_set_running is_mark false).
  - intros c. exists tt. reflexivity.
  - intros _.
    repeat first
      [ quiet_step
      | apply adds_when
      | apply adds_seq_quiet; [| intros _] ].
Qed.

Lemma keeps_handles_emit (ev : event) : keeps_handles (emit ev).
Proof. intros c. split; reflexivity. Qed.

Lemma keeps_handles_call (ev : event) (outcome : result unit) :
  keeps_handles (call ev outcome).
Proof. intros c. split; reflexivity. Qed.

Lemma keeps_handles_seq {A B : Type} (m : M A) (k : A -> M B) :
  keeps_handles m -> (forall a, keeps_handles (k a)) ->
  keeps_handles (seq m k).
Proof.
  intros Hm Hk c. unfold seq. specialize (Hm c).
  destruct (m c) as [[a | e] c']; cbn [snd] in *; [| exact Hm].
  destruct (Hk a c') as [Hs Hr]. destruct Hm as [Hs' Hr'].
  split; congruence.
Qed.

(** What follows a method does not touch the handles it leaves. *)
Lemma handles_seq_after {A B : Type} (m : M A) (k : A -> M B) (c : chat) :
  (forall a, keeps_handles (k a)) ->
  session (snd (seq m k c)) = session (snd (m c)) /\
  reachy (snd (seq m k c)) = reachy (snd (m c)).
Proof.
  intros Hk. unfold seq.
  destruct (m c) as [[a | e] c']; cbn [snd]; [apply Hk | split; reflexivity].
Qed.

Lemma handles_try_except (body handler : M unit) (c : chat) :
  keeps_handles handler ->
  session (snd (try_except_interrupt body handler c))
    = session (snd (body c)) /\
  reachy (snd (try_except_interrupt body handler c))
    = reachy (snd (body c)).
Proof.
  intros Hh. rewrite snd_try_except.
  destruct (fst (body c)) as [u | []]; try (split; reflexivity).
  apply Hh.
Qed.

Lemma run_guarded (w : world) : run w = try_finally (guarded w) (stop w).
Proof. reflexivity. Qed.

Lemma guarded_handles (w : world) (c : chat) :
  session (snd (guarded w c)) = session c || is_ok (start_outcome w) /\
  reachy (snd (guarded w c)) = reachy c || is_ok (w_reachy_init w).
Proof.
  unfold guarded.
  destruct (handles_try_except
              (start w >>
               print (newline ++ rule) >>
               print "Reachy Mini + Gemini Live Chat" >>
               print rule >>
               print "Speak to Reachy - Gemini can see and hear you!" >>
               print "Press Ctrl+C to exit" >>
               print (rule ++ newline) >>
               call EGather (w_gather w))
              (print (newline ++ "Shutting down...")) c
              (keeps_handles_emit _)) as [-> ->].
  destruct (handles_seq_after (start w)
              (fun _ =>
                 print (newline ++ rule) >>
                 print "Reachy Mini + Gemini Live Chat" >>
                 print rule >>
                 print "Speak to Reachy - Gemini can see and hear you!" >>
                 print "Press Ctrl+C to exit" >>
                 print (rule ++ newline) >>
                 call EGather (w_gather w)) c) as [-> ->].
  - intros _. unfold print.
    repeat (apply keeps_handles_seq;
            [apply keeps_handles_emit | intros _]).
    apply keeps_handles_call.
  - destruct (start_handles w c) as [-> ->]. split; reflexivity.
Qed.

(** How the guarded part ends: an interrupt is taken by the handler, any
    other exception goes on, and the duty cycles decide when [start]
    returned. *)
Lemma guarded_result (w : world) (c : chat) :
  fst (guarded w c) =
    match start_outcome w with
    | Ok _ =>
        match w_gather w with
        | Raise KeyboardInterrupt => Ok tt
        | r => r
        end
    | Raise KeyboardInterrupt => Ok tt
    | Raise e => Raise e
    end.
Proof.
  unfold guarded. rewrite fst_try_except, fst_seq, start_result.
  destruct (start_outcome w) as [[] | []]; reflexivity.
Qed.

Lemma program_status (environ : gmap string string) (w : world) :
  fst (program environ w) = exit_status (fst (main environ w init)).
Proof.
  unfold program. destruct (main environ w init) as [r c]. reflexivity.
Qed.

Lemma main_with_key (environ : gmap string string) (w : world) :
  truthy (getenv environ "GEMINI_API_KEY") = true ->
  main environ w init = (emit EClientInit >> run w) init.
Proof. intros Hkey. unfold main. rewrite Hkey. reflexivity. Qed.

Lemma extends_emit (ev : event) : extends (emit ev).
Proof. intros c. exists [ev]. reflexivity. Qed.

Lemma extends_call (ev : event) (outcome : result unit) :
  extends (call ev outcome).
Proof. intros c. exists [ev]. reflexivity. Qed.

Lemma extends_set_reachy (b : bool) : extends (set_reachy b).
Proof. intros c. exists []. symmetry. apply app_nil_r. Qed.

Lemma extends_set_session (b : bool) : extends (set_session b).
Proof. intros c. exists []. symmetry. apply app_nil_r. Qed.

Lemma extends_set_running (b : bool) : extends (set_running b).
Proof. intros c. exists [ESetRunning b]. reflexivity. Qed.

Lemma extends_seq {A B : Type} (m : M A) (k : A -> M B) :
  extends m -> (forall a, extends (k a)) -> extends (seq m k).
Proof.
  intros Hm Hk c. unfold seq. destruct (Hm c) as [evs Hevs].
  destruct (m c) as [[a | e] c']; cbn [snd] in *; [| eauto].
  destruct (Hk a c') as [evs' Hevs'].
  exists (evs ++ evs'). rewrite Hevs', Hevs, app_assoc. reflexivity.
Qed.

Lemma extends_when (b : chat -> bool) (m : M unit) :
  extends m -> extends (when b m).
Proof.
  intros Hm c. unfold when.
  destruct (b c); [apply Hm | exists []; symmetry; apply app_nil_r].
Qed.

Lemma extends_try_except (body handler : M unit) :
  extends body -> extends handler ->
  extends (try_except_interrupt body handler).
Proof.
  intros Hb Hh c. rewrite snd_try_except. destruct (Hb c) as [evs Hevs].
  destruct (fst (body c)) as [u | []]; eauto.
  destruct (Hh (snd (body c))) as [evs' Hevs'].
  exists (evs ++ evs'). rewrite Hevs', Hevs, app_assoc. reflexivity.
Qed.

Lemma extends_try_finally (body final : M unit) :
  extends body -> extends final -> extends (try_finally body final).
Proof.
  intros Hb Hf c. rewrite snd_try_finally. destruct (Hb c) as [evs Hevs].
  destruct (Hf (snd (body c))) as [evs' Hevs'].
  exists (evs ++ evs'). rewrite Hevs', Hevs, app_assoc. reflexivity.
Qed.

(** [run] only adds to the trace. *)
Lemma extends_run (w : world) : extends (run w).
Proof.
  unfold run, start, stop.
  repeat lazymatch goal with
    | |- extends (seq _ _) => apply extends_seq; [| intros _]
    | |- extends (try_finally _ _) => apply extends_try_finally
    | |- extends (try_except_interrupt _ _) => apply extends_try_except
    | |- extends (when _ _) => apply extends_when
    | |- extends (print _) => apply extends_emit
    | |- extends (call _ _) => apply extends_call
    | |- extends (set_reachy _) => apply extends_set_reachy
    | |- extends (set_session _) => apply extends_set_session
    | |- extends (set_running _) => apply extends_set_running
    end.
Qed.

Lemma start_no_exit (w : world) : adds is_exit (start w) [].
Proof.
  unfold start, print.
  repeat (apply adds_seq_quiet; [quiet_step | intros _]).
  exact (adds_set_running is_exit true).
Qed.

Lemma guarded_no_exit (w : world) : adds is_exit (guarded w) [].
Proof.
  intros c. unfold guarded.
  rewrite filter_try_except by exact (adds_emit is_exit _).
  revert c. apply adds_seq_quiet; [apply start_no_exit | intros _].
  unfold print.
  repeat (apply adds_seq_quiet; [quiet_step | intros _]).
  quiet_step.
Qed.

(** [stop] releases the device context when the robot object exists and
    no call before the release raises. *)
Lemma stop_exit (w : world) (c : chat) :
  List.filter is_exit (trace (snd (stop w c))) =
    List.filter is_exit (trace c)
      ++ (if reachy c
             && (negb (session c) || is_ok (w_close w))
             && is_ok (w_stop_recording w)
             && is_ok (w_stop_playing w)
          then [EReachyExit] else []).
Proof.
  destruct c as [re se ru tr].
  unfold stop, seq, when, call, print, emit, set_running.
  cbn [reachy session running trace snd fst].
  destruct se, re;
    destruct (w_close w) as [[] | e1];
    destruct (w_stop_recording w) as [[] | e2];
    destruct (w_stop_playing w) as [[] | e3];
    destruct (w_reachy_exit w) as [[] | e4];
    cbn [reachy session running trace snd fst is_ok negb orb andb];
    rewrite ?List.filter_app; cbn [List.filter is_exit];
    rewrite ?app_nil_r; reflexivity.
Qed.

End RunFacts.

(** X14. The duty cycles are started exactly when every call of [start]
    returned, and the flag is written accordingly: a run that starts up
    sets [self.running] true once, right before the duty cycles, and false
    once, after them; a run whose [start] fails never sets it true and
    never starts a duty cycle, and still clears it once in [stop]. *)
Theorem duty_cycles_run_between_the_flag_writes (w : Chat.world) :
  List.filter is_mark (Chat.trace (snd (Chat.run w Chat.init))) =
    if is_ok (start_outcome w)
    then [ESetRunning true; EGather; ESetRunning false]
    else [ESetRunning false].
Proof.
  unfold Chat.run. rewrite snd_try_finally, (stop_marks w).
  rewrite filter_try_except by exact (adds_emit is_mark _).
  rewrite (adds_if_then is_mark _ _ [ESetRunning true] [EGather]
             Chat.init (start_marks w)
             (fun _ => banner_and_gather_marks w)).
  rewrite start_result.
  destruct (is_ok (start_outcome w)); reflexivity.
Qed.

(** X15. A failing close hides what ended the run.  When the session was
    opened and its close raises, [run] ends with the exception of the
    close, whatever the duty cycles ended with: their own exception, if
    any, is lost. *)
Theorem close_failure_replaces_the_cause (w : Chat.world) (e : exn) :
  start_outcome w = Ok tt ->
  Chat.w_close w = Raise e ->
  fst (Chat.run w Chat.init) = Raise e.
Proof.
  intros Hstart Hclose.
  rewrite run_guarded, fst_try_finally.
  rewrite (stop_raises_close w _ e); [reflexivity | | exact Hclose].
  destruct (guarded_handles w Chat.init) as [-> _].
  rewrite Hstart. reflexivity.
Qed.

Lemma close_failure_replaces_the_cause_witness :
  fst (Chat.run interrupted_close_fails Chat.init)
    = Raise (TransportError "connection lost").
Proof.
  apply (close_failure_replaces_the_cause interrupted_close_fails
           (TransportError "connection lost")); reflexivity.
Defined.

(** X16. With the key in place, a startup that fails ends the program
    with a non-zero exit status: when a call of [start] raises an
    exception (other than an interrupt), the program exits with status 1,
    whether or not the cleanup succeeds. *)
Theorem failed_startup_exits_nonzero
    (environ : gmap string string) (w : Chat.world) (e : exn) :
  Chat.truthy (Chat.getenv environ "GEMINI_API_KEY") = true ->
  start_outcome w = Raise e ->
  is_Exception e = true ->
  fst (Chat.program environ w) = 1.
Proof.
  intros Hkey Hstart Hexc.
  rewrite program_status, (main_with_key environ w Hkey), fst_seq.
  cbn [fst Chat.emit].
  rewrite run_guarded, fst_try_finally, guarded_result, Hstart.
  destruct (fst (Chat.stop w _)) as [u | e']; [| reflexivity].
  destruct e; try reflexivity. discriminate.
Qed.

Lemma failed_startup_exits_nonzero_witness :
  fst (Chat.program environ_with_key connect_refused) = 1.
Proof.
  apply (failed_startup_exits_nonzero environ_with_key connect_refused
           (OtherError "connection refused")); reflexivity.
Defined.



(** X18. Startup is given up exactly when the key is absent or empty: the
    trace of the program is the two-line report if and only if
    [os.getenv] gave no value or the empty string.  With any other value,
    the client is constructed first. *)
Theorem startup_is_aborted_iff_key_is_missing
    (environ : gmap string string) (w : Chat.world) :
  (snd (Chat.program environ w) = missing_key_report <->
   Chat.truthy (Chat.getenv environ "GEMINI_API_KEY") = false) /\
  (Chat.truthy (Chat.getenv environ "GEMINI_API_KEY") = true ->
   exists evs, snd (Chat.program environ w) = EClientInit :: evs).
Proof.
  assert (Hwith : Chat.truthy (Chat.getenv environ "GEMINI_API_KEY") = true ->
            exists evs, snd (Chat.program environ w) = EClientInit :: evs).
  { intros Hkey. unfold Chat.program.
    rewrite (main_with_key environ w Hkey). unfold Chat.seq.
    cbn [Chat.emit fst snd].
    destruct (extends_run w (snd (Chat.emit EClientInit Chat.init)))
      as [evs Hevs].
    destruct (Chat.run w _) as [r c]. cbn [snd] in *.
    exists evs. rewrite Hevs. reflexivity. }
  split; [| exact Hwith]. split.
  - intros Hreport.
    destruct (Chat.truthy (Chat.getenv environ "GEMINI_API_KEY")) eqn:Hkey;
      [| reflexivity].
    destruct (Hwith eq_refl) as [evs Hevs].
    rewrite Hevs in Hreport. discriminate.
  - intros Hkey. unfold Chat.program, Chat.main. rewrite Hkey. reflexivity.
Qed.

(** X19. The device context is released ([reachy.__exit__]) exactly once,
    and exactly when the robot object was created and no cleanup call
    before the release raised: the close of the session, if one was
    opened, the stop of the recording and the stop of the playback.  In
    every other run it is never released. *)
Theorem device_is_released_iff_cleanup_gets_there (w : Chat.world) :
  List.filter is_exit (Chat.trace (snd (Chat.run w Chat.init))) =
    if is_ok (Chat.w_reachy_init w)
       && (negb (is_ok (start_outcome w)) || is_ok (Chat.w_close w))
       && is_ok (Chat.w_stop_recording w)
       && is_ok (Chat.w_stop_playing w)
    then [EReachyExit] else [].
Proof.
  rewrite run_guarded, snd_try_finally, stop_exit.
  rewrite (guarded_no_exit w Chat.init).
  destruct (guarded_handles w Chat.init) as [-> ->].
  reflexivity.
Qed.

(** A device that refuses to stop recording is left acquired. *)
Example device_left_acquired :
  ~ In EReachyExit
      (Chat.trace (snd (Chat.run stop_recording_fails Chat.init))).
Proof. vm_compute. intros Hin. in_cases Hin. Qed.

(** ** Interrupts *)

(** X20. The handlers of the duty cycles catch [Exception] only, so an
    interrupt is not theirs: when a step of a pass raises
    [KeyboardInterrupt], the duty cycle ends there and the interrupt goes
    on to [run]; nothing is printed, no sleep is taken and no later pass is
    made.  This holds for audio-up, video-up and audio-down alike. *)
Theorem interrupt_ends_a_duty_cycle `{Resampler}
    (rate now : Z)
    (a_env : AudioUp.answers) (a_rest : list AudioUp.answers)
    (v_env : VideoUp.answers) (v_rest : list VideoUp.answers)
    (turn : list AudioDown.response)
    (turns : list (list AudioDown.response)) :
  (snd (AudioUp.audio_try rate a_env) = Raise KeyboardInterrupt ->
   AudioUp.audio_loop true rate (a_env :: a_rest) =
     (fst (AudioUp.audio_try rate a_env), true,
      Propagated KeyboardInterrupt)) /\
  (snd (VideoUp.video_try now v_env) = Raise KeyboardInterrupt ->
   VideoUp.video_loop true now (v_env :: v_rest) =
     (fst (fst (VideoUp.video_try now v_env)), true,
      Propagated KeyboardInterrupt)) /\
  (snd (AudioDown.play_turn rate turn) = Raise KeyboardInterrupt ->
   AudioDown.receive_loop true rate (turn :: turns) =
     (EReceive :: fst (AudioDown.play_turn rate turn), true,
      Propagated KeyboardInterrupt)).
Proof.
  repeat split.
  - intros Hraise. cbn [AudioUp.audio_loop]. unfold AudioUp.audio_iteration.
    destruct (AudioUp.audio_try rate a_env) as [evs r]. cbn [fst snd] in *.
    subst r. reflexivity.
  - intros Hraise. cbn [VideoUp.video_loop]. unfold VideoUp.video_iteration.
    destruct (VideoUp.video_try now v_env) as [[evs now'] r].
    cbn [fst snd] in *. subst r. reflexivity.
  - intros Hraise. cbn [AudioDown.receive_loop].
    unfold AudioDown.receive_iteration.
    destruct (AudioDown.play_turn rate turn) as [evs r]. cbn [fst snd] in *.
    subst r. reflexivity.
Qed.

Lemma interrupt_ends_a_duty_cycle_witness :
  @AudioUp.audio_loop hold_resampler true 16000
      ({| AudioUp.a_sample := Raise KeyboardInterrupt;
          AudioUp.a_send := Ok tt |} :: [pass_ok]) =
    ([EGetAudioSample], true, Propagated KeyboardInterrupt).
Proof.
  apply (proj1 (@interrupt_ends_a_duty_cycle hold_resampler 16000 0
                  {| AudioUp.a_sample := Raise KeyboardInterrupt;
                     AudioUp.a_send := Ok tt |} [pass_ok]
                  frame_ready [] [] [])).
  reflexivity.
Defined.

(** ** The quiz game *)

Section QuizSteps.
Import Quiz.
Variable w : world.

Lemma seq_ok {A B} (m : G A) (k : A -> G B) g a g1 :
  m g = (Ok a, g1) -> seq m k g = k a g1.
Proof. intros E. unfold seq. rewrite E. reflexivity. Qed.

Lemma seq_raise {A B} (m : G A) (k : A -> G B) g e g1 :
  m g = (Raise e, g1) -> seq m k g = (Raise e, g1).
Proof. intros E. unfold seq. rewrite E. reflexivity. Qed.

Lemma seq_print {B} msg (k : unit -> G B) g :
  seq (print msg) k g = k tt (log (QPrint msg) g).
Proof. reflexivity. Qed.

Lemma seq_seq_print {B C} msg (k1 : unit -> G B) (k2 : B -> G C) g :
  seq (seq (print msg) k1) k2 g = seq (k1 tt) k2 (log (QPrint msg) g).
Proof. reflexivity. Qed.

Lemma snd_seq_ret {A B} (m : G A) (b : B) g :
  snd (seq m (fun _ => ret b) g) = snd (m g).
Proof. unfold seq. destruct (m g) as [[a|e] g1]; reflexivity. Qed.

Lemma dialogue_log ev g :
  dialogue (log ev g) =
  dialogue g ++ (if is_dialogue ev then [ev] else []).
Proof. unfold dialogue. simpl. rewrite List.filter_app. reflexivity. Qed.

(** A move adds only a request and a pause to the trace, and touches
    none of the counters of the game. *)
Lemma reachy_move_adds a p d g :
  exists more,
    trace (snd (reachy_move w a p d g)) = trace g ++ more /\
    List.filter is_dialogue more = [] /\
    score (snd (reachy_move w a p d g)) = score g /\
    questions_asked (snd (reachy_move w a p d g)) = questions_asked g /\
    gens (snd (reachy_move w a p d g)) = gens g /\
    inputs (snd (reachy_move w a p d g)) = inputs g.
Proof.
  unfold reachy_move, try_pass, seq, post_move, sleep.
  destruct (post w (posts g)) as [[]|e]; simpl.
  - eexists. rewrite <- app_assoc. repeat split; reflexivity.
  - destruct (is_Exception e); simpl; eexists; repeat split; reflexivity.
Qed.

Lemma reachy_move_soft a p d g :
  moves_fail_softly w -> fst (reachy_move w a p d g) = Ok tt.
Proof.
  intros Hw. unfold reachy_move, try_pass, seq, post_move, sleep.
  destruct (post w (posts g)) as [[]|e] eqn:E; simpl; [reflexivity|].
  rewrite (Hw _ _ E). reflexivity.
Qed.

Lemma check_daemon_returns g : fst (check_daemon w g) = Ok tt.
Proof.
  unfold check_daemon. destruct (daemon_state w) as [[s|]|e]; try reflexivity.
  destruct (String.eqb s "running"); reflexivity.
Qed.

Lemma check_daemon_adds g :
  exists more,
    trace (snd (check_daemon w g)) = trace g ++ more /\
    ~ In (QPrint game_over_line) more /\ ~ In QClientInit more.
Proof.
  unfold check_daemon.
  destruct (daemon_state w) as [[s|]|e];
    [destruct (String.eqb s "running")| |]; simpl;
    eexists; (split; [try rewrite <- app_assoc; reflexivity|]);
    split; simpl; intros Hin;
    repeat (destruct Hin as [Hin|Hin]; [discriminate Hin|]); exact Hin.
Qed.

End QuizSteps.

Section QuizCounters.
Import Quiz.
Context `{Text}.
Variable w : world.

Lemma keeps_ret {A} (a : A) : keeps_counters (ret a).
Proof. intros g; split; reflexivity. Qed.

Lemma keeps_seq {A B} (m : G A) (k : A -> G B) :
  keeps_counters m -> (forall a, keeps_counters (k a)) ->
  keeps_counters (seq m k).
Proof.
  intros Hm Hk g. unfold seq. specialize (Hm g).
  destruct (m g) as [[a|e] g1]; simpl in *.
  - specialize (Hk a g1). intuition congruence.
  - assumption.
Qed.

Lemma keeps_print msg : keeps_counters (print msg).
Proof. intros g; split; reflexivity. Qed.

Lemma keeps_sleep s : keeps_counters (sleep s).
Proof. intros g; split; reflexivity. Qed.

Lemma keeps_read {A} (f : game -> A) : keeps_counters (read f).
Proof. intros g; split; reflexivity. Qed.

Lemma keeps_generate c : keeps_counters (generate_content w c).
Proof. intros g; split; reflexivity. Qed.

Lemma keeps_input p : keeps_counters (input w p).
Proof. intros g; split; reflexivity. Qed.

Lemma keeps_move a p d : keeps_counters (reachy_move w a p d).
Proof.
  intros g. destruct (reachy_move_adds w a p d g) as (more & _ & _ & E1 & E2 & _).
  split; assumption.
Qed.

Lemma keeps_check_daemon : keeps_counters (check_daemon w).
Proof.
  intros g. unfold check_daemon.
  destruct (daemon_state w) as [[s|]|e]; try (split; reflexivity).
  destruct (String.eqb s "running"); split; reflexivity.
Qed.

Ltac keeps_step :=
  cbv beta;
  lazymatch goal with
  | |- keeps_counters (seq _ _) => apply keeps_seq; [|intros ?]
  | |- keeps_counters (ret _) => apply keeps_ret
  | |- keeps_counters (print _) => apply keeps_print
  | |- keeps_counters (sleep _) => apply keeps_sleep
  | |- keeps_counters (read _) => apply keeps_read
  | |- keeps_counters (reachy_move _ _ _ _) => apply keeps_move
  | |- keeps_counters (generate_content _ _) => apply keeps_generate
  | |- keeps_counters (input _ _) => apply keeps_input
  | |- keeps_counters (match ?x with _ => _ end) => destruct x
  end.

Lemma keeps_excited : keeps_counters (reachy_excited w).
Proof. unfold reachy_excited. repeat keeps_step. Qed.

Lemma keeps_sad : keeps_counters (reachy_sad w).
Proof. unfold reachy_sad. repeat keeps_step. Qed.

Lemma keeps_generate_question : keeps_counters (generate_question w).
Proof.
  unfold generate_question, reachy_thinking, reachy_neutral.
  repeat keeps_step.
Qed.

Lemma keeps_check_answer u c q : keeps_counters (check_answer w u c q).
Proof. unfold check_answer. repeat keeps_step. Qed.

Lemma keeps_game_over : keeps_counters (game_over w).
Proof.
  unfold game_over, reachy_neutral.
  repeat first [apply keeps_excited | keeps_step].
Qed.

Ltac keeps_steps :=
  unfold reachy_thinking, reachy_neutral;
  repeat first [apply keeps_generate_question | apply keeps_check_answer
               | apply keeps_excited | apply keeps_sad
               | apply keeps_game_over | keeps_step].

(** The counters between two steps: what holds at every step holds at
    the end, however the method ends. *)
Lemma hoare_seq {A B} P Q R (m : G A) (k : A -> G B) :
  hoare P m Q -> (forall a, hoare Q (k a) R) -> (forall g, Q g -> R g) ->
  hoare P (seq m k) R.
Proof.
  intros Hm Hk HQR g HP. unfold seq. specialize (Hm g HP).
  destruct (m g) as [[a|e] g1]; simpl in *.
  - apply Hk, Hm.
  - apply HQR, Hm.
Qed.

Lemma hoare_try_except_interrupt {A} P Q R (body handler : G A) :
  hoare P body Q -> hoare Q handler R -> (forall g, Q g -> R g) ->
  hoare P (try_except_interrupt body handler) R.
Proof.
  intros Hb Hh HQR g HP. unfold try_except_interrupt. specialize (Hb g HP).
  destruct (body g) as [[a|e] g1]; simpl in *.
  - apply HQR, Hb.
  - destruct e; try (apply HQR, Hb). apply Hh, Hb.
Qed.

Lemma hoare_keeps {A} (m : G A) s q c :
  keeps_counters m -> hoare (score_within s q c) m (score_within s q c).
Proof.
  intros Hm g [H1 H2]. destruct (Hm g) as [E1 E2].
  unfold score_within. rewrite E1, E2. tauto.
Qed.

Lemma score_within_spend s q g :
  score_within s q 1 g -> score_within s q 0 g.
Proof. unfold score_within. lia. Qed.

Lemma hoare_count_question s q :
  hoare (score_within s q 0) count_question (score_within s q 1).
Proof. intros g [H1 H2]. unfold score_within; simpl. lia. Qed.

Lemma hoare_count_point s q :
  hoare (score_within s q 1) count_point (score_within s q 0).
Proof. intros g [H1 H2]. unfold score_within; simpl. lia. Qed.

Lemma hoare_spend {A} s q (m : G A) :
  hoare (score_within s q 1) m (score_within s q 1) ->
  hoare (score_within s q 1) m (score_within s q 0).
Proof. intros Hm g Hg. apply score_within_spend, Hm, Hg. Qed.

(** Before the question is counted. *)
Ltac before_count s q :=
  apply hoare_seq with (Q := score_within s q 0);
    [apply hoare_keeps; keeps_steps | intros ? | tauto].

(** Between the count of the question and the verdict on the answer. *)
Ltac after_count s q :=
  apply hoare_seq with (Q := score_within s q 1);
    [apply hoare_keeps; keeps_steps | intros ? | apply score_within_spend].

Lemma hoare_play_round s q :
  hoare (score_within s q 0) (play_round w) (score_within s q 0).
Proof.
  unfold play_round.
  do 3 before_count s q.
  apply hoare_seq with (Q := score_within s q 0);
    [apply hoare_keeps; keeps_steps | intros [[question answer] hint]
    | tauto].
  apply hoare_seq with (Q := score_within s q 1);
    [apply hoare_count_question | intros _ | apply score_within_spend].
  do 4 after_count s q.
  apply hoare_seq with (Q := score_within s q 1);
    [apply hoare_keeps; keeps_steps | intros typed_answer
    | apply score_within_spend].
  destruct (String.eqb (strip typed_answer) "").
  { apply hoare_spend, hoare_keeps. keeps_steps. }
  do 2 after_count s q.
  apply hoare_seq with (Q := score_within s q 1);
    [apply hoare_keeps; keeps_steps | intros [is_correct message]
    | apply score_within_spend].
  apply hoare_seq with (Q := score_within s q 0); [| intros _ | tauto].
  - destruct is_correct.
    + apply hoare_seq with (Q := score_within s q 0);
        [apply hoare_count_point | intros _ | tauto].
      apply hoare_keeps. keeps_steps.
    + apply hoare_spend, hoare_keeps. keeps_steps.
  - apply hoare_keeps. keeps_steps.
Qed.

Lemma hoare_rounds s q fuel :
  hoare (score_within s q 0) (rounds w fuel) (score_within s q 0).
Proof.
  induction fuel as [|fuel IH]; simpl.
  - apply hoare_keeps, keeps_ret.
  - apply hoare_seq with (Q := score_within s q 0);
      [apply hoare_play_round | intros [|] | tauto].
    + apply IH.
    + apply hoare_keeps, keeps_ret.
Qed.

Lemma hoare_run s q fuel :
  hoare (score_within s q 0) (run w fuel) (score_within s q 0).
Proof.
  unfold run.
  do 7 before_count s q.
  apply hoare_try_except_interrupt with (Q := score_within s q 0);
    [| |tauto].
  - apply hoare_seq with (Q := score_within s q 0);
      [apply hoare_rounds | intros [|] | tauto];
      apply hoare_keeps; keeps_steps.
  - apply hoare_keeps. keeps_steps.
Qed.

Lemma quiz_main_with_key environ fuel g :
  Chat.truthy (Chat.getenv environ "GEMINI_API_KEY") = true ->
  main w environ fuel g =
  run w fuel (snd (new_game (snd (check_daemon w g)))).
Proof.
  intros Hkey. unfold main. rewrite Hkey. change (negb true) with false. cbv iota.
  unfold seq at 1. pose proof (check_daemon_returns w g) as E.
  destruct (check_daemon w g) as [[[]|e] g1]; simpl in E; [|discriminate].
  reflexivity.
Qed.

Lemma quiz_main_without_key environ fuel g :
  Chat.truthy (Chat.getenv environ "GEMINI_API_KEY") = false ->
  main w environ fuel g =
  (Ok true, log (QPrint "Error: GEMINI_API_KEY not set in .env file") g).
Proof. intros Hkey. unfold main. rewrite Hkey. reflexivity. Qed.

(** X21.  Whatever the model, the player and the robot do, and however
    [main] ends, the score it leaves is between zero and the number of
    questions asked. *)
Theorem score_never_exceeds_the_questions (environ : gmap string string)
    (fuel : nat) :
  let g' := snd (main w environ fuel init) in
  0 <= score g' <= questions_asked g'.
Proof.
  assert (Hgoal : score_within 0 0 0 (snd (main w environ fuel init))).
  { destruct (Chat.truthy (Chat.getenv environ "GEMINI_API_KEY")) eqn:Hkey.
    - rewrite (quiz_main_with_key _ _ _ Hkey).
      apply hoare_run. unfold score_within; simpl; lia.
    - rewrite (quiz_main_without_key _ _ _ Hkey).
      unfold score_within; simpl; lia. }
  destruct Hgoal as [H1 H2]. simpl. lia.
Qed.

(** A round that returns has counted its question. *)
Lemma hoare_ok_seq {A B} P Q R (m : G A) (k : A -> G B) :
  hoare_ok P m Q -> (forall a, hoare_ok Q (k a) R) ->
  hoare_ok P (seq m k) R.
Proof.
  intros Hm Hk g HP. unfold seq. specialize (Hm g HP).
  destruct (m g) as [[a|e] g1]; simpl in *; [|exact I].
  apply Hk, Hm.
Qed.

Lemma hoare_ok_keeps {A} (m : G A) n :
  keeps_counters m ->
  hoare_ok (fun g => questions_asked g = n) m
           (fun g => questions_asked g = n).
Proof.
  intros Hm g Hg. destruct (Hm g) as [_ E].
  destruct (fst (m g)); [congruence | exact I].
Qed.

Lemma hoare_ok_count_point n :
  hoare_ok (fun g => questions_asked g = n) count_point
           (fun g => questions_asked g = n).
Proof. intros g Hg. exact Hg. Qed.

Lemma hoare_ok_count_question n :
  hoare_ok (fun g => questions_asked g = n) count_question
           (fun g => questions_asked g = n + 1).
Proof. intros g Hg. simpl. lia. Qed.

Ltac asked_step n :=
  cbv beta;
  lazymatch goal with
  | |- hoare_ok _ (seq _ _) _ =>
      apply hoare_ok_seq with (Q := fun g => questions_asked g = n);
      [|intros ?]
  | |- hoare_ok _ count_point _ => apply hoare_ok_count_point
  | |- hoare_ok _ (match ?x with _ => _ end) _ => destruct x
  | |- hoare_ok _ _ _ => apply hoare_ok_keeps; keeps_steps
  end.

Lemma play_round_counts n :
  hoare_ok (fun g => questions_asked g = n) (play_round w)
           (fun g => questions_asked g = n + 1).
Proof.
  unfold play_round.
  do 3 (apply hoare_ok_seq with (Q := fun g => questions_asked g = n);
        [asked_step n | intros _]).
  apply hoare_ok_seq with (Q := fun g => questions_asked g = n);
    [asked_step n | intros [[question answer] hint]].
  apply hoare_ok_seq with (Q := fun g => questions_asked g = n + 1);
    [apply hoare_ok_count_question | intros _].
  repeat asked_step (n + 1).
Qed.

Lemma rounds_count fuel : forall g g' ended,
  0 <= questions_asked g ->
  rounds w fuel g = (Ok ended, g') ->
  ended = true ->
  0 < questions_asked g'.
Proof.
  induction fuel as [|fuel IH]; simpl; intros g g' ended Hg E Hended.
  - injection E as <- <-. discriminate.
  - unfold seq in E.
    pose proof (play_round_counts (questions_asked g) g eq_refl) as Hround.
    destruct (play_round w g) as [[playing|e] g1]; simpl in Hround;
      [|discriminate].
    destruct playing.
    + apply (IH g1 g' ended); [lia | exact E | exact Hended].
    + injection E as <- <-. lia.
Qed.

End QuizCounters.

(** An empty answer. *)
Section QuizAnswers.
Import Quiz.
Context `{Text}.
Variable w : world.
Hypothesis soft : moves_fail_softly w.

Lemma reachy_move_returns a p d g :
  exists g1, reachy_move w a p d g = (Ok tt, g1) /\
    score g1 = score g /\ questions_asked g1 = questions_asked g /\
    gens g1 = gens g /\ inputs g1 = inputs g.
Proof.
  pose proof (reachy_move_soft w a p d g soft) as R.
  destruct (reachy_move_adds w a p d g) as (more & _ & _ & A1 & B1 & C1 & D1).
  destruct (reachy_move w a p d g) as [r g1]; simpl in *. subst r.
  exists g1. tauto.
Qed.

Lemma generate_question_returns g text :
  generated w (gens g) = Ok text ->
  exists fields g1, generate_question w g = (Ok fields, g1) /\
    score g1 = score g /\ questions_asked g1 = questions_asked g /\
    gens g1 = S (gens g) /\ inputs g1 = inputs g.
Proof.
  intros E. unfold generate_question, reachy_thinking, reachy_neutral.
  destruct (reachy_move_returns (3 # 10, - (3 # 10))%Q (2 # 10) (3 # 10) g)
    as (g1 & E1 & A1 & B1 & C1 & D1).
  rewrite (seq_ok _ _ _ _ _ E1).
  assert (E2 : generate_content w (question_prompt) g1 =
               (Ok text, snd (generate_content w question_prompt g1))).
  { unfold generate_content; simpl. rewrite C1, E. reflexivity. }
  rewrite (seq_ok _ _ _ _ _ E2). cbv beta.
  set (g2 := snd (generate_content w question_prompt g1)).
  destruct (reachy_move_returns (0, 0)%Q 0 (3 # 10) g2)
    as (g3 & E3 & A3 & B3 & C3 & D3).
  rewrite (seq_ok _ _ _ _ _ E3). unfold ret.
  eexists _, g3. split; [reflexivity|].
  subst g2. simpl in *. repeat split; congruence.
Qed.

(** X22.  In a round whose question is generated, an answer that is
    empty once stripped ends the round at once: the question is counted,
    the score is left alone, no verdict is asked of the model, the
    player is not asked whether to go on, and the game goes on. *)
Theorem unanswered_question_is_counted (g : game)
    (text typed_answer : string) :
  generated w (gens g) = Ok text ->
  typed w (inputs g) = Ok typed_answer ->
  strip typed_answer = EmptyString ->
  let g' := snd (play_round w g) in
  fst (play_round w g) = Ok true /\
  score g' = score g /\
  questions_asked g' = questions_asked g + 1 /\
  gens g' = S (gens g) /\
  inputs g' = S (inputs g) /\
  last (trace g') = Some (QPrint "No answer provided!").
Proof.
  intros Egen Etyped Estrip. cbv zeta.
  destruct (play_round w g) as [r g'] eqn:E. cbn [fst snd].
  revert E. unfold play_round.
  rewrite !seq_print.
  set (g0 := log _ (log _ (log _ g))).
  destruct (generate_question_returns g0 text Egen)
    as ([[question answer] hint] & g1 & E1 & A1 & B1 & C1 & D1).
  rewrite (seq_ok _ _ _ _ _ E1). cbv beta iota.
  unfold seq at 1, count_question at 1.
  unfold seq at 1, read at 1.
  rewrite !seq_print.
  match goal with
  | |- context [seq (input w ?p) ?k ?s] =>
      assert (E2 : input w p s = (Ok typed_answer, snd (input w p s)))
  end.
  { unfold input; simpl. rewrite D1. subst g0; simpl. rewrite Etyped.
    reflexivity. }
  rewrite (seq_ok _ _ _ _ _ E2). cbv beta zeta.
  rewrite Estrip, String.eqb_refl.
  rewrite seq_print. unfold ret. intros E. injection E as <- <-.
  split; [reflexivity|].
  subst g0; simpl in *.
  repeat split; try congruence; try lia.
  apply last_snoc.
Qed.

End QuizAnswers.

Lemma unanswered_question_is_counted_witness :
  let g' := snd (@Quiz.play_round ascii_text silent_player Quiz.init) in
  fst (@Quiz.play_round ascii_text silent_player Quiz.init) = Ok true /\
  Quiz.score g' = Quiz.score Quiz.init /\
  Quiz.questions_asked g' = Quiz.questions_asked Quiz.init + 1 /\
  Quiz.gens g' = S (Quiz.gens Quiz.init) /\
  Quiz.inputs g' = S (Quiz.inputs Quiz.init) /\
  last (Quiz.trace g') = Some (Quiz.QPrint "No answer provided!").
Proof.
  apply (@unanswered_question_is_counted ascii_text silent_player)
    with (text := spider_question) (typed_answer := "  "%string).
  - intros i e E. discriminate E.
  - reflexivity.
  - reflexivity.
  - reflexivity.
Defined.

(** Where an interrupt can leave the game. *)
Section QuizInterrupts.
Import Quiz.
Context `{Text}.
Variable w : world.







End QuizInterrupts.


(** What every step of the game preserves, the game preserves; the line
    that announces the end of the game is set apart. *)
Section QuizInvariants.
Import Quiz.
Context `{Text}.
Variable w : world.
Variable J : option exn -> game -> Prop.
Hypothesis J_print :
  forall msg, msg <> game_over_line -> preserves J (print msg).
Hypothesis J_over : preserves J (print game_over_line).
Hypothesis J_sleep : forall s, preserves J (sleep s).
Hypothesis J_move : forall a p d, preserves J (reachy_move w a p d).
Hypothesis J_generate : forall c, preserves J (generate_content w c).
Hypothesis J_input : forall p, preserves J (input w p).
Hypothesis J_count_question : preserves J count_question.
Hypothesis J_count_point : preserves J count_point.
Hypothesis J_interrupt : forall g, J (Some KeyboardInterrupt) g -> J None g.

Lemma preserves_ret {A} (a : A) : preserves J (ret a).
Proof. intros g Hg. exact Hg. Qed.

Lemma preserves_read {A} (f : game -> A) : preserves J (read f).
Proof. intros g Hg. exact Hg. Qed.

Lemma preserves_seq {A B} (m : G A) (k : A -> G B) :
  preserves J m -> (forall a, preserves J (k a)) -> preserves J (seq m k).
Proof.
  intros Hm Hk g Hg. unfold seq. specialize (Hm g Hg).
  destruct (m g) as [[a|e] g1]; simpl in *.
  - apply Hk, Hm.
  - exact Hm.
Qed.

Lemma preserves_try_except_interrupt {A} (body handler : G A) :
  preserves J body -> preserves J handler ->
  preserves J (try_except_interrupt body handler).
Proof.
  intros Hb Hh g Hg. unfold try_except_interrupt. specialize (Hb g Hg).
  destruct (body g) as [[a|e] g1]; simpl in *; [exact Hb|].
  destruct e; try exact Hb. apply Hh, J_interrupt, Hb.
Qed.

Ltac other_line :=
  let E := fresh "E" in
  intros E; unfold game_over_line, nl, rule in E; cbn [String.append] in E;
  discriminate E.

Ltac preserves_step :=
  cbv beta;
  lazymatch goal with
  | |- preserves _ (seq _ _) => apply preserves_seq; [|intros ?]
  | |- preserves _ (ret _) => apply preserves_ret
  | |- preserves _ (read _) => apply preserves_read
  | |- preserves _ (print _) =>
      first [apply J_over | apply J_print; other_line]
  | |- preserves _ (sleep _) => apply J_sleep
  | |- preserves _ (reachy_move _ _ _ _) => apply J_move
  | |- preserves _ (generate_content _ _) => apply J_generate
  | |- preserves _ (input _ _) => apply J_input
  | |- preserves _ count_question => apply J_count_question
  | |- preserves _ count_point => apply J_count_point
  | |- preserves _ (try_except_interrupt _ _) =>
      apply preserves_try_except_interrupt
  | |- preserves _ (match ?x with _ => _ end) => destruct x
  end.

Lemma preserves_excited : preserves J (reachy_excited w).
Proof. unfold reachy_excited. repeat preserves_step. Qed.

Lemma preserves_sad : preserves J (reachy_sad w).
Proof. unfold reachy_sad. repeat preserves_step. Qed.

Lemma preserves_generate_question : preserves J (generate_question w).
Proof.
  unfold generate_question, reachy_thinking, reachy_neutral.
  repeat preserves_step.
Qed.

Lemma preserves_check_answer u c q : preserves J (check_answer w u c q).
Proof. unfold check_answer. repeat preserves_step. Qed.

Lemma preserves_play_round : preserves J (play_round w).
Proof.
  unfold play_round, reachy_thinking.
  repeat first [apply preserves_generate_question
               | apply preserves_check_answer
               | apply preserves_excited | apply preserves_sad
               | preserves_step].
Qed.

Lemma preserves_rounds fuel : preserves J (rounds w fuel).
Proof.
  induction fuel as [|fuel IH]; simpl.
  - apply preserves_ret.
  - apply preserves_seq; [apply preserves_play_round | intros [|]];
      [apply IH | apply preserves_ret].
Qed.

Lemma preserves_welcome {A} (rest : G A) :
  preserves J rest ->
  preserves J
    (print (nl ++ rule) ;;;
     print "🎓 Welcome to Reachy's Quiz Game! 🎓" ;;;
     print rule ;;;
     print (nl ++ "Hi! I'm Reachy, your robot quiz master!") ;;;
     print "I'll ask you questions perfect for 3rd graders." ;;;
     print ("Let's see how many you can get right!" ++ nl) ;;;
     reachy_excited w ;;;
     rest).
Proof.
  intros Hrest.
  repeat first [apply preserves_excited | exact Hrest | preserves_step].
Qed.

Lemma preserves_handler :
  preserves J
    (print (nl ++ nl ++ "Game ended early. Thanks for playing!") ;;;
     reachy_neutral w ;;;
     ret true).
Proof. unfold reachy_neutral. repeat preserves_step. Qed.

Lemma preserves_game_over : preserves J (game_over w).
Proof.
  unfold game_over, reachy_neutral.
  repeat first [apply preserves_excited | preserves_step].
Qed.

Lemma preserves_run fuel : preserves J (run w fuel).
Proof.
  unfold run. apply preserves_welcome.
  apply preserves_try_except_interrupt; [|apply preserves_handler].
  repeat first [apply preserves_rounds | apply preserves_game_over
               | preserves_step].
Qed.

End QuizInvariants.

Section QuizRuns.
Import Quiz.
Context `{Text}.
Variable w : world.

Lemma started_run fuel :
  preserves (fun _ g => In QClientInit (trace g)) (run w fuel).
Proof.
  apply preserves_run; intros;
    try (intros g Hg; simpl; apply in_or_app; left; exact Hg);
    try (intros g Hg; exact Hg); try assumption.
  intros g Hg. destruct (reachy_move_adds w a p d g) as (more & -> & _).
  apply in_or_app; left; exact Hg.
Qed.

(** X24.  The game is started exactly when the key is set: without it
    [main] makes no request at all, and with it the game is started
    whatever the status request of the daemon returns or raises, an
    interrupt included. *)
Theorem quiz_starts_iff_key_is_set (environ : gmap string string)
    (fuel : nat) :
  In QClientInit (trace (snd (main w environ fuel init))) <->
  Chat.truthy (Chat.getenv environ "GEMINI_API_KEY") = true.
Proof.
  destruct (Chat.truthy (Chat.getenv environ "GEMINI_API_KEY")) eqn:Hkey.
  - split; [reflexivity | intros _].
    rewrite (quiz_main_with_key _ _ _ _ Hkey).
    apply (started_run fuel). simpl. apply in_or_app; right; left; reflexivity.
  - rewrite (quiz_main_without_key _ _ _ _ Hkey).
    split; [|discriminate]. intros [E|[]]. discriminate E.
Qed.

(** X25.  A request to the model that is made and fails ends [run] with
    that failure: no round follows and no final score is given. *)
Theorem failed_model_request_ends_the_game (fuel : nat) (g : game)
    (e : exn) (i : nat) :
  e <> KeyboardInterrupt ->
  generated w i = Raise e ->
  (gens g <= i < gens (snd (run w fuel g)))%nat ->
  fst (run w fuel g) = Raise e.
Proof.
  intros He Hi Hrange.
  pose (J := fun (o : option exn) (g' : game) =>
               forall j, (gens g <= j < gens g')%nat ->
                         generated w j = Raise e -> o = Some e).
  assert (HJ : preserves J (run w fuel)).
  { apply preserves_run; unfold J.
    - intros msg _ g' Hg j Hj. exact (Hg j Hj).
    - intros g' Hg j Hj. exact (Hg j Hj).
    - intros s g' Hg j Hj. exact (Hg j Hj).
    - intros a p d g' Hg j Hj Ej.
      destruct (reachy_move_adds w a p d g') as (more & _ & _ & _ & _ & E & _).
      rewrite E in Hj. discriminate (Hg j Hj Ej).
    - intros c g' Hg j Hj Ej. simpl in *.
      destruct (Nat.eq_dec j (gens g')) as [->|Hne].
      + rewrite Ej. reflexivity.
      + assert (Hj' : (gens g <= j < gens g')%nat) by lia.
        discriminate (Hg j Hj' Ej).
    - intros p g' Hg j Hj Ej. simpl in *. discriminate (Hg j Hj Ej).
    - intros g' Hg j Hj. exact (Hg j Hj).
    - intros g' Hg j Hj. exact (Hg j Hj).
    - intros g' Hg j Hj Ej. specialize (Hg j Hj Ej). congruence. }
  assert (H0 : J None g) by (intros j Hj; lia).
  specialize (HJ g H0 i Hrange Hi).
  destruct (fst (run w fuel g)); simpl in HJ; congruence.
Qed.

End QuizRuns.

Lemma failed_model_request_ends_the_game_witness :
  fst (@Quiz.run ascii_text model_down 1 Quiz.init) =
  Raise (TransportError "503 unavailable").
Proof.
  apply (@failed_model_request_ends_the_game ascii_text model_down 1
           Quiz.init (TransportError "503 unavailable") 0%nat).
  - discriminate.
  - reflexivity.
  - vm_compute. lia.
Defined.

(** The end of the game. *)
Section QuizVerdict.
Import Quiz.
Context `{Text}.
Variable w : world.

Lemma quiet_log ev g :
  ev <> QPrint game_over_line -> quiet g -> quiet (log ev g).
Proof.
  intros Hev Hg Hin. simpl in Hin. apply in_app_or in Hin.
  destruct Hin as [Hin|[Hin|[]]]; [exact (Hg Hin) | exact (Hev Hin)].
Qed.

Lemma quiet_more g more :
  List.filter is_dialogue more = [] -> quiet g ->
  ~ In (QPrint game_over_line) (trace g ++ more).
Proof.
  intros Hmore Hg Hin. apply in_app_or in Hin.
  destruct Hin as [Hin|Hin]; [exact (Hg Hin)|].
  assert (Hf : In (QPrint game_over_line) (List.filter is_dialogue more))
    by (apply List.filter_In; split; [exact Hin | reflexivity]).
  rewrite Hmore in Hf. exact Hf.
Qed.

Lemma quiet_move a p d :
  preserves (fun _ g => quiet g) (reachy_move w a p d).
Proof.
  intros g Hg. destruct (reachy_move_adds w a p d g) as (more & E & Hmore & _).
  unfold quiet. rewrite E. apply quiet_more; assumption.
Qed.

Lemma quiet_print msg :
  msg <> game_over_line -> preserves (fun _ g => quiet g) (print msg).
Proof.
  intros Hmsg g Hg. apply quiet_log; [|exact Hg]. congruence.
Qed.

Lemma quiet_rounds fuel : preserves (fun _ g => quiet g) (rounds w fuel).
Proof.
  apply preserves_rounds; intros;
    try (apply quiet_print; assumption);
    try (apply quiet_move);
    try (intros g Hg; apply quiet_log; [discriminate | exact Hg]);
    try (intros g Hg; exact Hg).
Qed.

Lemma judged_log ev g : judged g -> judged (log ev g).
Proof.
  intros (Hq & verdict & Hv & Hin). split; [exact Hq|].
  exists verdict. split; [exact Hv|]. simpl. apply in_or_app; left; exact Hin.
Qed.

Lemma judged_move a p d :
  preserves (fun _ g => judged g) (reachy_move w a p d).
Proof.
  intros g (Hq & verdict & Hv & Hin).
  destruct (reachy_move_adds w a p d g) as (more & E & _ & _ & Eq & _).
  split; [rewrite Eq; exact Hq|].
  exists verdict. split; [exact Hv|]. rewrite E.
  apply in_or_app; left; exact Hin.
Qed.

Lemma judged_print msg : preserves (fun _ g => judged g) (print msg).
Proof. intros g Hg. apply judged_log, Hg. Qed.

(** With a question asked, the end of the game gives a verdict. *)
Lemma judged_after {A} verdict (move : G A) g :
  In verdict verdicts ->
  0 < questions_asked g ->
  preserves (fun _ g => judged g) move ->
  judged
    (snd (seq (seq (print verdict) (fun _ => move))
              (fun _ =>
                 print (nl ++ "Thanks for playing with Reachy! Goodbye! 👋"
                           ++ nl)) g)).
Proof.
  intros Hv Hq Hmove. rewrite seq_seq_print.
  refine (preserves_seq _ _ _ Hmove (fun _ => judged_print _) _ _).
  split; [exact Hq|]. exists verdict. split; [exact Hv|].
  simpl. apply in_or_app; right; left; reflexivity.
Qed.

Lemma game_over_judged g :
  0 < questions_asked g -> judged (snd (game_over w g)).
Proof.
  intros Hq. unfold game_over. rewrite !seq_print.
  unfold seq at 1, read at 1. cbv beta iota. rewrite seq_print.
  cbn [questions_asked score log].
  destruct (Z.ltb_spec 0 (questions_asked g)) as [_|Hle]; [|lia].
  set (g4 := log _ (log _ (log _ (log _ g)))).
  assert (Hq4 : 0 < questions_asked g4) by exact Hq.
  destruct (Qle_bool 80 _); [|destruct (Qle_bool 60 _)];
    apply judged_after; try exact Hq4;
    try (apply preserves_excited; apply judged_move);
    try (apply judged_move);
    simpl; tauto.
Qed.

(** After the rounds and what follows them inside the [try], either the
    end of the game has not been announced or a verdict has been given. *)
Lemma rounds_then_game_over fuel :
  hoare (fun g => quiet g /\ 0 <= questions_asked g)
    (ended <- rounds w fuel ;;
     if ended : bool then game_over w ;;; ret true else ret false)
    (fun g => quiet g \/ judged g).
Proof.
  intros g [Hquiet Hq].
  pose proof (quiet_rounds fuel g Hquiet) as Hquiet'.
  destruct (rounds w fuel g) as [[ended|e] g2] eqn:E; simpl in Hquiet'.
  - rewrite (seq_ok _ _ _ _ _ E). destruct ended.
    + right. rewrite snd_seq_ret. apply game_over_judged.
      apply (rounds_count w fuel g g2 true Hq E eq_refl).
    + left. exact Hquiet'.
  - rewrite (seq_raise _ _ _ _ _ E). left. exact Hquiet'.
Qed.

Lemma quiet_or_judged_run fuel :
  hoare (fun g => quiet g /\ 0 <= questions_asked g) (run w fuel)
        (fun g => quiet g \/ judged g).
Proof.
  unfold run.
  do 7 (apply hoare_seq
          with (Q := fun g => quiet g /\ 0 <= questions_asked g);
        [ intros g [Hquiet Hq]; split;
          [ first [ apply quiet_log; [discriminate | exact Hquiet]
                  | apply (preserves_excited w _ quiet_move g Hquiet) ]
          | first [ exact Hq
                  | destruct (keeps_excited w g) as [_ ->]; exact Hq ] ]
        | intros _ | tauto ]).
  apply hoare_try_except_interrupt with (Q := fun g => quiet g \/ judged g);
    [apply rounds_then_game_over | | tauto].
  intros g [Hquiet|Hjudged].
  - left. apply (preserves_handler w (fun _ g => quiet g)); try exact Hquiet.
    + apply quiet_print.
    + apply quiet_move.
  - right. apply (preserves_handler w (fun _ g => judged g)); try exact Hjudged.
    + intros msg _. apply judged_print.
    + apply judged_move.
Qed.

(** X26.  When [main] announces the end of the game, at least one
    question has been asked and one of the three verdicts is given: the
    test [questions_asked > 0] before the percentage never fails, and the
    quotient is never taken of zero. *)
Theorem game_over_comes_with_a_verdict (environ : gmap string string)
    (fuel : nat) :
  let g' := snd (main w environ fuel init) in
  In (QPrint game_over_line) (trace g') ->
  0 < questions_asked g' /\
  exists verdict,
    In verdict verdicts /\ In (QPrint verdict) (trace g').
Proof.
  cbv zeta.
  destruct (Chat.truthy (Chat.getenv environ "GEMINI_API_KEY")) eqn:Hkey.
  - rewrite (quiz_main_with_key _ _ _ _ Hkey). intros Hin.
    destruct (quiet_or_judged_run fuel
                (snd (new_game (snd (check_daemon w init)))))
      as [Hquiet|Hjudged].
    + split; [|simpl; lia].
      destruct (check_daemon_adds w init) as (more & E & Hmore & _).
      intros Hbad. simpl in Hbad. rewrite E in Hbad. simpl in Hbad.
      apply in_app_or in Hbad.
      destruct Hbad as [Hbad|[Hbad|[]]]; [exact (Hmore Hbad) | discriminate].
    + contradiction (Hquiet Hin).
    + exact Hjudged.
  - rewrite (quiz_main_without_key _ _ _ _ Hkey). simpl.
    intros [E|[]]. discriminate E.
Qed.

End QuizVerdict.

Lemma game_over_comes_with_a_verdict_witness :
  0 < Quiz.questions_asked
        (snd (@Quiz.main ascii_text one_good_round environ_with_key 1
                Quiz.init)) /\
  exists verdict,
    In verdict verdicts /\
    In (Quiz.QPrint verdict)
       (Quiz.trace
          (snd (@Quiz.main ascii_text one_good_round environ_with_key 1
                  Quiz.init))).
Proof.
  apply (@game_over_comes_with_a_verdict ascii_text one_good_round
           environ_with_key 1).
  vm_compute. repeat first [left; reflexivity | right].
Defined.

(** The robot's part in the game. *)
Section TwoWorlds.
Import Quiz.
Context `{Text}.
Variables w1 w2 : world.
Hypothesis soft1 : moves_fail_softly w1.
Hypothesis soft2 : moves_fail_softly w2.
Hypothesis answers : same_answers w1 w2.

Lemma agree_ret {A} (a : A) : agree (ret a) (ret a).
Proof. intros g1 g2 Hg. split; [reflexivity | exact Hg]. Qed.

Lemma agree_seq {A B} (m1 m2 : G A) (k1 k2 : A -> G B) :
  agree m1 m2 -> (forall a, agree (k1 a) (k2 a)) ->
  agree (seq m1 k1) (seq m2 k2).
Proof.
  intros Hm Hk g1 g2 Hg. unfold seq. destruct (Hm g1 g2 Hg) as [E Hg'].
  destruct (m1 g1) as [[a1|e1] h1], (m2 g2) as [[a2|e2] h2];
    simpl in *; try discriminate.
  - injection E as ->. apply Hk, Hg'.
  - injection E as ->. split; [reflexivity | exact Hg'].
Qed.

Lemma agree_print msg : agree (print msg) (print msg).
Proof.
  intros g1 g2 (E1 & E2 & E3 & E4 & E5). split; [reflexivity|].
  unfold alike, print; simpl. rewrite !dialogue_log, E5. tauto.
Qed.

Lemma agree_sleep s : agree (sleep s) (sleep s).
Proof.
  intros g1 g2 (E1 & E2 & E3 & E4 & E5). split; [reflexivity|].
  unfold alike, sleep; simpl. rewrite !dialogue_log, E5. tauto.
Qed.

Lemma agree_count_question : agree count_question count_question.
Proof.
  intros g1 g2 (E1 & E2 & E3 & E4 & E5). split; [reflexivity|].
  unfold alike; simpl. rewrite E2. tauto.
Qed.

Lemma agree_count_point : agree count_point count_point.
Proof.
  intros g1 g2 (E1 & E2 & E3 & E4 & E5). split; [reflexivity|].
  unfold alike; simpl. rewrite E1. tauto.
Qed.

Lemma agree_read_asked : agree (read questions_asked) (read questions_asked).
Proof.
  intros g1 g2 Hg. split; [|exact Hg].
  destruct Hg as (E1 & E2 & _). simpl. rewrite E2. reflexivity.
Qed.

Lemma agree_read_counters :
  agree (read (fun g => (score g, questions_asked g)))
        (read (fun g => (score g, questions_asked g))).
Proof.
  intros g1 g2 Hg. split; [|exact Hg].
  destruct Hg as (E1 & E2 & _). simpl. rewrite E1, E2. reflexivity.
Qed.

Lemma agree_move a p d : agree (reachy_move w1 a p d) (reachy_move w2 a p d).
Proof.
  intros g1 g2 (E1 & E2 & E3 & E4 & E5).
  pose proof (reachy_move_soft w1 a p d g1 soft1) as R1.
  pose proof (reachy_move_soft w2 a p d g2 soft2) as R2.
  destruct (reachy_move_adds w1 a p d g1)
    as (more1 & T1 & F1 & A1 & B1 & C1 & D1).
  destruct (reachy_move_adds w2 a p d g2)
    as (more2 & T2 & F2 & A2 & B2 & C2 & D2).
  unfold alike, dialogue.
  rewrite R1, R2, A1, A2, B1, B2, C1, C2, D1, D2, T1, T2.
  rewrite !List.filter_app, F1, F2, !app_nil_r.
  fold (dialogue g1). fold (dialogue g2). tauto.
Qed.

Lemma agree_generate c : agree (generate_content w1 c) (generate_content w2 c).
Proof.
  intros g1 g2 (E1 & E2 & E3 & E4 & E5). unfold generate_content; simpl.
  split.
  - rewrite E3. apply answers.
  - unfold alike, dialogue; simpl. rewrite !List.filter_app; simpl.
    fold (dialogue g1). fold (dialogue g2). rewrite E3, E5. tauto.
Qed.

Lemma agree_input p : agree (input w1 p) (input w2 p).
Proof.
  intros g1 g2 (E1 & E2 & E3 & E4 & E5). unfold input; simpl.
  split.
  - rewrite E4. apply answers.
  - unfold alike, dialogue; simpl. rewrite !List.filter_app; simpl.
    fold (dialogue g1). fold (dialogue g2). rewrite E4, E5. tauto.
Qed.

Lemma agree_try_except_interrupt {A} (b1 b2 h1 h2 : G A) :
  agree b1 b2 -> agree h1 h2 ->
  agree (try_except_interrupt b1 h1) (try_except_interrupt b2 h2).
Proof.
  intros Hb Hh g1 g2 Hg. unfold try_except_interrupt.
  destruct (Hb g1 g2 Hg) as [E Hg'].
  destruct (b1 g1) as [[a1|e1] k1], (b2 g2) as [[a2|e2] k2];
    simpl in *; try discriminate.
  - split; assumption.
  - injection E as ->. destruct e2; try (split; [reflexivity | exact Hg']).
    apply Hh, Hg'.
Qed.

Ltac agree_step :=
  cbv beta;
  lazymatch goal with
  | |- agree (seq _ _) (seq _ _) => apply agree_seq; [|intros ?]
  | |- agree (ret _) _ => apply agree_ret
  | |- agree (read questions_asked) _ => apply agree_read_asked
  | |- agree (read _) _ => apply agree_read_counters
  | |- agree (print _) _ => apply agree_print
  | |- agree (sleep _) _ => apply agree_sleep
  | |- agree (reachy_move _ _ _ _) _ => apply agree_move
  | |- agree (generate_content _ _) _ => apply agree_generate
  | |- agree (input _ _) _ => apply agree_input
  | |- agree count_question _ => apply agree_count_question
  | |- agree count_point _ => apply agree_count_point
  | |- agree (try_except_interrupt _ _) _ => apply agree_try_except_interrupt
  | |- agree (match ?x with _ => _ end) _ => destruct x
  end.

Lemma agree_excited : agree (reachy_excited w1) (reachy_excited w2).
Proof. unfold reachy_excited. repeat agree_step. Qed.

Lemma agree_sad : agree (reachy_sad w1) (reachy_sad w2).
Proof. unfold reachy_sad. repeat agree_step. Qed.

Lemma agree_generate_question :
  agree (generate_question w1) (generate_question w2).
Proof.
  unfold generate_question, reachy_thinking, reachy_neutral.
  repeat agree_step.
Qed.

Lemma agree_check_answer u c q :
  agree (check_answer w1 u c q) (check_answer w2 u c q).
Proof. unfold check_answer. repeat agree_step. Qed.

Lemma agree_play_round : agree (play_round w1) (play_round w2).
Proof.
  unfold play_round, reachy_thinking.
  repeat first [apply agree_generate_question | apply agree_check_answer
               | apply agree_excited | apply agree_sad | agree_step].
Qed.

Lemma agree_rounds fuel : agree (rounds w1 fuel) (rounds w2 fuel).
Proof.
  induction fuel as [|fuel IH]; simpl.
  - apply agree_ret.
  - apply agree_seq; [apply agree_play_round | intros [|]];
      [apply IH | apply agree_ret].
Qed.

Lemma agree_game_over : agree (game_over w1) (game_over w2).
Proof.
  unfold game_over, reachy_neutral.
  repeat first [apply agree_excited | agree_step].
Qed.

Lemma agree_run fuel : agree (run w1 fuel) (run w2 fuel).
Proof.
  unfold run, reachy_neutral.
  repeat first [apply agree_excited | apply agree_rounds
               | apply agree_game_over | agree_step].
Qed.

(** X27.  Whether the robot moves or every move request fails, the game
    is the same: with the same replies of the model and the same lines
    typed, [run] ends the same way, with the same score and number of
    questions, after the same lines printed, the same requests to the
    model and the same prompts. *)
Theorem failing_moves_do_not_change_the_game (fuel : nat) (g : game) :
  fst (run w1 fuel g) = fst (run w2 fuel g) /\
  score (snd (run w1 fuel g)) = score (snd (run w2 fuel g)) /\
  questions_asked (snd (run w1 fuel g)) =
    questions_asked (snd (run w2 fuel g)) /\
  dialogue (snd (run w1 fuel g)) = dialogue (snd (run w2 fuel g)).
Proof.
  assert (Hg : alike g g) by (unfold alike; tauto).
  destruct (agree_run fuel g g Hg) as (E & E1 & E2 & _ & _ & E5).
  tauto.
Qed.

End TwoWorlds.

Lemma failing_moves_do_not_change_the_game_witness :
  fst (@Quiz.run ascii_text one_good_round 1 Quiz.init) =
    fst (@Quiz.run ascii_text robot_unreachable 1 Quiz.init) /\
  Quiz.score (snd (@Quiz.run ascii_text one_good_round 1 Quiz.init)) =
    Quiz.score (snd (@Quiz.run ascii_text robot_unreachable 1 Quiz.init)) /\
  Quiz.questions_asked (snd (@Quiz.run ascii_text one_good_round 1 Quiz.init)) =
    Quiz.questions_asked
      (snd (@Quiz.run ascii_text robot_unreachable 1 Quiz.init)) /\
  dialogue (snd (@Quiz.run ascii_text one_good_round 1 Quiz.init)) =
    dialogue (snd (@Quiz.run ascii_text robot_unreachable 1 Quiz.init)).
Proof.
  apply (@failing_moves_do_not_change_the_game ascii_text one_good_round
           robot_unreachable).
  - intros i e E. discriminate E.
  - intros i e E. injection E as <-. reflexivity.
  - split; intros i; reflexivity.
Defined.
